(** * Collection orchestration of the threat-intelligence collectors

  A shallow embedding of the orchestration code of the collectors
  (AbuseIPDB, VirusTotal, phishing export) and of the job scheduler of the
  Flask application, with the properties of the design document checked
  against it.

  Conventions
  - Python [str] is [string]; SQL integers and timestamps are [Z]
    (timestamps are seconds).
  - A MySQL table with a primary key is a list of rows whose keys are
    pairwise distinct ([AbuseIPDB_IP_Report]), a finite set when the key is
    the only column the program reads ([Invalid_IPs]), or a finite map
    ([VirusTotal_IP_Info]).
  - Everything the program cannot decide by itself (what a page answers,
    whether MySQL raises, what [random] draws) is an explicit argument.
  - A method of a collector is a function from the object to its result,
    the object afterwards and the list of what it did; an exception is a
    result.
  - The definitions come first, module by module, and the properties
    after them. *)

From stdpp Require Import gmap strings list sorting pretty.
From Stdlib Require Import ZArith Ascii String.

Local Open Scope Z_scope.

(** ** Regular expressions without iteration

  The only pattern the orchestration code compiles is star free, so the
  matcher below is a structural recursion: [residues r s] lists what is left
  of [s] after each way of matching [r] at its start. *)

Module Regex.

Inductive regex : Type :=
| Eps
| Chr (c : ascii)
| Range (lo hi : ascii)
| Seq (r1 r2 : regex)
| Alt (r1 r2 : regex).

(** [lit "10."] is the pattern [10\.]: the characters in a row. *)
Fixpoint lit (s : string) : regex :=
  match s with
  | EmptyString => Eps
  | String c s' => Seq (Chr c) (lit s')
  end.

Definition in_range (lo hi c : ascii) : bool :=
  (nat_of_ascii lo <=? nat_of_ascii c)%nat && (nat_of_ascii c <=? nat_of_ascii hi)%nat.

Fixpoint residues (r : regex) (s : string) : list string :=
  match r with
  | Eps => [s]
  | Chr c =>
      match s with
      | String d s' => if Ascii.eqb c d then [s'] else []
      | EmptyString => []
      end
  | Range lo hi =>
      match s with
      | String d s' => if in_range lo hi d then [s'] else []
      | EmptyString => []
      end
  | Seq r1 r2 => residues r1 s ≫= residues r2
  | Alt r1 r2 => residues r1 s ++ residues r2 s
  end.

(** [re.match]: the pattern matches at the start of the string. *)
Definition re_match (r : regex) (s : string) : bool :=
  match residues r s with
  | [] => false
  | _ :: _ => true
  end.

(** The words of a star-free pattern, listed. *)
Definition range_chars (lo hi : ascii) : list ascii :=
  ascii_of_nat <$> seq (nat_of_ascii lo) (S (nat_of_ascii hi) - nat_of_ascii lo).

Fixpoint words (r : regex) : list string :=
  match r with
  | Eps => [""]
  | Chr c => [String c ""]
  | Range lo hi => (λ c, String c "") <$> range_chars lo hi
  | Seq r1 r2 => w1 ← words r1; w2 ← words r2; [w1 +:+ w2]
  | Alt r1 r2 => words r1 ++ words r2
  end.

End Regex.

(** ** Values shared by the collectors *)

Inductive level : Type := DEBUG | INFO | WARNING | ERROR.

(** What a Python call does: it returns or it raises ([Exception] and its
    subclasses; the text is [str(e)]). *)
Inductive result (A : Type) : Type :=
| Return (a : A)
| Raise (e : string).
Arguments Return {A} a.
Arguments Raise {A} e.

(** Whether the MySQL statements of a call go through or raise
    [mysql.connector.Error]. *)
Inductive sql_outcome : Type := SqlOk | SqlError.

(** [needle in hay] on Python strings. *)
Fixpoint contains (needle hay : string) : bool :=
  String.prefix needle hay ||
  match hay with
  | EmptyString => false
  | String _ hay' => contains needle hay'
  end.

(** [json.dumps] is applied to a string or to a flat dictionary. *)
Inductive json : Type :=
| JStr (s : string)
| JObj (fields : list (string * string)).

(** What a collector does to the outside, in the order it does it. The
    records of the loggers are kept where a property reads them. *)
Inductive event : Type :=
| EvLog (l : level) (msg : string)
| EvSetupDriver
| EvSetupDatabase
| EvAddCookies
| EvGet (url : string)
| EvScreenshot (file : string)
| EvQuitDriver
| EvCloseCursor
| EvCloseConnection
| EvSleep (seconds : Z)
| EvPause (lo hi : Z)
| EvCall (method : string).

(** [str.strip()] on ASCII text. *)
Definition py_space (c : ascii) : bool :=
  let n := nat_of_ascii c in
  ((9 <=? n)%nat && (n <=? 13)%nat) || ((28 <=? n)%nat && (n <=? 32)%nat).

Fixpoint lstrip (s : string) : string :=
  match s with
  | EmptyString => EmptyString
  | String c s' => if py_space c then lstrip s' else s
  end.

Definition strip (s : string) : string :=
  String.rev (lstrip (String.rev (lstrip s))).

(** ** collectors/abuseipdb_collector.py: the persistent state *)

Module AbuseIPDB.
Import Regex.

(** [invalid_ip_pattern], compiled in [__init__]:
    [^(0\.|10\.|127\.|169\.254\.|172\.(1[6-9]|2[0-9]|3[01])\.|192\.168\.|224\.|240\.)] *)
Definition invalid_ip_pattern : regex :=
  Alt (lit "0.")
 (Alt (lit "10.")
 (Alt (lit "127.")
 (Alt (lit "169.254.")
 (Alt (Seq (lit "172.")
      (Seq (Alt (Seq (Chr "1") (Range "6" "9"))
           (Alt (Seq (Chr "2") (Range "0" "9"))
                (Seq (Chr "3") (Range "0" "1"))))
           (Chr ".")))
 (Alt (lit "192.168.")
 (Alt (lit "224.")
      (lit "240."))))))).

Definition is_valid_public_ip (ip : string) : bool :=
  negb (re_match invalid_ip_pattern ip).

(** A row of [AbuseIPDB_IP_Report]; [ip_address] is its key. *)
Record report_row : Type := {
  ip_address : string;
  isp : string;
  country : string;
  score : Z;
  label : string;
  update_time : string }.

Record Database : Type := {
  Combined_IP_Score : list (string * Z);
  AbuseIPDB_IP_Report : list report_row;
  Invalid_IPs : gset string }.

Definition set_report (t : list report_row) (db : Database) : Database :=
  {| Combined_IP_Score := Combined_IP_Score db;
     AbuseIPDB_IP_Report := t;
     Invalid_IPs := Invalid_IPs db |}.

Definition set_invalid (s : gset string) (db : Database) : Database :=
  {| Combined_IP_Score := Combined_IP_Score db;
     AbuseIPDB_IP_Report := AbuseIPDB_IP_Report db;
     Invalid_IPs := s |}.

Definition set_combined (t : list (string * Z)) (db : Database) : Database :=
  {| Combined_IP_Score := t;
     AbuseIPDB_IP_Report := AbuseIPDB_IP_Report db;
     Invalid_IPs := Invalid_IPs db |}.

(** The primary key of the report table. *)
Definition report_keys_unique (db : Database) : Prop :=
  NoDup (ip_address <$> AbuseIPDB_IP_Report db).

(** *** get_ips_to_scrape *)

(** The two [NOT EXISTS] conditions of the query. *)
Definition unprocessed (db : Database) (row : string * Z) : Prop :=
  ¬ (row.1 ∈ ip_address <$> AbuseIPDB_IP_Report db) ∧ ¬ (row.1 ∈ Invalid_IPs db).

Global Instance unprocessed_dec db row : Decision (unprocessed db row).
Proof. unfold unprocessed. apply _. Defined.

(** [ORDER BY score DESC]. *)
Definition score_desc (r1 r2 : string * Z) : Prop := r2.2 ≤ r1.2.

Global Instance score_desc_dec : RelDecision score_desc.
Proof. intros r1 r2. unfold score_desc. apply _. Defined.

(** The common table expression [RankedIPs]; [LIMIT batch_size]. *)
Definition RankedIPs (db : Database) (batch_size : nat) : list (string * Z) :=
  take batch_size (merge_sort score_desc (filter (unprocessed db) (Combined_IP_Score db))).

(** Any exception gives the empty list; otherwise the selected addresses
    that pass [is_valid_public_ip]. *)
Definition get_ips_to_scrape (exec : sql_outcome) (db : Database) (batch_size : nat)
  : list string :=
  match exec with
  | SqlError => []
  | SqlOk => filter (λ ip, is_valid_public_ip ip = true) ((RankedIPs db batch_size).*1)
  end.

(** *** mark_ip_as_invalid

    [INSERT INTO Invalid_IPs ... ON DUPLICATE KEY UPDATE] and commit; on a
    MySQL error the transaction is rolled back. *)
Definition mark_ip_as_invalid (exec : sql_outcome) (ip : string) (db : Database)
  : Database :=
  match exec with
  | SqlOk => set_invalid ({[ ip ]} ∪ Invalid_IPs db) db
  | SqlError => db
  end.

(** *** insert_data *)

Inductive py_label : Type :=
| LabelStr (s : string)
| LabelDict (d : list (string * string))
| LabelNone.

(** The dictionary [scrape_ip_data] returns. *)
Record scraped : Type := {
  d_ip : string;
  d_isp : string;
  d_score : Z;
  d_country : string;
  d_label : py_label;
  d_update_time : string }.

(** [INSERT ... ON DUPLICATE KEY UPDATE] on a table keyed by [ip_address]:
    a row with the key has its other columns overwritten, and without such
    a row the new one is added. *)
Definition overwrite (new old : report_row) : report_row :=
  if decide (ip_address old = ip_address new) then
    {| ip_address := ip_address old;
       isp := isp new;
       country := country new;
       score := score new;
       label := label new;
       update_time := update_time new |}
  else old.

Definition upsert (new : report_row) (t : list report_row) : list report_row :=
  if decide (ip_address new ∈ ip_address <$> t)
  then overwrite new <$> t
  else t ++ [new].

Section WithJson.
Context (json_dumps : json → string).

Definition json_label (l : py_label) : string :=
  match l with
  | LabelStr s => json_dumps (JStr s)
  | LabelDict d => json_dumps (JObj d)
  | LabelNone => json_dumps (JObj [("value", "None")])
  end.

(** The parameters of the statement. *)
Definition row_of (data : scraped) : report_row :=
  {| ip_address := d_ip data;
     isp := d_isp data;
     country := d_country data;
     score := d_score data;
     label := json_label (d_label data);
     update_time := d_update_time data |}.

Definition insert_data (exec : sql_outcome) (data : scraped) (db : Database)
  : Database :=
  match exec with
  | SqlOk => set_report (upsert (row_of data) (AbuseIPDB_IP_Report db)) db
  | SqlError => db
  end.
End WithJson.

(** The prefixes the pattern is written to reject: [0.], [10.], [127.],
    [169.254.], [172.16.] to [172.31.], [192.168.], [224.] and [240.]. *)
Definition private_prefixes : list string :=
  [ "0."; "10."; "127."; "169.254.";
    "172.16."; "172.17."; "172.18."; "172.19.";
    "172.20."; "172.21."; "172.22."; "172.23."; "172.24.";
    "172.25."; "172.26."; "172.27."; "172.28."; "172.29.";
    "172.30."; "172.31.";
    "192.168."; "224."; "240." ].

(** *** abuseipdb_sitemap_collector.py: save_ips_to_db

    The other writer of [Combined_IP_Score]: every address that is a
    non-empty string and is not in [processed_ips] is inserted with score 0;
    [ON DUPLICATE KEY UPDATE ip_address = ip_address] leaves an existing row
    as it is. *)
Definition insert_ip (ip : string) (t : list (string * Z)) : list (string * Z) :=
  if decide (ip ∈ t.*1) then t else t ++ [(ip, 0)].

Fixpoint save_ips (processed_ips : gset string) (ips : list string)
  (t : list (string * Z)) : list (string * Z) :=
  match ips with
  | [] => t
  | ip :: ips' =>
      if bool_decide (ip ≠ "") && bool_decide (ip ∉ processed_ips)
      then save_ips ({[ ip ]} ∪ processed_ips) ips' (insert_ip ip t)
      else save_ips processed_ips ips' t
  end.

Definition save_ips_to_db (exec : sql_outcome) (processed_ips : gset string)
  (ips : list string) (db : Database) : Database :=
  match exec with
  | SqlOk => set_combined (save_ips processed_ips ips (Combined_IP_Score db)) db
  | SqlError => db
  end.

(** *** The statements the collectors run against these tables *)
Inductive db_op : Type :=
| OpMarkInvalid (exec : sql_outcome) (ip : string)
| OpInsertData (exec : sql_outcome) (data : scraped)
| OpSaveIps (exec : sql_outcome) (processed_ips : gset string) (ips : list string).

Definition run_op (json_dumps : json → string) (db : Database) (op : db_op) : Database :=
  match op with
  | OpMarkInvalid exec ip => mark_ip_as_invalid exec ip db
  | OpInsertData exec data => insert_data json_dumps exec data db
  | OpSaveIps exec processed ips => save_ips_to_db exec processed ips db
  end.

Definition run_ops (json_dumps : json → string) (ops : list db_op) (db : Database)
  : Database :=
  foldl (run_op json_dumps) db ops.

(** *** scrape_ip_data *)

(** What the site answers for one address. *)
Inductive page_outcome : Type :=
| GetRaises (e : string)
    (* [driver.get(url)] raises, before the [try] *)
| PageRaises (e : string)
    (* an exception inside the [try]: the wait times out, a script or the
       parsing of the score fails *)
| ScreenshotRaises (e e' : string)
    (* an exception inside the [try], and then [save_screenshot] raises in
       the handler, where nothing catches it *)
| PageScraped (isp_text : string) (score_value : Z) (country_text : string)
    (label_text : string).

Definition check_url (ip : string) : string :=
  "https://www.abuseipdb.com/check/" +:+ ip.

Definition screenshot_file (ip : string) : string :=
  "error_" +:+ ip +:+ ".png".

Definition mark_ip_as_invalid_log (exec : sql_outcome) (ip : string) : list event :=
  match exec with
  | SqlOk => [EvLog INFO ("Marked IP " +:+ ip +:+ " as invalid")]
  | SqlError => [EvLog ERROR ("Error marking IP " +:+ ip +:+ " as invalid")]
  end.

(** The [except Exception] branch: the message depends on the text of the
    exception, the rest does not. *)
Definition scrape_failure_log (e : string) (screenshot_exists : bool) (ip : string)
  : list event :=
  [ if contains "TimeoutException" e
    then EvLog ERROR ("Cookie expiration or Cloudflare challenge detected for IP "
                      +:+ ip +:+ ". Please update your cookies.")
    else EvLog ERROR ("Error scraping data for IP " +:+ ip +:+ ": " +:+ e) ] ++
  (if screenshot_exists
   then [EvLog INFO ("Screenshot already exists for IP " +:+ ip)]
   else [EvScreenshot (screenshot_file ip);
         EvLog INFO ("Screenshot saved to " +:+ screenshot_file ip)]).

(** The value returned (or the exception that escapes), the database after
    the call, and what the call did. *)
Definition scrape_ip_data (page : page_outcome) (exec : sql_outcome)
  (screenshot_exists : bool) (now : string) (ip : string) (db : Database)
  : result (option scraped) * Database * list event :=
  match page with
  | GetRaises e => (Raise e, db, [EvGet (check_url ip)])
  | PageScraped isp_text score_value country_text label_text =>
      (Return (Some {| d_ip := ip;
                       d_isp := strip isp_text;
                       d_score := score_value;
                       d_country := strip country_text;
                       d_label := if decide (label_text = "") then LabelNone
                                  else LabelStr (strip label_text);
                       d_update_time := now |}),
       db,
       [EvGet (check_url ip)])
  | PageRaises e =>
      (Return None,
       mark_ip_as_invalid exec ip db,
       [EvGet (check_url ip)] ++ scrape_failure_log e screenshot_exists ip
         ++ mark_ip_as_invalid_log exec ip)
  | ScreenshotRaises e e' =>
      if screenshot_exists
      then (Return None,
            mark_ip_as_invalid exec ip db,
            [EvGet (check_url ip)] ++ scrape_failure_log e true ip
              ++ mark_ip_as_invalid_log exec ip)
      else (Raise e', db, [EvGet (check_url ip)] ++ take 1 (scrape_failure_log e false ip))
  end.

(** *** scrape_ips: the batches

    What the outside does is told visit by visit and batch by batch. For the
    [v]-th address visited during the call, [page_of v] is what the site
    answers, [shot v] whether the screenshot of the address is already
    there, [now v] the time, and [write_exec v] whether the statement of the
    visit (the mark, or the [INSERT] of [insert_data]) goes through; both
    swallow their MySQL error. [select_exec b] is whether the [SELECT] of
    the [b]-th batch goes through. [EvPause 5 10] is
    [time.sleep(random.uniform(5, 10))]. *)
Section Batches.
Context (json_dumps : json → string) (now : nat → string).
Context (page_of : nat → string → page_outcome) (shot : nat → string → bool).
Context (select_exec write_exec : nat → sql_outcome).

(** The [for] loop over one batch, from visit [v] on. *)
Fixpoint scrape_batch (v : nat) (ip_list : list string) (db : Database)
  (results : list scraped) : result (list scraped) * Database * list event :=
  match ip_list with
  | [] => (Return results, db, [])
  | ip :: rest =>
      match scrape_ip_data (page_of v ip) (write_exec v) (shot v ip) (now v) ip db with
      | (Raise e, db1, evs) =>
          (Raise e, db1, EvLog INFO ("Scraping data for IP: " +:+ ip) :: evs)
      | (Return None, db1, evs) =>
          match scrape_batch (S v) rest db1 results with
          | (r, db2, evs') =>
              (r, db2,
               EvLog INFO ("Scraping data for IP: " +:+ ip) :: evs ++ EvPause 5 10 :: evs')
          end
      | (Return (Some data), db1, evs) =>
          match scrape_batch (S v) rest
                  (insert_data json_dumps (write_exec v) data db1) (results ++ [data]) with
          | (r, db2, evs') =>
              (r, db2,
               EvLog INFO ("Scraping data for IP: " +:+ ip) :: evs ++ EvPause 5 10 :: evs')
          end
      end
  end.

Definition batch_retrieved (ip_list : list string) : event :=
  EvLog INFO ("Retrieved " +:+ pretty (List.length ip_list) +:+ " valid public IPs to scrape").

Definition batch_completed (ip_list : list string) : event :=
  EvLog INFO ("Completed batch of " +:+ pretty (List.length ip_list) +:+ " IPs").

(** The [while True] loop from batch [b] and visit [v] on, for at most
    [fuel] batches: [None] when the loop has not ended by then. *)
Fixpoint scrape_batches (fuel : nat) (b v : nat) (batch_size : nat) (db : Database)
  (results : list scraped)
  : option (result (list scraped) * Database * list event) :=
  match fuel with
  | O => None
  | S fuel' =>
      match get_ips_to_scrape (select_exec b) db batch_size with
      | [] => Some (Return results, db,
                    [EvLog INFO "No more valid IPs to scrape. Exiting."])
      | ip_list =>
          match scrape_batch v ip_list db results with
          | (Raise e, db1, evs) => Some (Raise e, db1, batch_retrieved ip_list :: evs)
          | (Return results1, db1, evs) =>
              match scrape_batches fuel' (S b) (v + List.length ip_list) batch_size
                      db1 results1 with
              | Some (r, db2, evs') =>
                  Some (r, db2,
                        batch_retrieved ip_list :: evs ++ batch_completed ip_list :: evs')
              | None => None
              end
          end
      end
  end.

End Batches.

(** The rows of [Combined_IP_Score] that are still to be processed. *)
Definition backlog (db : Database) : nat :=
  List.length (filter (unprocessed db) (Combined_IP_Score db)).

(** The tables only grow, and [Combined_IP_Score] is not touched. *)
Definition grows (db db' : Database) : Prop :=
  Combined_IP_Score db' = Combined_IP_Score db
  ∧ Invalid_IPs db ⊆ Invalid_IPs db'
  ∧ (∀ k, k ∈ ip_address <$> AbuseIPDB_IP_Report db →
          k ∈ ip_address <$> AbuseIPDB_IP_Report db').

End AbuseIPDB.

(** ** Methods of a collector object

    A method takes the object, returns or raises, leaves the object in a new
    state and has done a list of things. *)

Definition M (S A : Type) : Type := S → result A * S * list event.

Global Instance M_ret {S} : MRet (M S) := λ A a s, (Return a, s, []).

Global Instance M_bind {S} : MBind (M S) := λ A B f m s,
  match m s with
  | (Return a, s', evs) =>
      match f a s' with
      | (r, s'', evs') => (r, s'', evs ++ evs')
      end
  | (Raise e, s', evs) => (Raise e, s', evs)
  end.

Definition raise {S A} (e : string) : M S A := λ s, (Raise e, s, []).

Definition emit {S} (ev : event) : M S () := λ s, (Return (), s, [ev]).

Definition get_self {S} : M S S := λ s, (Return s, s, []).

Definition put_self {S} (s' : S) : M S () := λ _, (Return (), s', []).

(** [try: body except Exception as e: handler(str(e))]. *)
Definition try_except {S A} (body : M S A) (handler : string → M S A) : M S A := λ s,
  match body s with
  | (Return a, s', evs) => (Return a, s', evs)
  | (Raise e, s', evs) =>
      match handler e s' with
      | (r, s'', evs') => (r, s'', evs ++ evs')
      end
  end.

Definition log {S} (l : level) (msg : string) : M S () := emit (EvLog l msg).

Definition sleep {S} (seconds : Z) : M S () := emit (EvSleep seconds).

Definition outcome_of {S A} (x : result A * S * list event) : result A := x.1.1.
Definition state_of {S A} (x : result A * S * list event) : S := x.1.2.
Definition events_of {S A} (x : result A * S * list event) : list event := x.2.

(** The delays of a run, in order: the arguments of its [time.sleep]. *)
Definition sleeps (evs : list event) : list Z :=
  omap (λ ev, match ev with EvSleep n => Some n | _ => None end) evs.

(** [random.randint(lo, hi)] on a raw draw. *)
Definition randint (lo hi draw : Z) : Z := lo + draw `mod` (hi - lo + 1).

(** An external resource held by a collector: a browser session, a database
    connection, a cursor. *)
Inductive handle : Type := Live | Closed.

(** ** collectors/abuseipdb_collector.py: the continuous worker *)

Module AbuseIPDBWorker.
Import AbuseIPDB.

(** The handles are attributes of the object, set by [setup_driver] and
    [setup_database] and never deleted or set to [None]: an attribute is
    missing or holds its object. *)
Record Collector : Type := {
  running : bool;
  driver : option handle;
  conn : option handle;
  cur : option handle }.

Definition hasattr (a : option handle) : bool :=
  match a with
  | Some _ => true
  | None => false
  end.

Definition set_running (b : bool) (s : Collector) : Collector :=
  {| running := b; driver := driver s; conn := conn s; cur := cur s |}.

Definition set_driver (a : option handle) (s : Collector) : Collector :=
  {| running := running s; driver := a; conn := conn s; cur := cur s |}.

Definition set_conn (a : option handle) (s : Collector) : Collector :=
  {| running := running s; driver := driver s; conn := a; cur := cur s |}.

Definition set_cur (a : option handle) (s : Collector) : Collector :=
  {| running := running s; driver := driver s; conn := conn s; cur := a |}.

(** What the outside does during one cycle. *)
Record cycle_env : Type := {
  chrome : result ();
    (* [webdriver.Chrome(...)] and [stealth] in [setup_driver] *)
  mysql : result ();
    (* [mysql.connector.connect] in [setup_database] *)
  site : result ();
    (* the requests of [add_cookies] on a live session *)
  batches : result (list scraped);
    (* the batches of [scrape_ips] after its [add_cookies], when they come
       to an end: what [AbuseIPDB.scrape_batches] returns or raises; the
       pauses between the addresses are in there *)
  stop_requested : bool
    (* another thread calls [stop_collection] while this cycle sleeps *) }.

Definition setup_driver (env : cycle_env) : M Collector () :=
  emit EvSetupDriver ;;
  match chrome env with
  | Raise e => raise e
  | Return _ => s ← get_self; put_self (set_driver (Some Live) s)
  end.

Definition setup_database (env : cycle_env) : M Collector () :=
  emit EvSetupDatabase ;;
  match mysql env with
  | Raise e =>
      log ERROR ("MySQL connection error: " +:+ e) ;; raise e
  | Return _ =>
      s ← get_self;
      put_self (set_cur (Some Live) (set_conn (Some Live) s)) ;;
      log INFO "Database connection established successfully"
  end.

(** [self.driver.get(...)], [add_cookie], [refresh]: a session that has been
    quit answers no command. *)
Definition add_cookies (env : cycle_env) : M Collector () :=
  s ← get_self;
  match driver s with
  | None => raise "AttributeError: 'AbuseIPDBCollector' object has no attribute 'driver'"
  | Some Closed => raise "InvalidSessionIdException"
  | Some Live =>
      emit EvAddCookies ;;
      match site env with
      | Raise e => raise e
      | Return _ => mret ()
      end
  end.

Definition scrape_ips (env : cycle_env) : M Collector (list scraped) :=
  add_cookies env ;;
  match batches env with
  | Raise e => raise e
  | Return results => mret results
  end.

(** [close]: each handle that is an attribute of the object is closed, the
    driver, then the cursor, then the connection; the attributes stay. *)
Definition close : M Collector () :=
  s ← get_self;
  (if hasattr (driver s)
   then emit EvQuitDriver ;; put_self (set_driver (Some Closed) s)
   else mret ()) ;;
  s ← get_self;
  (if hasattr (cur s)
   then emit EvCloseCursor ;; put_self (set_cur (Some Closed) s)
   else mret ()) ;;
  s ← get_self;
  (if hasattr (conn s)
   then emit EvCloseConnection ;; put_self (set_conn (Some Closed) s)
   else mret ()).

(** The body of the [try] of one turn of the loop, up to the result of
    [scrape_ips]. *)
Definition cycle_body (env : cycle_env) : M Collector (list scraped) :=
  s ← get_self;
  (if negb (hasattr (driver s)) || negb (hasattr (conn s))
   then setup_driver env ;; setup_database env ;; add_cookies env
   else mret ()) ;;
  log INFO "Starting continuous collection cycle" ;;
  scrape_ips env.

Definition after_results (results : list scraped) : M Collector () :=
  match results with
  | [] =>
      log INFO "No new IPs to process, waiting before next cycle" ;;
      sleep 300
  | _ :: _ =>
      log INFO ("Processed " +:+ pretty (List.length results) +:+ " IPs in this cycle") ;;
      sleep 30
  end.

Definition cycle (env : cycle_env) : M Collector () :=
  try_except
    (results ← cycle_body env; after_results results)
    (λ e,
       log ERROR ("Error in collection cycle: " +:+ e) ;;
       close ;;
       sleep 60).

Definition stop_collection : M Collector () :=
  s ← get_self; put_self (set_running false s).

(** [while self.running:] over the cycles the outside lets happen; the flag is
    read before each cycle only. *)
Fixpoint loop (envs : list cycle_env) : M Collector () :=
  match envs with
  | [] => mret ()
  | env :: envs' =>
      s ← get_self;
      if running s then
        cycle env ;;
        (if stop_requested env then stop_collection else mret ()) ;;
        loop envs'
      else mret ()
  end.

Definition collect_continuous (envs : list cycle_env) : M Collector () :=
  s ← get_self; put_self (set_running true s) ;; loop envs.

(** The object [__init__] leaves when it does not raise. *)
Definition initialized : Collector :=
  {| running := false; driver := Some Live; conn := Some Live; cur := Some Live |}.

(** The state [close] leaves after a cycle of the running worker: the handles are closed and are still
    attributes. *)
Definition closed_after_error : Collector :=
  {| running := true; driver := Some Closed; conn := Some Closed; cur := Some Closed |}.

End AbuseIPDBWorker.

(** ** collectors/virustotal_collector.py *)

Module VirusTotal.

(** A row of [VirusTotal_IP_Info], keyed by [ip_address]; [update_time] may
    be NULL. *)
Record vt_row : Type := {
  positive_detections : option Z;
  total_detections : option Z;
  country : option string;
  total_communicating_files : Z;
  jarm_fingerprint : option string;
  engine_detections : string;
  update_time : option Z }.

(** The dictionary [scrape] returns (the relations are not stored). *)
Record vt_data : Type := {
  d_positive : option Z;
  d_total : option Z;
  d_country : option string;
  d_engines : list (string * string);
  d_total_files : Z;
  d_jarm : option string }.

Record Database : Type := {
  AbuseIPDB_IP_Report : list AbuseIPDB.report_row;
  VirusTotal_IP_Info : gmap string vt_row }.

Definition set_info (t : gmap string vt_row) (db : Database) : Database :=
  {| AbuseIPDB_IP_Report := AbuseIPDB_IP_Report db; VirusTotal_IP_Info := t |}.

Definition one_day : Z := 86400.

(** The [WHERE] clause on the left join: no row for the address, or a row
    whose [update_time] is before [NOW() - INTERVAL 1 DAY] (a comparison with
    NULL is not true). *)
Definition needs_update (now : Z) (db : Database) (a : AbuseIPDB.report_row) : Prop :=
  match VirusTotal_IP_Info db !! AbuseIPDB.ip_address a with
  | None => True
  | Some v =>
      match update_time v with
      | Some t => t < now - one_day
      | None => False
      end
  end.

Global Instance needs_update_dec now db a : Decision (needs_update now db a).
Proof.
  unfold needs_update. destruct (VirusTotal_IP_Info db !! AbuseIPDB.ip_address a) as [v|];
    [destruct (update_time v)|]; apply _.
Defined.

(** [ORDER BY a.score DESC]. *)
Definition score_desc (a1 a2 : AbuseIPDB.report_row) : Prop :=
  AbuseIPDB.score a2 ≤ AbuseIPDB.score a1.

Global Instance score_desc_dec : RelDecision score_desc.
Proof. intros a1 a2. unfold score_desc. apply _. Defined.

(** [LIMIT 1] and [fetchone]; a MySQL error gives [None]. *)
Definition get_ip_from_db (exec : sql_outcome) (now : Z) (db : Database)
  : option string :=
  match exec with
  | SqlError => None
  | SqlOk =>
      AbuseIPDB.ip_address <$>
        head (merge_sort score_desc (filter (needs_update now db) (AbuseIPDB_IP_Report db)))
  end.

Section WithSchema.
(** [json.dumps], and the value a new row gets in [update_time], which the
    [INSERT] does not list: the default of the column, declared outside the
    repository. *)
Context (json_dumps : json → string) (update_time_default : Z → option Z).

(** [INSERT ... ON DUPLICATE KEY UPDATE ..., update_time = CURRENT_TIMESTAMP]. *)
Definition update_db (exec : sql_outcome) (now : Z) (ip : string) (data : vt_data)
  (db : Database) : Database :=
  match exec with
  | SqlError => db
  | SqlOk =>
      let stamp :=
        match VirusTotal_IP_Info db !! ip with
        | Some _ => Some now
        | None => update_time_default now
        end in
      set_info
        (<[ ip := {| positive_detections := d_positive data;
                     total_detections := d_total data;
                     country := d_country data;
                     total_communicating_files := d_total_files data;
                     jarm_fingerprint := d_jarm data;
                     engine_detections := json_dumps (JObj (d_engines data));
                     update_time := stamp |} ]> (VirusTotal_IP_Info db))
        db
  end.

(** The attribute [driver] of the object: missing, [None] (the loop and
    [stop_collection] assign it), or the session. *)
Inductive attr : Type := Missing | PyNone | Obj (h : handle).

Definition hasattr (a : attr) : bool :=
  match a with
  | Missing => false
  | _ => true
  end.

(** The truth value of the attribute where it is read. *)
Definition truthy (a : attr) : bool :=
  match a with
  | Obj _ => true
  | _ => false
  end.

Record Collector : Type := {
  running : bool;
  driver : attr }.

(** The worker and the tables it reads and writes. *)
Record World : Type := {
  self : Collector;
  db : Database }.

Definition set_running (b : bool) (w : World) : World :=
  {| self := {| running := b; driver := driver (self w) |}; db := db w |}.

Definition set_driver (a : attr) (w : World) : World :=
  {| self := {| running := running (self w); driver := a |}; db := db w |}.

Definition set_db (d : Database) (w : World) : World :=
  {| self := self w; db := d |}.

Record cycle_env : Type := {
  chrome : result ();
    (* [webdriver.Chrome(...)], the first page and the cookies *)
  now : Z;
  select_exec : sql_outcome;
  page : result (option vt_data);
    (* what [scrape] does on a live session, when it comes back: on a
       captcha page [handle_captcha] may wait at [input()] *)
  update_exec : sql_outcome;
  draw : Z;
    (* the draw behind [random.randint(30, 40)] *)
  stop_requested : bool }.

Definition setup_webdriver (env : cycle_env) : M World () :=
  emit EvSetupDriver ;;
  match chrome env with
  | Raise e =>
      log ERROR ("Failed to setup WebDriver: " +:+ e) ;; raise e
  | Return _ =>
      w ← get_self;
      put_self (set_driver (Obj Live) w) ;;
      sleep 2 ;;
      log INFO "WebDriver setup completed successfully"
  end.

Definition vt_url (ip : string) : string :=
  "https://www.virustotal.com/gui/ip-address/" +:+ ip.

Definition scrape (env : cycle_env) (ip : string) : M World (option vt_data) :=
  w ← get_self;
  match driver (self w) with
  | Missing => raise "AttributeError: 'VirusTotalCollector' object has no attribute 'driver'"
  | PyNone => raise "AttributeError: 'NoneType' object has no attribute 'get'"
  | Obj Closed => raise "InvalidSessionIdException"
  | Obj Live =>
      emit (EvGet (vt_url ip)) ;;
      match page env with
      | Raise e => raise e
      | Return r => mret r
      end
  end.

(** [self.driver.quit()] inside [try: ... except: pass], then
    [self.driver = None]. *)
Definition quit_driver : M World () :=
  w ← get_self;
  if hasattr (driver (self w)) && truthy (driver (self w))
  then emit EvQuitDriver ;; put_self (set_driver PyNone w)
  else mret ().

(** The result of the [try] of one turn of the loop. *)
Inductive turn : Type := NoCandidate | Updated | Failed.

Definition cycle_body (env : cycle_env) : M World turn :=
  w ← get_self;
  (if negb (hasattr (driver (self w))) || negb (truthy (driver (self w)))
   then setup_webdriver env
   else mret ()) ;;
  log INFO "Starting continuous collection cycle" ;;
  w ← get_self;
  match get_ip_from_db (select_exec env) (now env) (db w) with
  | None => mret NoCandidate
  | Some ip =>
      if decide (ip = "") then mret NoCandidate
      else
        log INFO ("Scraping VirusTotal for IP: " +:+ ip) ;;
        r ← scrape env ip;
        match r with
        | Some data =>
            w ← get_self;
            put_self (set_db (update_db (update_exec env) (now env) ip data (db w)) w) ;;
            log INFO ("Successfully updated information for IP: " +:+ ip) ;;
            mret Updated
        | None =>
            log ERROR ("Failed to retrieve information for IP: " +:+ ip) ;;
            mret Failed
        end
  end.

Definition after_turn (env : cycle_env) (t : turn) : M World () :=
  match t with
  | NoCandidate =>
      log INFO "No new IPs to process, waiting before next cycle" ;;
      sleep 300
  | Updated => sleep (randint 30 40 (draw env))
  | Failed => sleep 60
  end.

Definition cycle (env : cycle_env) : M World () :=
  try_except
    (t ← cycle_body env; after_turn env t)
    (λ e,
       log ERROR ("Error in collection cycle: " +:+ e) ;;
       quit_driver ;;
       sleep 60).

Definition stop_collection : M World () :=
  w ← get_self;
  put_self (set_running false w) ;;
  quit_driver.

Fixpoint loop (envs : list cycle_env) : M World () :=
  match envs with
  | [] => mret ()
  | env :: envs' =>
      w ← get_self;
      if running (self w) then
        cycle env ;;
        (if stop_requested env then stop_collection else mret ()) ;;
        loop envs'
      else mret ()
  end.

Definition collect_continuous (envs : list cycle_env) : M World () :=
  w ← get_self; put_self (set_running true w) ;; loop envs.

End WithSchema.

End VirusTotal.

(** ** The backoff policy of the design, on delays

    Section 4.5 of the design asks that the delay after an error grows with
    each further consecutive error up to a ceiling, and that every delay has
    a random part. On the delays of a run under consecutive errors, and on a
    delay as a function of the random draw, the two requirements read: *)

Definition escalates (delays : list Z) : Prop :=
  ∃ (i : nat) (d1 d2 : Z),
    delays !! i = Some d1 ∧ delays !! (S i) = Some d2 ∧ d1 < d2.

Definition jittered (delay : Z → Z) : Prop :=
  ∃ draw1 draw2 : Z, delay draw1 ≠ delay draw2.

(** Runs used below: a cycle in which the batches raise, and a cycle in which
    the VirusTotal page raises, for a given draw. *)
Definition abuseipdb_failing_cycle : AbuseIPDBWorker.cycle_env :=
  {| AbuseIPDBWorker.chrome := Return ();
     AbuseIPDBWorker.mysql := Return ();
     AbuseIPDBWorker.site := Return ();
     AbuseIPDBWorker.batches := Raise "WebDriverException";
     AbuseIPDBWorker.stop_requested := false |}.

Definition virustotal_failing_cycle (draw : Z) : VirusTotal.cycle_env :=
  {| VirusTotal.chrome := Return ();
     VirusTotal.now := 1714557600;
     VirusTotal.select_exec := SqlOk;
     VirusTotal.page := Raise "WebDriverException";
     VirusTotal.update_exec := SqlOk;
     VirusTotal.draw := draw;
     VirusTotal.stop_requested := false |}.

Definition report_row_of (ip : string) (score : Z) : AbuseIPDB.report_row :=
  {| AbuseIPDB.ip_address := ip;
     AbuseIPDB.isp := "";
     AbuseIPDB.country := "";
     AbuseIPDB.score := score;
     AbuseIPDB.label := "";
     AbuseIPDB.update_time := "" |}.

Definition virustotal_started : VirusTotal.World :=
  {| VirusTotal.self := {| VirusTotal.running := false; VirusTotal.driver := VirusTotal.Obj Live |};
     VirusTotal.db :=
       {| VirusTotal.AbuseIPDB_IP_Report := [report_row_of "8.8.8.8" 90];
          VirusTotal.VirusTotal_IP_Info := ∅ |} |}.

(** An encoder for the examples: text without characters to escape. *)
Definition json_dumps_plain (j : json) : string :=
  match j with
  | JStr s => s
  | JObj fields => String.concat "," ((λ kv, kv.1 +:+ ":" +:+ kv.2) <$> fields)
  end.

(** Tables for the examples: a private address with the best score, a public
    one, and another private one. *)
Definition sample_tables : AbuseIPDB.Database :=
  {| AbuseIPDB.Combined_IP_Score := [("10.0.0.1", 100); ("8.8.8.8", 90); ("172.20.1.1", 80)];
     AbuseIPDB.AbuseIPDB_IP_Report := [report_row_of "1.1.1.1" 5];
     AbuseIPDB.Invalid_IPs := ∅ |}.

Definition sample_scraped (isp : string) (score : Z) (time : string) : AbuseIPDB.scraped :=
  {| AbuseIPDB.d_ip := "8.8.8.8";
     AbuseIPDB.d_isp := isp;
     AbuseIPDB.d_score := score;
     AbuseIPDB.d_country := "United States of America";
     AbuseIPDB.d_label := AbuseIPDB.LabelNone;
     AbuseIPDB.d_update_time := time |}.

(** ** app.py: the scheduled jobs *)

Module App.

(** The collectors run by the scheduler, each through its wrapper
    ([run_phishing_collector], [run_opencti_collector], [run_et_collector],
    [run_phishing_data_collector], [run_abuseipdb_sitemap_collector]). *)
Inductive collector : Type :=
| Phishing | OpenCTI | EmergingThreats | PhishingData | AbuseIPDBSitemap.

Global Instance collector_eq_dec : EqDecision collector.
Proof. solve_decision. Defined.

(** What the call of a collector does at a given time: it returns or it
    raises. *)
Definition behaviour : Type := collector → Z → result ().

Definition method (c : collector) : string :=
  match c with
  | Phishing => "phishing_collector.collect"
  | OpenCTI => "opencti_collector.save_indicators"
  | EmergingThreats => "et_collector.collect"
  | PhishingData => "phishing_data_collector.collect"
  | AbuseIPDBSitemap => "abuseipdb_sitemap_collector.collect"
  end.

Definition start_text (c : collector) : string :=
  match c with
  | Phishing => "Starting Phishing data collection..."
  | OpenCTI => "Starting OpenCTI data collection..."
  | EmergingThreats => "Starting Emerging Threats rules collection..."
  | PhishingData => "Starting Phishing data collection..."
  | AbuseIPDBSitemap => "Starting AbuseIPDB sitemap collection..."
  end.

Definition done_text (c : collector) : string :=
  match c with
  | Phishing => "Phishing data collection completed successfully"
  | OpenCTI => "OpenCTI data collection completed successfully"
  | EmergingThreats => "Emerging Threats rules collection completed successfully"
  | PhishingData => "Phishing data collection completed successfully"
  | AbuseIPDBSitemap => "AbuseIPDB sitemap collection completed"
  end.

Definition error_text (c : collector) (e : string) : string :=
  match c with
  | Phishing => "Error in Phishing collector: "
  | OpenCTI => "Error in OpenCTI collector: "
  | EmergingThreats => "Error in Emerging Threats collector: "
  | PhishingData => "Error in Phishing data collector: "
  | AbuseIPDBSitemap => "Error in AbuseIPDB sitemap collector: "
  end +:+ e.

(** [run_..._collector]: the call between two records of [app.logger], in a
    [try] whose [except Exception] writes one error record. *)
Definition run_collector {S} (env : behaviour) (now : Z) (c : collector) : M S () :=
  try_except
    (log INFO (start_text c) ;;
     emit (EvCall (method c)) ;;
     match env c now with
     | Raise e => raise e
     | Return _ => mret ()
     end ;;
     log INFO (done_text c))
    (λ e, log ERROR (error_text c e)).

(** *** The [schedule] module, as far as [app.py] uses it *)

Inductive cadence : Type :=
| Every (seconds : Z)
| DailyAt (second_of_day : Z).

Record job : Type := {
  job_func : collector;
  when : cadence;
  last_run : option Z;
  next_run : Z }.

Definition day : Z := 86400.

(** The next run of a job, counted from [now]. *)
Definition next_after (c : cadence) (now : Z) : Z :=
  match c with
  | Every seconds => now + seconds
  | DailyAt t =>
      let midnight := now - now `mod` day in
      if decide (now `mod` day < t) then midnight + t else midnight + day + t
  end.

Definition every (c : cadence) (f : collector) (now : Z) : job :=
  {| job_func := f; when := c; last_run := None; next_run := next_after c now |}.

(** The registrations of [start_scheduler], in order. *)
Definition start_scheduler (now : Z) : list job :=
  [ every (Every 30) Phishing now;
    every (Every 3600) OpenCTI now;
    every (Every day) EmergingThreats now;
    every (DailyAt (23 * 3600 + 59 * 60)) PhishingData now;
    every (DailyAt (2 * 3600)) AbuseIPDBSitemap now ].

Definition should_run (now : Z) (entry : nat * job) : Prop := next_run (entry.2) ≤ now.

Global Instance should_run_dec now entry : Decision (should_run now entry).
Proof. unfold should_run. apply _. Defined.

(** Jobs compare by [next_run]. *)
Definition earlier (e1 e2 : nat * job) : Prop := next_run (e1.2) ≤ next_run (e2.2).

Global Instance earlier_dec : RelDecision earlier.
Proof. intros e1 e2. unfold earlier. apply _. Defined.

(** [sorted(job for job in self.jobs if job.should_run)], each job with its
    place in [self.jobs]. *)
Definition runnable_jobs (now : Z) (jobs : list job) : list (nat * job) :=
  merge_sort earlier (filter (should_run now) (imap (λ i j, (i, j)) jobs)).

(** [Job.run]: the function is called, then the job is scheduled again; an
    exception of the function leaves at once. *)
Definition rescheduled (now : Z) (j : job) : job :=
  {| job_func := job_func j; when := when j;
     last_run := Some now; next_run := next_after (when j) now |}.

Definition run_job (env : behaviour) (now : Z) (entry : nat * job) : M (list job) () :=
  run_collector env now (job_func (entry.2)) ;;
  jobs ← get_self;
  put_self (<[ entry.1 := rescheduled now (entry.2) ]> jobs).

Fixpoint run_all (env : behaviour) (now : Z) (entries : list (nat * job))
  : M (list job) () :=
  match entries with
  | [] => mret ()
  | entry :: rest => run_job env now entry ;; run_all env now rest
  end.

Definition run_pending (env : behaviour) (now : Z) : M (list job) () :=
  jobs ← get_self; run_all env now (runnable_jobs now jobs).

(** [run_schedule], over the times at which the loop wakes up. *)
Fixpoint run_schedule_loop (env : behaviour) (ticks : list Z) : M (list job) () :=
  match ticks with
  | [] => mret ()
  | now :: later =>
      try_except
        (run_pending env now ;; sleep 1)
        (λ e, log ERROR ("Scheduler error: " +:+ e)) ;;
      run_schedule_loop env later
  end.

Definition run_schedule (env : behaviour) (ticks : list Z) : M (list job) () :=
  log INFO "Scheduler thread started" ;; run_schedule_loop env ticks.

(** The records of level ERROR among the events. *)
Definition error_records (evs : list event) : list string :=
  omap (λ ev, match ev with EvLog ERROR msg => Some msg | _ => None end) evs.

(** The collectors that were called, in order. *)
Definition calls (evs : list event) : list string :=
  omap (λ ev, match ev with EvCall m => Some m | _ => None end) evs.

(** The jobs after the entries have run. *)
Definition reschedule_all (now : Z) (entries : list (nat * job)) (jobs : list job)
  : list job :=
  foldl (λ js entry, <[ entry.1 := rescheduled now (entry.2) ]> js) jobs entries.

(** What one wrapper does, by itself. *)
Definition wrapper_events (env : behaviour) (now : Z) (c : collector) : list event :=
  events_of (run_collector (S := ()) env now c ()).

End App.
(** ** Paths *)

(** The last character of a text. *)
Fixpoint last_char (s : string) : option ascii :=
  match s with
  | EmptyString => None
  | String c EmptyString => Some c
  | String _ s' => last_char s'
  end.

(** Whether the last character of a text is a slash. *)
Fixpoint ends_in_slash (s : string) : bool :=
  match s with
  | EmptyString => false
  | String c EmptyString => bool_decide (c = "/"%char)
  | String _ s' => ends_in_slash s'
  end.

(** ** collectors/phishing_data_collector.py and services/phishing_domain.py *)

Module PhishingFiles.

(** A file: where it is, the time of its last change and what a reader gets
    from it. The files are listed in the order [glob] gives them. *)
Record file : Type := {
  directory : string;
  name : string;
  ctime : Z;
  content : string }.

Definition filesystem : Type := list file.

Definition at_path (d n : string) (f : file) : Prop := directory f = d ∧ name f = n.

Global Instance at_path_dec d n f : Decision (at_path d n f).
Proof. unfold at_path. apply _. Defined.

(** The file at a path is set to a content at a time: the file is replaced
    where it is, or added. *)
Definition store (d n : string) (now : Z) (c : string) (fs : filesystem) : filesystem :=
  let f := {| directory := d; name := n; ctime := now; content := c |} in
  if decide (Exists (at_path d n) fs)
  then (λ g, if decide (at_path d n g) then f else g) <$> fs
  else fs ++ [f].

(** What is read at a path, if a file is there. *)
Definition read (d n : string) (fs : filesystem) : option string :=
  content <$> head (filter (at_path d n) fs).

Definition newline : string := String "010"%char "".

(** A column of a row of [phishing_data]: a string or NULL. *)
Definition record : Type := option string * option string.

Definition py_true (x : option string) : bool :=
  match x with
  | Some s => bool_decide (s ≠ "")
  | None => false
  end.

(** What [save_to_txt] writes for one record. *)
Definition line (r : record) : string :=
  if py_true (r.1) && py_true (r.2)
  then "URL: " +:+ default "" (r.1) +:+ ", IP: " +:+ default "" (r.2) +:+ newline
  else "".

(** The whole artifact. *)
Fixpoint artifact (records : list record) : string :=
  match records with
  | [] => ""
  | r :: rest => line r +:+ artifact rest
  end.

(** The first characters of a text, and the others. *)
Fixpoint string_take (n : nat) (s : string) : string :=
  match n, s with
  | S n', String c s' => String c (string_take n' s')
  | _, _ => ""
  end.

Fixpoint string_drop (n : nat) (s : string) : string :=
  match n, s with
  | S n', String c s' => string_drop n' s'
  | _, _ => s
  end.

(** A file object opened for writing: what is in the file, what is still in
    the buffers of the object, and the texts written so far. A write goes to
    the buffers, and how much of them the object hands on to the file at a
    write is the business of the [io] module: [buffering] gives, for the
    texts written so far, the number of characters handed on at the last of
    them. Closing the file hands on the rest. *)
Record writer : Type := {
  on_disk : string;
  pending : string;
  written : list string }.

Definition write (buffering : list string → nat) (s : string) (w : writer) : writer :=
  let texts := written w ++ [s] in
  let p := pending w +:+ s in
  {| on_disk := on_disk w +:+ string_take (buffering texts) p;
     pending := string_drop (buffering texts) p;
     written := texts |}.

Definition close (w : writer) : writer :=
  {| on_disk := on_disk w +:+ pending w; pending := ""; written := written w |}.

(** The states of the file object during [save_to_txt]: after [open], after
    each turn of the loop, after the [with] block has closed the file. *)
Fixpoint write_records (buffering : list string → nat) (records : list record)
  (w : writer) : list writer :=
  match records with
  | [] => [close w]
  | r :: rest =>
      let w' := if py_true (r.1) && py_true (r.2) then write buffering (line r) w else w in
      w' :: write_records buffering rest w'
  end.

Definition opened : writer := {| on_disk := ""; pending := ""; written := [] |}.

Definition save_to_txt_states (buffering : list string → nat) (records : list record)
  : list writer :=
  opened :: write_records buffering records opened.

(** The file system during [save_to_txt (records, filename)], the file name
    being [d]/[n]: one state for each state of the file object. *)
Definition save_to_txt (buffering : list string → nat) (records : list record)
  (d n : string) (now : Z) (fs : filesystem) : list filesystem :=
  (λ w, store d n now (on_disk w) fs) <$> save_to_txt_states buffering records.

(** [os.path.join(a, b)] for a [b] that does not start with a slash. *)
Definition path_join (a b : string) : string :=
  if decide (a = "") then b
  else if ends_in_slash a then a +:+ b
  else a +:+ "/" +:+ b.

(** [collect]: nothing is written without records; otherwise the file is
    [<phishing_data_dir>/<today>/<timestamp>_phishing_cti.txt]. *)
Definition collect (buffering : list string → nat) (records : list record)
  (phishing_data_dir today timestamp : string) (now : Z) (fs : filesystem)
  : list filesystem :=
  match records with
  | [] => [fs]
  | _ :: _ =>
      save_to_txt buffering records (path_join phishing_data_dir today)
        (timestamp +:+ "_phishing_cti.txt") now fs
  end.

(** What [strftime('%Y-%m-%d')] gives is made of digits and dashes. *)
Definition date_char (c : ascii) : bool :=
  let n := nat_of_ascii c in
  ((48 <=? n)%nat && (n <=? 57)%nat) || bool_decide (c = "-"%char).

Fixpoint all_date_chars (s : string) : bool :=
  match s with
  | EmptyString => true
  | String c s' => date_char c && all_date_chars s'
  end.

Definition is_date (s : string) : bool :=
  bool_decide (s ≠ "") && all_date_chars s.

(** *** find_latest_phishing_file *)

Definition ends_with (suffix s : string) : bool :=
  String.prefix (String.rev suffix) (String.rev s).

(** [glob.glob(os.path.join(directory, '*.txt'))]: the files of the
    directory itself, and the pattern does not match a name that starts with
    a dot. *)
Definition matches_txt (d : string) (f : file) : bool :=
  bool_decide (directory f = d) && ends_with ".txt" (name f)
  && negb (String.prefix "." (name f)).

(** [max(list_of_files, key=os.path.getctime)]: the first of the latest. *)
Definition newer (best : option file) (f : file) : option file :=
  match best with
  | None => Some f
  | Some b => if decide (ctime b < ctime f) then Some f else Some b
  end.

Definition latest (files : list file) : option file := foldl newer None files.

(** The three answers: 404 with a message, the file, and 500 with the text
    of the exception. *)
Inductive response : Type :=
| NotFound (msg : string)
| SendFile (d n : string) (body : string)
| ServerError (e : string).

Definition phishing_domain : string := "./phishing_domain".

(** [send_file] is Flask's: it resolves a relative path against the root
    path of the application, where [glob] resolves it against the working
    directory. What it sends for the file that [glob] listed, or the
    exception it raises, is the outside's; an exception is answered in the
    [except] branch. *)
Definition find_latest_phishing_file (send_file : file → result string) (d : string)
  (fs : filesystem) : response :=
  match latest (filter (λ f, matches_txt d f = true) fs) with
  | None => NotFound "No phishing domain files found in the directory"
  | Some f =>
      match send_file f with
      | Return body => SendFile (directory f) (name f) body
      | Raise e => ServerError e
      end
  end.

(** [send_file] of an application started in its own directory: the file is
    read where [glob] listed it. *)
Definition send_from_cwd (f : file) : result string := Return (content f).

(** The claim of the design on a run of the writer, as a reader sees it: at
    every state the reader answers as before the run or sends the whole new
    artifact, and after the run it sends the new artifact. *)
Definition sends (body : string) (r : response) : Prop :=
  ∃ d n, r = SendFile d n body.

Definition atomic_publication (answer : filesystem → response) (new : string)
  (fs : filesystem) (states : list filesystem) : Prop :=
  Forall (λ fs', answer fs' = answer fs ∨ sends new (answer fs')) states
  ∧ ∃ fs', last states = Some fs' ∧ sends new (answer fs').

(** The example used below: a file of the day before, two records, and a
    file object that hands nothing on before it is closed. *)
Definition yesterday_file : file :=
  {| directory := phishing_domain;
     name := "20240430_235900_phishing_cti.txt";
     ctime := 1714521540;
     content := "URL: http://old.example/login, IP: 192.0.2.1" +:+ newline |}.

Definition today_records : list record :=
  [ (Some "http://a.example/login", Some "203.0.113.5");
    (Some "http://b.example/verify", Some "198.51.100.7") ].

Definition keep_until_close (texts : list string) : nat := 0%nat.

(** The run of [collect] of the example, with the data directory set to the
    directory the reader serves. *)
Definition sample_collect : list filesystem :=
  collect keep_until_close today_records phishing_domain "2024-05-01" "20240501_235900"
    1714607940 [yesterday_file].

End PhishingFiles.

(** ** Further definitions on the AbuseIPDB tables *)

Module AbuseIPDBQueue.
Import AbuseIPDB.

(** The rows still to be processed whose address the pattern rejects. *)
Definition private_waiting (db : Database) : list (string * Z) :=
  filter (λ row, is_valid_public_ip (row.1) = false)
         (filter (unprocessed db) (Combined_IP_Score db)).

(** The keys of the report table. *)
Definition reported (db : Database) : list string :=
  ip_address <$> AbuseIPDB_IP_Report db.

(** Tables for an example: two private addresses rank above a public one. *)
Definition blocked_tables : Database :=
  {| Combined_IP_Score := [("8.8.8.8", 90); ("10.0.0.1", 100); ("192.168.1.5", 95)];
     AbuseIPDB_IP_Report := [];
     Invalid_IPs := ∅ |}.

(** A site for the examples: one address is answered, the others time
    out. *)
Definition sample_pages (ip : string) : page_outcome :=
  if decide (ip = "8.8.8.8")
  then PageScraped " Google LLC " 3 "United States of America" ""
  else PageRaises "TimeoutException".

Definition sample_run : option (result (list scraped) * Database * list event) :=
  scrape_batches json_dumps_plain (λ _, "2024-05-01T10:00:00") (λ _, sample_pages)
    (λ _ _, false) (λ _, SqlOk) (λ _, SqlOk) 4 0 0 10 sample_tables [].

(** The same run with every [INSERT] failing, for a given number of
    batches. *)
Definition unsaved_run (fuel : nat)
  : option (result (list scraped) * Database * list event) :=
  scrape_batches json_dumps_plain (λ _, "2024-05-01T10:00:00")
    (λ _ _, PageScraped " Google LLC " 3 "United States of America" "")
    (λ _ _, false) (λ _, SqlOk) (λ _, SqlError) fuel 0 0 10 sample_tables [].

End AbuseIPDBQueue.

(** ** [try: ... finally: ...] *)

(** The [finally] block runs on the object the body leaves; an exception of
    the body goes on after it unless the block raises itself. *)
Definition try_finally {S A} (body : M S A) (final : M S ()) : M S A := λ s,
  match body s with
  | (r, s', evs) =>
      match final s' with
      | (Return _, s'', evs') => (r, s'', evs ++ evs')
      | (Raise e, s'', evs') => (Raise e, s'', evs ++ evs')
      end
  end.

(** ** collectors/abuseipdb_collector.py: the single run *)

Module AbuseIPDBRun.
Import AbuseIPDB AbuseIPDBWorker.

Definition collect (env : cycle_env) : M Collector () :=
  try_finally
    (try_except
       (log INFO "Starting AbuseIPDB data collection" ;;
        add_cookies env ;;
        results ← scrape_ips env;
        log INFO ("Successfully collected data for "
                  +:+ pretty (List.length results) +:+ " IPs"))
       (λ e, log ERROR ("AbuseIPDB collection failed: " +:+ e)))
    close.

(** What [close] makes of a handle. *)
Definition closed (a : option handle) : option handle :=
  match a with
  | Some _ => Some Closed
  | None => None
  end.

End AbuseIPDBRun.

(** ** Examples for the VirusTotal worker *)

Definition sample_vt_data : VirusTotal.vt_data :=
  {| VirusTotal.d_positive := Some 3;
     VirusTotal.d_total := Some 94;
     VirusTotal.d_country := Some "US";
     VirusTotal.d_engines := [("Kaspersky", "clean")];
     VirusTotal.d_total_files := 0;
     VirusTotal.d_jarm := None |}.

(** A cycle in which the page is scraped and MySQL refuses the update. *)
Definition virustotal_unsaved_cycle : VirusTotal.cycle_env :=
  {| VirusTotal.chrome := Return ();
     VirusTotal.now := 1714557600;
     VirusTotal.select_exec := SqlOk;
     VirusTotal.page := Return (Some sample_vt_data);
     VirusTotal.update_exec := SqlError;
     VirusTotal.draw := 4;
     VirusTotal.stop_requested := false |}.

(** ** app.py: the start of the application *)

Module AppStart.
Import App.

(** The collector classes [setup_collectors] instantiates, in its order. *)
Inductive class : Type :=
| OpenCTICollector
| EmergingThreatCollector
| PhishingCollector
| PhishingDataCollector
| AbuseIPDBCollector
| AbuseIPDBSitemapCollector
| VirusTotalCollector.

Definition class_name (c : class) : string :=
  match c with
  | OpenCTICollector => "OpenCTICollector"
  | EmergingThreatCollector => "EmergingThreatCollector"
  | PhishingCollector => "PhishingCollector"
  | PhishingDataCollector => "PhishingDataCollector"
  | AbuseIPDBCollector => "AbuseIPDBCollector"
  | AbuseIPDBSitemapCollector => "AbuseIPDBSitemapCollector"
  | VirusTotalCollector => "VirusTotalCollector"
  end.

(** The three threads the application starts. *)
Inductive thread : Type := AbuseIPDBThread | VirusTotalThread | SchedulerThread.

Definition thread_target (t : thread) : string :=
  match t with
  | AbuseIPDBThread => "Thread(target=abuseipdb_collector.collect_continuous).start"
  | VirusTotalThread => "Thread(target=virustotal_collector.collect_continuous).start"
  | SchedulerThread => "Thread(target=run_schedule).start"
  end.

(** What [__init__] calls before its [try]. *)
Inductive startup_call : Type := InitConfig | NewFlask | SetupApp.

Definition startup_name (c : startup_call) : string :=
  match c with
  | InitConfig => "init_config"
  | NewFlask => "Flask"
  | SetupApp => "setup_app"
  end.

(** What the outside does at the start: whether the calls before the [try]
    return, whether a constructor returns, and whether a thread can be
    started. *)
Record start_env : Type := {
  startup : startup_call → result ();
  construct : class → result ();
  start_thread : thread → result () }.

(** The attributes of [FlaskApp] that the start reads and writes. A thread
    attribute is missing, [None], or a thread that is alive or not. *)
Inductive thread_attr : Type :=
| NoAttr
| NoThread
| Thread (alive : bool).

(** [collectors_initialized] is missing until [__init__] assigns it. *)
Record FlaskApp : Type := {
  collectors_initialized : option bool;
  abuseipdb_thread : thread_attr;
  virustotal_thread : thread_attr;
  jobs : list job }.

Definition set_initialized (b : bool) (a : FlaskApp) : FlaskApp :=
  {| collectors_initialized := Some b;
     abuseipdb_thread := abuseipdb_thread a;
     virustotal_thread := virustotal_thread a;
     jobs := jobs a |}.

Definition set_abuseipdb_thread (t : thread_attr) (a : FlaskApp) : FlaskApp :=
  {| collectors_initialized := collectors_initialized a;
     abuseipdb_thread := t;
     virustotal_thread := virustotal_thread a;
     jobs := jobs a |}.

Definition set_virustotal_thread (t : thread_attr) (a : FlaskApp) : FlaskApp :=
  {| collectors_initialized := collectors_initialized a;
     abuseipdb_thread := abuseipdb_thread a;
     virustotal_thread := t;
     jobs := jobs a |}.

Definition set_jobs (l : list job) (a : FlaskApp) : FlaskApp :=
  {| collectors_initialized := collectors_initialized a;
     abuseipdb_thread := abuseipdb_thread a;
     virustotal_thread := virustotal_thread a;
     jobs := l |}.

(** A call before the [try] of [__init__]. *)
Definition call_startup (env : start_env) (c : startup_call) : M FlaskApp () :=
  emit (EvCall (startup_name c)) ;;
  match startup env c with
  | Raise e => raise e
  | Return _ => mret ()
  end.

(** A constructor call. *)
Definition new (env : start_env) (c : class) : M FlaskApp () :=
  emit (EvCall (class_name c)) ;;
  match construct env c with
  | Raise e => raise e
  | Return _ => mret ()
  end.

(** One [try] block of [setup_collectors]: the calls, the success records,
    and the [except] that logs and raises again. *)
Definition guarded (body : M FlaskApp ()) (failure : string) : M FlaskApp () :=
  try_except body (λ e, log ERROR (failure +:+ e) ;; raise e).

Definition setup_collectors (env : start_env) : M FlaskApp () :=
  log INFO "Initializing collectors..." ;;
  guarded (new env OpenCTICollector ;;
           log INFO "OpenCTI collector initialized successfully")
          "Failed to initialize OpenCTI collector: " ;;
  guarded (new env EmergingThreatCollector ;;
           log INFO "Emerging Threats collector initialized successfully")
          "Failed to initialize Emerging Threats collector: " ;;
  guarded (new env PhishingCollector ;;
           log INFO "Phishing collector initialized successfully" ;;
           new env PhishingDataCollector ;;
           log INFO "Phishing data collector initialized successfully")
          "Failed to initialize Phishing collectors: " ;;
  guarded (new env AbuseIPDBCollector ;;
           (a ← get_self; put_self (set_abuseipdb_thread NoThread a)) ;;
           log INFO "AbuseIPDB collector initialized successfully")
          "Failed to initialize AbuseIPDB collectors: " ;;
  guarded (new env AbuseIPDBSitemapCollector ;;
           log INFO "AbuseIPDB sitemap collector initialized successfully")
          "Failed to initialize AbuseIPDB sitemap collector: " ;;
  guarded (new env VirusTotalCollector ;;
           (a ← get_self; put_self (set_virustotal_thread NoThread a)) ;;
           log INFO "VirusTotal collector initialized successfully")
          "Failed to initialize VirusTotal collectors: ".

(** [not self.abuseipdb_thread or not self.abuseipdb_thread.is_alive()];
    reading a missing attribute raises. *)
Definition needs_start (t : thread_attr) : result bool :=
  match t with
  | NoAttr => Raise "AttributeError"
  | NoThread => Return true
  | Thread alive => Return (negb alive)
  end.

Definition spawn (env : start_env) (t : thread) : M FlaskApp () :=
  emit (EvCall (thread_target t)) ;;
  match start_thread env t with
  | Raise e => raise e
  | Return _ => mret ()
  end.

(** The attribute is assigned the new thread before the thread is started. *)
Definition start_abuseipdb_collector (env : start_env) : M FlaskApp () :=
  a ← get_self;
  match needs_start (abuseipdb_thread a) with
  | Raise e => raise e
  | Return false => mret ()
  | Return true =>
      put_self (set_abuseipdb_thread (Thread false) a) ;;
      spawn env AbuseIPDBThread ;;
      a ← get_self;
      put_self (set_abuseipdb_thread (Thread true) a) ;;
      log INFO "AbuseIPDB continuous collection started"
  end.

Definition start_virustotal_collector (env : start_env) : M FlaskApp () :=
  a ← get_self;
  match needs_start (virustotal_thread a) with
  | Raise e => raise e
  | Return false => mret ()
  | Return true =>
      put_self (set_virustotal_thread (Thread false) a) ;;
      try_except
        (spawn env VirusTotalThread ;;
         a ← get_self;
         put_self (set_virustotal_thread (Thread true) a) ;;
         log INFO "VirusTotal continuous collection started")
        (λ e, log ERROR ("Failed to start VirusTotal collector thread: " +:+ e) ;;
              raise e)
  end.

(** [start_scheduler]: the five registrations are appended to the jobs of
    the [schedule] module, then the workers and the scheduler thread are
    started. *)
Definition start_scheduler (env : start_env) (now : Z) : M FlaskApp () :=
  a ← get_self;
  match collectors_initialized a with
  | None => raise "AttributeError"
  | Some false => log ERROR "Cannot start scheduler: collectors not initialized!"
  | Some true =>
      try_except
        (put_self (set_jobs (jobs a ++ App.start_scheduler now) a) ;;
         start_abuseipdb_collector env ;;
         start_virustotal_collector env ;;
         log INFO "Running initial collection..." ;;
         spawn env SchedulerThread ;;
         log INFO "Scheduler started successfully")
        (λ e, log ERROR ("Failed to start scheduler: " +:+ e) ;; raise e)
  end.

(** [__init__]: [init_config()], [Flask(__name__)] and [setup_app()] come
    before the [try], so what they raise leaves [__init__]. *)
Definition init (env : start_env) (now : Z) : M FlaskApp () :=
  call_startup env InitConfig ;;
  call_startup env NewFlask ;;
  call_startup env SetupApp ;;
  (a ← get_self; put_self (set_initialized false a)) ;;
  try_except
    (setup_collectors env ;;
     (a ← get_self; put_self (set_initialized true a)) ;;
     start_scheduler env now)
    (λ e, log ERROR ("Failed to initialize collectors: " +:+ e)).

(** The object before [__init__] has assigned anything. *)
Definition fresh : FlaskApp :=
  {| collectors_initialized := None;
     abuseipdb_thread := NoAttr;
     virustotal_thread := NoAttr;
     jobs := [] |}.

Definition all_classes : list class :=
  [ OpenCTICollector; EmergingThreatCollector; PhishingCollector; PhishingDataCollector;
    AbuseIPDBCollector; AbuseIPDBSitemapCollector; VirusTotalCollector ].

(** An outside in which every constructor returns but the one given, and
    every thread starts. *)
Definition failing_at (bad : class) : start_env :=
  {| startup := λ _, Return ();
     construct := λ c, if decide (class_name c = class_name bad)
                       then Raise "ConnectionError" else Return ();
     start_thread := λ _, Return () |}.

End AppStart.

(** ** collectors/phishing_collector.py *)

Module PhishingCollector.

(** [s.split(sep)] for a separator that is not empty: the pieces between the
    occurrences of the separator, found from the left and not overlapping.
    [skip] counts the characters of a found separator that are still to be
    passed, [cur] holds the piece being read, last character first. *)
Fixpoint split_go (sep : string) (skip : nat) (cur : string) (s : string) : list string :=
  match s with
  | EmptyString => [String.rev cur]
  | String c s' =>
      match skip with
      | S k => split_go sep k cur s'
      | O =>
          if String.prefix sep s
          then String.rev cur :: split_go sep (String.length sep - 1) EmptyString s'
          else split_go sep 0 (String c cur) s'
      end
  end.

Definition split (sep s : string) : list string := split_go sep 0 EmptyString s.

(** [url.split('//')[-1].split('/')[0]] in [_get_domain_ip]. *)
Definition domain_of (url : string) : string :=
  default "" (head (split "/" (default "" (last (split "//" url))))).

(** A row of [phishing_data], keyed by [phishing_url]; two addresses are
    the same key when they are the same string. *)
Record phishing_row : Type := {
  phishing_url : string;
  targeted_brand : string;
  ip : option string;
  timestamp : Z }.

(** A tuple of [extract_data]: address, brand, resolved IP or [None]. *)
Definition extracted : Type := string * string * option string.

Definition has_ip (x : extracted) : bool :=
  match x.2 with
  | Some s => bool_decide (s ≠ "")
  | None => false
  end.

Section WithSchema.
(** The value of [timestamp] in a new row, and in a row that is updated:
    the column is not in the statement and is declared outside the
    repository. *)
Context (timestamp_of_insert : Z → Z) (timestamp_of_update : Z → Z → Z).

Definition same_url (u : string) (r : phishing_row) : Prop := phishing_url r = u.

Global Instance same_url_dec u r : Decision (same_url u r).
Proof. unfold same_url. apply _. Defined.

(** [INSERT ... ON DUPLICATE KEY UPDATE targeted_brand = ..., ip = ...]. *)
Definition upsert_row (now : Z) (x : extracted) (t : list phishing_row)
  : list phishing_row :=
  if decide (Exists (same_url (x.1.1)) t)
  then (λ r, if decide (same_url (x.1.1) r)
             then {| phishing_url := phishing_url r;
                     targeted_brand := x.1.2;
                     ip := x.2;
                     timestamp := timestamp_of_update (timestamp r) now |}
             else r) <$> t
  else t ++ [{| phishing_url := x.1.1;
                targeted_brand := x.1.2;
                ip := x.2;
                timestamp := timestamp_of_insert now |}].

(** The counters of [save_to_db]. *)
Record counts : Type := {
  new_records : nat;
  updated_records : nat;
  skipped_records : nat }.

(** The loop over the tuples: [exec] tells for each tuple whether its
    [INSERT] goes through. *)
Fixpoint save_rows (exec : extracted → sql_outcome) (now : Z) (data : list extracted)
  (t : list phishing_row) (n : counts) : list phishing_row * counts :=
  match data with
  | [] => (t, n)
  | x :: rest =>
      let existed := bool_decide (Exists (same_url (x.1.1)) t) in
      if has_ip x then
        match exec x with
        | SqlOk =>
            save_rows exec now rest (upsert_row now x t)
              (if existed
               then {| new_records := new_records n;
                       updated_records := S (updated_records n);
                       skipped_records := skipped_records n |}
               else {| new_records := S (new_records n);
                       updated_records := updated_records n;
                       skipped_records := skipped_records n |})
        | SqlError =>
            save_rows exec now rest t
              {| new_records := new_records n;
                 updated_records := updated_records n;
                 skipped_records := S (skipped_records n) |}
        end
      else
        save_rows exec now rest t
          {| new_records := new_records n;
             updated_records := updated_records n;
             skipped_records := S (skipped_records n) |}
  end.

(** [save_to_db]: nothing is done without data or without a connection
    ([connect] is whether [mysql.connector.connect] goes through). *)
Definition save_to_db (connect : sql_outcome) (exec : extracted → sql_outcome) (now : Z)
  (data : list extracted) (t : list phishing_row) : list phishing_row * option counts :=
  match data with
  | [] => (t, None)
  | _ :: _ =>
      match connect with
      | SqlError => (t, None)
      | SqlOk =>
          let '(t', n) := save_rows exec now data t
                            {| new_records := 0; updated_records := 0;
                               skipped_records := 0 |} in
          (t', Some n)
      end
  end.

End WithSchema.

(** The tuples a run has counted. *)
Definition counted (n : counts) : nat :=
  (new_records n + updated_records n + skipped_records n)%nat.

(** Whether a row holds an IP. *)
Definition row_has_ip (r : phishing_row) : bool :=
  match ip r with
  | Some s => bool_decide (s ≠ "")
  | None => false
  end.

(** A feed for the examples: an address twice, and one that did not
    resolve. *)
Definition sample_feed : list extracted :=
  [ ("http://a.example/login", "Bank A", Some "203.0.113.5");
    ("http://b.example/verify", "Bank B", None);
    ("http://a.example/login", "Bank C", Some "203.0.113.9") ].

(** A table for the examples, and the column defaults used with it: a new
    row gets the time of the statement, an updated row keeps its own. *)
Definition sample_table : list phishing_row :=
  [ {| phishing_url := "http://c.example/pay";
       targeted_brand := "Bank C";
       ip := Some "198.51.100.7";
       timestamp := 1714521540 |} ].

Definition sample_save : list phishing_row * option counts :=
  save_to_db (λ now, now) (λ old _, old) SqlOk (λ _, SqlOk) 1714557600
    sample_feed sample_table.

End PhishingCollector.

(** ** services/threat_intelligence.py: find_latest_json_files *)

Module ThreatIntelligence.
Import PhishingFiles.

(** [glob.glob(os.path.join(self.directory, '*.json'))]. *)
Definition matches_json (d : string) (f : file) : bool :=
  bool_decide (directory f = d) && ends_with ".json" (name f)
  && negb (String.prefix "." (name f)).

(** [list_of_files.sort(key=os.path.getctime, reverse=True)]: the latest
    first, and files of the same time in the order they had. *)
Fixpoint insert_newest (f : file) (l : list file) : list file :=
  match l with
  | [] => [f]
  | g :: l' => if decide (ctime f < ctime g) then g :: insert_newest f l' else f :: l
  end.

Definition sort_newest_first (l : list file) : list file := foldr insert_newest [] l.

(** The loop over the sorted files: what is appended to [recent_files] from
    a file on, [found] being the length of [recent_files] there. The loop is
    left when the seventh file has been appended. *)
Fixpoint recent_from (recent : file → bool) (found : nat) (files : list file)
  : list file :=
  match files with
  | [] => []
  | f :: rest =>
      if recent f
      then if decide (7 ≤ S found)%nat
           then [f]
           else f :: recent_from recent (S found) rest
      else recent_from recent found rest
  end.

(** [datetime.fromtimestamp] is [local]; [cutoff] is
    [datetime.now() - timedelta(days=days)]. *)
Definition is_recent (local : Z → Z) (cutoff : Z) (f : file) : bool :=
  bool_decide (cutoff ≤ local (ctime f)).

Definition find_latest_json_files (local : Z → Z) (cutoff : Z) (d : string)
  (fs : filesystem) : list file :=
  match filter (λ f, matches_json d f = true) fs with
  | [] => []
  | list_of_files =>
      recent_from (is_recent local cutoff) 0 (sort_newest_first list_of_files)
  end.

(** The order of the sorted list. *)
Definition newest_first : relation file := λ a b, ctime b ≤ ctime a.

(** Files for an example: nine reports, one a day, the first the oldest, and
    a file that is no report. *)
Definition threat_intelligence : string := "./threat_intelligence".

Definition report (day : Z) : file :=
  {| directory := threat_intelligence;
     name := "report_" +:+ pretty day +:+ ".json";
     ctime := 1714521600 + 86400 * day;
     content := "[]" |}.

Definition sample_reports : filesystem :=
  {| directory := threat_intelligence; name := "notes.txt";
     ctime := 1715300000; content := "" |}
  :: (report <$> [0; 1; 2; 3; 4; 5; 6; 7; 8]).

End ThreatIntelligence.
(** * Properties

    ** The matcher *)

Section RegexFacts.
Import Regex.

Lemma in_range_chars lo hi c :
  in_range lo hi c = true ↔ c ∈ range_chars lo hi.
Proof.
  unfold in_range, range_chars. rewrite andb_true_iff, !Nat.leb_le.
  rewrite list_elem_of_fmap. split.
  - intros [Hlo Hhi]. exists (nat_of_ascii c). split.
    + by rewrite ascii_nat_embedding.
    + apply elem_of_seq. lia.
  - intros (n & -> & Hn). apply elem_of_seq in Hn.
    assert (n < 256)%nat by (pose proof (nat_ascii_bounded hi); lia).
    rewrite nat_ascii_embedding by done. lia.
Qed.

Lemma append_nil (t : string) : "" +:+ t = t.
Proof. reflexivity. Qed.

Lemma append_cons c (s t : string) : String c s +:+ t = String c (s +:+ t).
Proof. reflexivity. Qed.

Lemma append_assoc (a b c : string) : (a +:+ b) +:+ c = a +:+ (b +:+ c).
Proof.
  induction a as [|x a IH]; [done|]. by rewrite !append_cons, IH.
Qed.

(** The matcher is sound and complete for the listed words. *)
Lemma residues_words r : ∀ s s',
  s' ∈ residues r s ↔ ∃ w, w ∈ words r ∧ s = w +:+ s'.
Proof.
  induction r as [|c|lo hi|r1 IH1 r2 IH2|r1 IH1 r2 IH2]; intros s s'; simpl.
  - rewrite list_elem_of_singleton. split.
    + intros ->. exists "". split; [apply list_elem_of_singleton|]; done.
    + intros (w & Hw & ->). apply list_elem_of_singleton in Hw. by subst.
  - split.
    + destruct s as [|d s]; [by intros ?%elem_of_nil|].
      destruct (Ascii.eqb_spec c d) as [->|]; [|by intros ?%elem_of_nil].
      intros ->%list_elem_of_singleton. exists (String d "").
      split; [apply list_elem_of_singleton|]; done.
    + intros (w & Hw & ->). apply list_elem_of_singleton in Hw. subst w.
      rewrite append_cons, append_nil. rewrite Ascii.eqb_refl. by apply list_elem_of_singleton.
  - split.
    + destruct s as [|d s]; [by intros ?%elem_of_nil|].
      destruct (in_range lo hi d) eqn:Hd; [|by intros ?%elem_of_nil].
      intros ->%list_elem_of_singleton. exists (String d ""). split; [|done].
      apply list_elem_of_fmap. exists d. split; [done|]. by apply in_range_chars.
    + intros (w & Hw & ->). apply list_elem_of_fmap in Hw as (d & -> & Hd).
      rewrite append_cons, append_nil. apply in_range_chars in Hd. rewrite Hd. by apply list_elem_of_singleton.
  - rewrite list_elem_of_bind. split.
    + intros (t & Ht' & Ht). apply IH1 in Ht as (w1 & Hw1 & ->).
      apply IH2 in Ht' as (w2 & Hw2 & ->). exists (w1 +:+ w2). split.
      * apply list_elem_of_bind. exists w1. split; [|done].
        apply list_elem_of_bind. exists w2. split; [|done].
        by apply list_elem_of_singleton.
      * by rewrite append_assoc.
    + intros (w & Hw & ->). apply list_elem_of_bind in Hw as (w1 & Hw & Hw1).
      apply list_elem_of_bind in Hw as (w2 & Hw & Hw2).
      apply list_elem_of_singleton in Hw. subst w. exists (w2 +:+ s'). split.
      * apply IH2. by exists w2.
      * apply IH1. exists w1. by rewrite append_assoc.
  - rewrite elem_of_app, IH1, IH2. split.
    + intros [(w & Hw & ->)|(w & Hw & ->)]; exists w; rewrite elem_of_app; eauto.
    + intros (w & [Hw|Hw]%elem_of_app & ->); eauto.
Qed.

Lemma re_match_words r s :
  re_match r s = true ↔ ∃ w rest, w ∈ words r ∧ s = w +:+ rest.
Proof.
  unfold re_match. split.
  - destruct (residues r s) as [|s' l] eqn:E; [done|]. intros _.
    assert (s' ∈ residues r s) as Hs' by (rewrite E; left).
    apply residues_words in Hs' as (w & Hw & ->). eauto.
  - intros (w & rest & Hw & ->).
    assert (rest ∈ residues r (w +:+ rest)) as Hin by (apply residues_words; eauto).
    destruct (residues r (w +:+ rest)); [by apply elem_of_nil in Hin | done].
Qed.

End RegexFacts.

(** ** AbuseIPDB: discovery, marking and storing *)

Section AbuseIPDBStore.
Import Regex AbuseIPDB.

Lemma invalid_ip_pattern_words : words invalid_ip_pattern = private_prefixes.
Proof. vm_compute. reflexivity. Qed.

Lemma is_valid_public_ip_spec ip :
  is_valid_public_ip ip = true ↔
  ∀ p rest, p ∈ private_prefixes → ip ≠ p +:+ rest.
Proof.
  unfold is_valid_public_ip. rewrite negb_true_iff, <- not_true_iff_false.
  rewrite re_match_words, invalid_ip_pattern_words. split.
  - intros Hno p rest Hp ->. apply Hno. eauto.
  - intros Hno (p & rest & Hp & ->). by apply (Hno p rest).
Qed.

Lemma get_ips_to_scrape_ranked exec db n ip :
  ip ∈ get_ips_to_scrape exec db n →
  is_valid_public_ip ip = true ∧ ∃ sc, (ip, sc) ∈ RankedIPs db n.
Proof.
  destruct exec; simpl; [|by intros ?%elem_of_nil].
  rewrite list_elem_of_filter, list_elem_of_fmap.
  intros [Hv ([ip' sc] & -> & Hin)]. eauto.
Qed.

Lemma RankedIPs_unprocessed db n row :
  row ∈ RankedIPs db n → unprocessed db row ∧ row ∈ Combined_IP_Score db.
Proof.
  unfold RankedIPs. intros Hin. apply elem_of_take in Hin as (i & Hi & _).
  apply list_elem_of_lookup_2 in Hi. rewrite merge_sort_Permutation in Hi.
  by apply list_elem_of_filter in Hi.
Qed.

(** C9. Every address [get_ips_to_scrape] returns passes the public-address
    filter: none of the prefixes [0.], [10.], [127.], [169.254.], [172.16.]
    to [172.31.], [192.168.], [224.], [240.] starts it, whatever its score and
    whatever the batch size. *)
Theorem get_ips_to_scrape_only_public exec db n ip :
  ip ∈ get_ips_to_scrape exec db n →
  ∀ p rest, p ∈ private_prefixes → ip ≠ p +:+ rest.
Proof.
  intros [Hv _]%get_ips_to_scrape_ranked. by apply is_valid_public_ip_spec.
Qed.

Lemma get_ips_to_scrape_only_public_witness :
  "8.8.8.8" ∈ get_ips_to_scrape SqlOk sample_tables 10
  ∧ ∀ p rest, p ∈ private_prefixes → "8.8.8.8" ≠ p +:+ rest.
Proof.
  assert ("8.8.8.8" ∈ get_ips_to_scrape SqlOk sample_tables 10) as Hin.
  { change (get_ips_to_scrape SqlOk sample_tables 10) with ["8.8.8.8"]. left. }
  split; [exact Hin|].
  exact (get_ips_to_scrape_only_public SqlOk sample_tables 10 "8.8.8.8" Hin).
Defined.

(** A marked address stays marked. *)
Lemma run_op_invalid json_dumps op db :
  Invalid_IPs db ⊆ Invalid_IPs (run_op json_dumps db op).
Proof.
  destruct op as [[] ip|[] data|[] processed ips]; simpl; set_solver.
Qed.

Lemma run_ops_invalid json_dumps ops : ∀ db,
  Invalid_IPs db ⊆ Invalid_IPs (run_ops json_dumps ops db).
Proof.
  unfold run_ops. induction ops as [|op ops IH]; intros db; simpl; [done|].
  etrans; [apply (run_op_invalid json_dumps op)|apply IH].
Qed.

Lemma get_ips_to_scrape_not_invalid exec db n ip :
  ip ∈ Invalid_IPs db → ip ∉ get_ips_to_scrape exec db n.
Proof.
  intros Hinv [_ [sc Hin]]%get_ips_to_scrape_ranked.
  apply RankedIPs_unprocessed in Hin as [[_ Hno] _]. by apply Hno.
Qed.

(** C3. Once [mark_ip_as_invalid] has inserted an address, no later
    [get_ips_to_scrape] returns it, whatever the collectors write to the
    tables in between (marks, stored results, new sitemap addresses) and
    whatever the batch size. *)
Theorem marked_invalid_never_returned json_dumps c db ops exec n :
  c ∉ get_ips_to_scrape exec
        (run_ops json_dumps ops (mark_ip_as_invalid SqlOk c db)) n.
Proof.
  apply get_ips_to_scrape_not_invalid.
  apply (run_ops_invalid json_dumps ops). simpl. set_solver.
Qed.

(** The statement of [insert_data] on a table with distinct keys. *)
Lemma overwrite_key new old : ip_address (overwrite new old) = ip_address old.
Proof. unfold overwrite. by case_decide. Qed.

Lemma upsert_keys_unique new t :
  NoDup (ip_address <$> t) → NoDup (ip_address <$> upsert new t).
Proof.
  intros Hnd. unfold upsert. case_decide as Hin.
  - rewrite <- list_fmap_compose.
    erewrite list_fmap_ext; [exact Hnd|]. intros i r _. apply overwrite_key.
  - rewrite fmap_app. apply NoDup_app. split; [done|]. split.
    + intros k Hk ->%list_elem_of_singleton. done.
    + apply NoDup_singleton.
Qed.

Lemma filter_key_absent k (t : list report_row) :
  k ∉ ip_address <$> t → filter (λ r, ip_address r = k) t = [].
Proof.
  induction t as [|r t IH]; [done|]. rewrite fmap_cons, not_elem_of_cons.
  intros [Hne Hk]. rewrite filter_cons_False by done. by apply IH.
Qed.

Lemma overwrite_same new old :
  ip_address old = ip_address new → overwrite new old = new.
Proof. intros H. unfold overwrite. rewrite decide_True by done. destruct new. simpl in *. by subst. Qed.

Lemma overwrite_other new old :
  ip_address old ≠ ip_address new → overwrite new old = old.
Proof. intros H. unfold overwrite. by rewrite decide_False. Qed.

Lemma filter_key_overwrite new (t : list report_row) :
  NoDup (ip_address <$> t) → ip_address new ∈ ip_address <$> t →
  filter (λ r, ip_address r = ip_address new) (overwrite new <$> t) = [new].
Proof.
  induction t as [|r t IH]; [by intros _ ?%elem_of_nil|].
  rewrite !fmap_cons, NoDup_cons. intros [Hr Hnd] Hin.
  destruct (decide (ip_address r = ip_address new)) as [Heq|Hne].
  - rewrite overwrite_same by done. rewrite filter_cons_True by done. f_equal.
    apply filter_key_absent. rewrite <- list_fmap_compose.
    erewrite list_fmap_ext; [|intros i x _; apply overwrite_key]. by rewrite <- Heq.
  - rewrite overwrite_other by done. rewrite filter_cons_False by done.
    apply IH; [done|]. apply elem_of_cons in Hin as [Heq|Hin]; [congruence | done].
Qed.

Lemma filter_key_upsert new t :
  NoDup (ip_address <$> t) →
  filter (λ r, ip_address r = ip_address new) (upsert new t) = [new].
Proof.
  intros Hnd. unfold upsert. case_decide as Hin.
  - by apply filter_key_overwrite.
  - rewrite filter_app, filter_key_absent by done.
    by rewrite filter_cons_True.
Qed.

Lemma insert_data_keys_unique json_dumps exec data db :
  report_keys_unique db → report_keys_unique (insert_data json_dumps exec data db).
Proof.
  unfold report_keys_unique. destruct exec; simpl; [|done]. apply upsert_keys_unique.
Qed.

(** C4. On a report table whose keys are distinct, [insert_data] for a
    candidate [c] with [a1] and then with [a2] leaves exactly one row for
    [c], and that row holds the fields of [a2]: its ISP, its country, its
    score and its time as they are, and its label as [insert_data] encodes
    it (and the keys are still distinct). The first call may even have been
    rolled back. *)
Theorem insert_data_last_write_wins json_dumps (c : string) (a1 a2 : scraped)
    (exec1 : sql_outcome) (db : Database) :
  report_keys_unique db →
  d_ip a1 = c → d_ip a2 = c →
  let db' := insert_data json_dumps SqlOk a2 (insert_data json_dumps exec1 a1 db) in
  (∃ r, filter (λ r, ip_address r = c) (AbuseIPDB_IP_Report db') = [r]
        ∧ ip_address r = c
        ∧ isp r = d_isp a2
        ∧ country r = d_country a2
        ∧ score r = d_score a2
        ∧ label r = match d_label a2 with
                    | LabelStr s => json_dumps (JStr s)
                    | LabelDict d => json_dumps (JObj d)
                    | LabelNone => json_dumps (JObj [("value", "None")])
                    end
        ∧ update_time r = d_update_time a2)
  ∧ report_keys_unique db'.
Proof.
  intros Hnd H1 H2 db'. split.
  - exists (row_of json_dumps a2). split.
    + subst db'. apply (insert_data_keys_unique json_dumps exec1 a1) in Hnd.
      simpl. rewrite <- H2. change (d_ip a2) with (ip_address (row_of json_dumps a2)).
      by apply filter_key_upsert.
    + simpl. repeat split; done.
  - by do 2 apply insert_data_keys_unique.
Qed.

Lemma insert_data_last_write_wins_witness :
  let a1 := sample_scraped "Google LLC" 0 "2024-05-01T10:00:00" in
  let a2 := sample_scraped "Google" 3 "2024-05-02T10:00:00" in
  let db' := insert_data json_dumps_plain SqlOk a2
               (insert_data json_dumps_plain SqlOk a1 sample_tables) in
  report_keys_unique sample_tables
  ∧ ∃ r, filter (λ r, ip_address r = "8.8.8.8") (AbuseIPDB_IP_Report db') = [r]
         ∧ isp r = "Google"
         ∧ country r = "United States of America"
         ∧ score r = 3
         ∧ label r = "value:None"
         ∧ update_time r = "2024-05-02T10:00:00".
Proof.
  intros a1 a2 db'.
  assert (report_keys_unique sample_tables) as Hnd.
  { unfold report_keys_unique. simpl. apply NoDup_singleton. }
  split; [exact Hnd|].
  destruct (insert_data_last_write_wins json_dumps_plain "8.8.8.8" a1 a2 SqlOk
              sample_tables Hnd eq_refl eq_refl)
    as [(r & Hr & _ & Hisp & Hcountry & Hscore & Hlabel & Htime) _].
  exists r. repeat split; assumption.
Defined.

(** *** The batches of [scrape_ips] come to an end *)

Lemma grows_refl db : grows db db.
Proof. by repeat split. Qed.

Lemma grows_trans db1 db2 db3 : grows db1 db2 → grows db2 db3 → grows db1 db3.
Proof.
  intros (Hc & Hi & Hr) (Hc' & Hi' & Hr'). repeat split.
  - congruence.
  - set_solver.
  - auto.
Qed.

Lemma upsert_keys new t k :
  k ∈ ip_address <$> upsert new t ↔ k = ip_address new ∨ k ∈ ip_address <$> t.
Proof.
  unfold upsert. case_decide as Hin.
  - rewrite <- list_fmap_compose.
    erewrite list_fmap_ext; [|intros i x _; apply overwrite_key].
    split; [auto|]. intros [->|?]; done.
  - rewrite fmap_app, elem_of_app. simpl. rewrite list_elem_of_singleton. tauto.
Qed.

Lemma insert_data_grows json_dumps exec data db :
  grows db (insert_data json_dumps exec data db).
Proof.
  destruct exec; simpl; [|apply grows_refl]. repeat split; [done|].
  intros k Hk. simpl. apply upsert_keys. by right.
Qed.

Lemma mark_ip_as_invalid_grows exec ip db : grows db (mark_ip_as_invalid exec ip db).
Proof. destruct exec; simpl; [|apply grows_refl]. repeat split; simpl; [set_solver|done]. Qed.

Lemma backlog_grows db db' : grows db db' → (backlog db' ≤ backlog db)%nat.
Proof.
  intros (Hc & Hi & Hr). unfold backlog. rewrite Hc.
  rewrite <- (list_filter_filter_l (unprocessed db') (unprocessed db)).
  - apply length_filter.
  - intros row [Hrep Hinv]. split; [by intros ?%Hr | by intros ?%Hi].
Qed.

Lemma backlog_processed db db' row :
  grows db db' → row ∈ Combined_IP_Score db → unprocessed db row →
  ¬ unprocessed db' row → (backlog db' < backlog db)%nat.
Proof.
  intros (Hc & Hi & Hr) Hin Hun Hdone. unfold backlog. rewrite Hc.
  rewrite <- (list_filter_filter_l (unprocessed db') (unprocessed db)).
  - apply (length_filter_lt _ _ row); [|done].
    by apply list_elem_of_filter.
  - intros r [Hrep Hinv]. split; [by intros ?%Hr | by intros ?%Hi].
Qed.

Section BatchesFacts.
Context (json_dumps : json → string) (now : nat → string).
Context (page_of : nat → string → page_outcome) (shot : nat → string → bool).
Context (write_exec : nat → sql_outcome).

(** What a visit leaves: an exception and the tables as they were, no
    result and the mark (when its statement went through), or a result for
    the address and the tables as they were. *)
Lemma scrape_ip_data_cases page exec sh t ip db :
  (∃ e evs, scrape_ip_data page exec sh t ip db = (Raise e, db, evs))
  ∨ (∃ evs, scrape_ip_data page exec sh t ip db
            = (Return None, mark_ip_as_invalid exec ip db, evs))
  ∨ (∃ data evs, scrape_ip_data page exec sh t ip db = (Return (Some data), db, evs)
                 ∧ d_ip data = ip).
Proof.
  destruct page as [e|e|e e'|isp_t sc ct lt]; simpl.
  - left. eauto.
  - right. left. eauto.
  - destruct sh; [right; left|left]; eauto.
  - right. right. eauto.
Qed.

Lemma scrape_batch_grows ip_list : ∀ v db results r db' evs,
  scrape_batch json_dumps now page_of shot write_exec v ip_list db results = (r, db', evs) →
  grows db db'.
Proof.
  induction ip_list as [|ip rest IH]; intros v db results r db' evs.
  { intros [= _ <- _]. apply grows_refl. }
  cbn [scrape_batch].
  destruct (scrape_ip_data_cases (page_of v ip) (write_exec v) (shot v ip) (now v) ip db)
    as [(e & evs0 & ->)|[(evs0 & ->)|(data & evs0 & -> & _)]].
  - intros [= _ <- _]. apply grows_refl.
  - destruct (scrape_batch _ _ _ _ _ _ rest _ results) as [[r1 db1] evs1] eqn:E.
    intros [= _ <- _]. eapply grows_trans; [apply mark_ip_as_invalid_grows|].
    by eapply IH.
  - destruct (scrape_batch _ _ _ _ _ _ rest _ _) as [[r1 db1] evs1] eqn:E.
    intros [= _ <- _]. eapply grows_trans; [apply insert_data_grows|].
    by eapply IH.
Qed.

(** A batch that is run to its end leaves its first address processed when
    the statement of that visit went through. *)
Lemma scrape_batch_head_processed v ip rest db results results' db' evs sc :
  write_exec v = SqlOk →
  scrape_batch json_dumps now page_of shot write_exec v (ip :: rest) db results
    = (Return results', db', evs) →
  ¬ unprocessed db' (ip, sc).
Proof.
  intros Hok. cbn [scrape_batch]. rewrite Hok.
  destruct (scrape_ip_data_cases (page_of v ip) SqlOk (shot v ip) (now v) ip db)
    as [(e & evs0 & ->)|[(evs0 & ->)|(data & evs0 & -> & Hip)]]; [done| |].
  - destruct (scrape_batch _ _ _ _ _ _ rest _ results) as [[r1 db1] evs1] eqn:E.
    intros [= -> <- _]. apply scrape_batch_grows in E as (_ & Hi & _).
    intros [_ Hinv]. apply Hinv, Hi. simpl. set_solver.
  - destruct (scrape_batch _ _ _ _ _ _ rest _ _) as [[r1 db1] evs1] eqn:E.
    intros [= -> <- _]. apply scrape_batch_grows in E as (_ & _ & Hr).
    intros [Hrep _]. apply Hrep, Hr. simpl. apply upsert_keys. left. symmetry. exact Hip.
Qed.

End BatchesFacts.

End AbuseIPDBStore.

(** ** AbuseIPDB: more on discovery and on the batches *)

Section AbuseIPDBQueueFacts.
Import Regex AbuseIPDB AbuseIPDBQueue.

Lemma RankedIPs_length db n : (List.length (RankedIPs db n) ≤ n)%nat.
Proof. unfold RankedIPs. rewrite length_take. lia. Qed.

(** X1. [get_ips_to_scrape] returns at most [batch_size] addresses, and each
    of them is the address of a row of [Combined_IP_Score] that has no row in
    [AbuseIPDB_IP_Report] and none in [Invalid_IPs]. *)
Theorem get_ips_to_scrape_unprocessed exec db n :
  (List.length (get_ips_to_scrape exec db n) ≤ n)%nat
  ∧ ∀ ip, ip ∈ get_ips_to_scrape exec db n →
      (∃ sc, (ip, sc) ∈ Combined_IP_Score db)
      ∧ ¬ (ip ∈ reported db) ∧ ¬ (ip ∈ Invalid_IPs db).
Proof.
  split.
  - destruct exec; simpl; [|lia].
    etrans; [apply length_filter|]. rewrite length_fmap. apply RankedIPs_length.
  - intros ip [_ [sc Hin]]%get_ips_to_scrape_ranked.
    apply RankedIPs_unprocessed in Hin as [[Hrep Hinv] Hin]. eauto.
Qed.

(** X2. When the batch is at least as large as the backlog, every row to be
    processed whose address is public is returned. *)
Theorem get_ips_to_scrape_complete db n ip sc :
  (backlog db ≤ n)%nat →
  (ip, sc) ∈ Combined_IP_Score db →
  unprocessed db (ip, sc) →
  is_valid_public_ip ip = true →
  ip ∈ get_ips_to_scrape SqlOk db n.
Proof.
  intros Hn Hin Hun Hpub. simpl. apply list_elem_of_filter. split; [done|].
  apply list_elem_of_fmap. exists (ip, sc). split; [done|].
  unfold RankedIPs. rewrite take_ge.
  - rewrite merge_sort_Permutation. by apply list_elem_of_filter.
  - rewrite merge_sort_Permutation. exact Hn.
Qed.

Lemma get_ips_to_scrape_complete_witness :
  (backlog sample_tables ≤ 10)%nat
  ∧ "8.8.8.8" ∈ get_ips_to_scrape SqlOk sample_tables 10.
Proof.
  assert (backlog sample_tables ≤ 10)%nat as Hn by (vm_compute; lia).
  split; [exact Hn|].
  apply (get_ips_to_scrape_complete sample_tables 10 "8.8.8.8" 90 Hn).
  - right. left.
  - apply (bool_decide_unpack _). vm_compute. exact I.
  - reflexivity.
Defined.

Local Instance abuseipdb_score_desc_trans : Transitive score_desc.
Proof. intros a b c. unfold score_desc. lia. Qed.

Local Instance abuseipdb_score_desc_total : Total score_desc.
Proof. intros a b. unfold score_desc. lia. Qed.

Lemma filter_none {A} (P : A → Prop) `{!∀ x, Decision (P x)} (l : list A) :
  (∀ x, x ∈ l → ¬ P x) → filter P l = [].
Proof.
  induction l as [|x l IH]; intros Hno; [done|].
  rewrite filter_cons_False by (apply Hno; left). apply IH. intros y Hy. apply Hno. by right.
Qed.

(** In the ranking, nothing after a public row is a waiting private row when
    the private rows have the larger scores. *)
Lemma ranked_prefix_private db n :
  (n ≤ List.length (private_waiting db))%nat →
  (∀ p q, p ∈ Combined_IP_Score db → q ∈ Combined_IP_Score db →
          unprocessed db p → unprocessed db q →
          is_valid_public_ip (p.1) = true → is_valid_public_ip (q.1) = false →
          p.2 < q.2) →
  ∀ row, row ∈ RankedIPs db n → is_valid_public_ip (row.1) = false.
Proof.
  intros Hn Hsep row Hrow. destruct (is_valid_public_ip (row.1)) eqn:Hpub; [|done].
  exfalso. unfold RankedIPs in Hrow.
  set (l := merge_sort score_desc (filter (unprocessed db) (Combined_IP_Score db))) in *.
  assert (∀ x, x ∈ l → unprocessed db x ∧ x ∈ Combined_IP_Score db) as Hl.
  { intros x Hx. unfold l in Hx. rewrite merge_sort_Permutation in Hx.
    by apply list_elem_of_filter in Hx. }
  apply elem_of_take in Hrow as (i & Hi & Hlt).
  assert (StronglySorted score_desc l) as Hs by (apply StronglySorted_merge_sort; apply _).
  pose proof (take_drop_middle l i row Hi) as Hsplit.
  rewrite <- Hsplit in Hs. apply StronglySorted_app in Hs as (_ & _ & Hs).
  apply StronglySorted_inv in Hs as [_ Hafter]. rewrite Forall_forall in Hafter.
  assert (filter (λ r, is_valid_public_ip (r.1) = false) (row :: drop (S i) l) = []) as Hnone.
  { apply filter_none. intros x Hx Hpriv. apply elem_of_cons in Hx as [->|Hx]; [congruence|].
    assert (x ∈ l) as Hxl by (rewrite <- Hsplit; apply elem_of_app; right; by right).
    assert (row ∈ l) as Hrl by (by eapply list_elem_of_lookup_2).
    destruct (Hl x Hxl) as [Hux Hcx], (Hl row Hrl) as [Hur Hcr].
    pose proof (Hsep row x Hcr Hcx Hur Hux Hpub Hpriv) as Hlt'.
    pose proof (Hafter x Hx) as Hle. unfold score_desc in Hle. lia. }
  assert (List.length (private_waiting db) ≤ i)%nat; [|lia].
  unfold private_waiting.
  rewrite <- (merge_sort_Permutation score_desc (filter (unprocessed db) (Combined_IP_Score db))).
  fold l. rewrite <- Hsplit, filter_app, Hnone, app_nil_r.
  etrans; [apply length_filter|]. rewrite length_take. lia.
Qed.

(** X3. When at least [batch_size] private addresses wait with scores above
    those of every waiting public address, [get_ips_to_scrape] returns
    nothing, so [scrape_ips] ends at once with what it had: the public
    addresses are not scraped and the private ones are not marked. *)
Theorem private_addresses_block_the_queue db n exec :
  (n ≤ List.length (private_waiting db))%nat →
  (∀ p q, p ∈ Combined_IP_Score db → q ∈ Combined_IP_Score db →
          unprocessed db p → unprocessed db q →
          is_valid_public_ip (p.1) = true → is_valid_public_ip (q.1) = false →
          p.2 < q.2) →
  get_ips_to_scrape exec db n = []
  ∧ ∀ json_dumps now page_of shot select_exec write_exec fuel b v results,
      scrape_batches json_dumps now page_of shot select_exec write_exec (S fuel) b v n
        db results
      = Some (Return results, db, [EvLog INFO "No more valid IPs to scrape. Exiting."]).
Proof.
  intros Hn Hsep.
  assert (∀ exec, get_ips_to_scrape exec db n = []) as Hnil.
  { intros []; [|done]. simpl. apply filter_none.
    intros ip ([ip' sc] & -> & Hin)%list_elem_of_fmap. simpl.
    pose proof (ranked_prefix_private db n Hn Hsep (ip', sc) Hin) as Hpriv.
    simpl in Hpriv. congruence. }
  split; [done|]. intros. cbn [scrape_batches]. by rewrite Hnil.
Qed.

Lemma private_addresses_block_the_queue_witness :
  (2 ≤ List.length (private_waiting blocked_tables))%nat
  ∧ ("8.8.8.8", 90) ∈ Combined_IP_Score blocked_tables
  ∧ get_ips_to_scrape SqlOk blocked_tables 2 = [].
Proof.
  assert (2 ≤ List.length (private_waiting blocked_tables))%nat as Hn by (vm_compute; lia).
  split; [exact Hn|]. split; [left|].
  apply (private_addresses_block_the_queue blocked_tables 2 SqlOk Hn).
  intros p q Hp Hq _ _ Hpub Hpriv.
  repeat (apply elem_of_cons in Hp as [->|Hp]); try (by apply elem_of_nil in Hp);
    repeat (apply elem_of_cons in Hq as [->|Hq]); try (by apply elem_of_nil in Hq);
    vm_compute in Hpub, Hpriv; try discriminate.
  all: vm_compute; reflexivity.
Defined.

End AbuseIPDBQueueFacts.

Section AbuseIPDBStoreMore.
Import AbuseIPDB AbuseIPDBQueue.

Lemma overwrite_idempotent new old : overwrite new (overwrite new old) = overwrite new old.
Proof.
  unfold overwrite. destruct (decide (ip_address old = ip_address new)) as [Heq|Hne].
  - simpl. by rewrite decide_True.
  - by rewrite decide_False.
Qed.

Lemma upsert_present new t :
  ip_address new ∈ ip_address <$> t → upsert new t = overwrite new <$> t.
Proof. intros H. unfold upsert. by rewrite decide_True. Qed.

Lemma upsert_absent new t :
  ¬ (ip_address new ∈ ip_address <$> t) → upsert new t = t ++ [new].
Proof. intros H. unfold upsert. by rewrite decide_False. Qed.

Lemma upsert_idempotent new t : upsert new (upsert new t) = upsert new t.
Proof.
  assert (ip_address new ∈ ip_address <$> upsert new t) as Hin'
    by (apply upsert_keys; by left).
  rewrite (upsert_present new (upsert new t) Hin').
  destruct (decide (ip_address new ∈ ip_address <$> t)) as [Hin|Hnot].
  - rewrite (upsert_present new t Hin). rewrite <- list_fmap_compose.
    apply list_fmap_ext. intros i r _. simpl. apply overwrite_idempotent.
  - rewrite (upsert_absent new t Hnot). rewrite fmap_app. simpl.
    rewrite overwrite_same by done. f_equal.
    rewrite <- (list_fmap_id t) at 2. apply list_fmap_ext. intros i r Hr. simpl.
    apply overwrite_other. intros Heq. apply Hnot. rewrite <- Heq.
    apply list_elem_of_fmap. exists r. split; [done|]. by eapply list_elem_of_lookup_2.
Qed.

Lemma filter_other_key_upsert new t k :
  k ≠ ip_address new →
  filter (λ r, ip_address r = k) (upsert new t) = filter (λ r, ip_address r = k) t.
Proof.
  intros Hk. unfold upsert. case_decide as Hin.
  - clear Hin. induction t as [|r t IH]; [done|]. rewrite fmap_cons.
    destruct (decide (ip_address r = ip_address new)) as [Heq|Hne].
    + rewrite filter_cons_False by (rewrite overwrite_key; congruence).
      rewrite filter_cons_False by congruence. exact IH.
    + rewrite overwrite_other by done. rewrite !filter_cons. by rewrite IH.
  - rewrite filter_app. rewrite (filter_cons_False _ new) by congruence.
    by rewrite filter_nil, app_nil_r.
Qed.

(** X4. Storing the same result twice is storing it once, and storing a
    result leaves the rows of every other address, the scores and the invalid
    marks as they were. *)
Theorem insert_data_idempotent_and_local json_dumps exec data db :
  insert_data json_dumps exec data (insert_data json_dumps exec data db)
  = insert_data json_dumps exec data db
  ∧ (∀ k, k ≠ d_ip data →
       filter (λ r, ip_address r = k)
              (AbuseIPDB_IP_Report (insert_data json_dumps exec data db))
       = filter (λ r, ip_address r = k) (AbuseIPDB_IP_Report db))
  ∧ Combined_IP_Score (insert_data json_dumps exec data db) = Combined_IP_Score db
  ∧ Invalid_IPs (insert_data json_dumps exec data db) = Invalid_IPs db.
Proof.
  destruct exec; simpl; [|done]. split; [|split; [|done]].
  - unfold set_report. simpl. by rewrite upsert_idempotent.
  - intros k Hk. by apply filter_other_key_upsert.
Qed.

Section BatchesResults.
Context (json_dumps : json → string) (now : nat → string).
Context (page_of : nat → string → page_outcome) (shot : nat → string → bool).
Context (select_exec write_exec : nat → sql_outcome).

(** Every result collected so far has its row, when the statements of the
    visits go through. *)
Lemma scrape_batch_stored ip_list : ∀ v db results results' db' evs,
  (∀ v, write_exec v = SqlOk) →
  scrape_batch json_dumps now page_of shot write_exec v ip_list db results
    = (Return results', db', evs) →
  (∀ d, d ∈ results → d_ip d ∈ reported db) →
  (∀ d, d ∈ results' → d_ip d ∈ reported db').
Proof.
  induction ip_list as [|ip rest IH]; intros v db results results' db' evs Hok.
  { intros [= <- <- _]. done. }
  cbn [scrape_batch]. rewrite (Hok v).
  destruct (scrape_ip_data_cases (page_of v ip) SqlOk (shot v ip) (now v) ip db)
    as [(e & evs0 & ->)|[(evs0 & ->)|(data & evs0 & -> & Hip)]]; [done| |].
  - destruct (scrape_batch _ _ _ _ _ _ rest _ results) as [[r1 db1] evs1] eqn:E.
    intros [= -> <- _] Hinv. eapply IH; [done|exact E|]. intros d Hd. by apply Hinv.
  - destruct (scrape_batch _ _ _ _ _ _ rest _ _) as [[r1 db1] evs1] eqn:E.
    intros [= -> <- _] Hinv. eapply IH; [done|exact E|].
    intros d [Hd| ->%list_elem_of_singleton]%elem_of_app; unfold reported; simpl;
      apply upsert_keys; [right; by apply Hinv | by left].
Qed.

Lemma scrape_batches_grows n : ∀ fuel b v db results r db' evs,
  scrape_batches json_dumps now page_of shot select_exec write_exec fuel b v n db results
    = Some (r, db', evs) →
  grows db db'.
Proof.
  induction fuel as [|fuel IH]; intros b v db results r db' evs; [done|].
  cbn [scrape_batches].
  destruct (get_ips_to_scrape (select_exec b) db n) as [|ip rest] eqn:Hget.
  { intros [= _ <- _]. apply grows_refl. }
  destruct (scrape_batch json_dumps now page_of shot write_exec v (ip :: rest) db results)
    as [[[results1|e] db1] evs1] eqn:E.
  - destruct (scrape_batches _ _ _ _ _ _ fuel _ _ n db1 results1)
      as [[[r2 db2] evs2]|] eqn:E2; [|done].
    intros [= _ <- _]. eapply grows_trans; [by eapply scrape_batch_grows|by eapply IH].
  - intros [= _ <- _]. by eapply scrape_batch_grows.
Qed.

Lemma scrape_batches_stored n : ∀ fuel b v db results results' db' evs,
  (∀ v, write_exec v = SqlOk) →
  scrape_batches json_dumps now page_of shot select_exec write_exec fuel b v n db results
    = Some (Return results', db', evs) →
  (∀ d, d ∈ results → d_ip d ∈ reported db) →
  (∀ d, d ∈ results' → d_ip d ∈ reported db').
Proof.
  induction fuel as [|fuel IH]; intros b v db results results' db' evs Hok; [done|].
  cbn [scrape_batches].
  destruct (get_ips_to_scrape (select_exec b) db n) as [|ip rest] eqn:Hget.
  { by intros [= <- <- _] Hinv. }
  destruct (scrape_batch json_dumps now page_of shot write_exec v (ip :: rest) db results)
    as [[[results1|e] db1] evs1] eqn:E; [|done].
  destruct (scrape_batches _ _ _ _ _ _ fuel _ _ n db1 results1)
    as [[[r2 db2] evs2]|] eqn:E2; [|done].
  intros [= -> <- _] Hinv.
  pose proof (scrape_batch_stored _ _ _ _ _ _ _ Hok E Hinv) as Hinv1.
  by eapply IH.
Qed.

(** The loop is left at a [SELECT] that gave no address. *)
Lemma scrape_batches_drained n : ∀ fuel b v db results results' db' evs,
  scrape_batches json_dumps now page_of shot select_exec write_exec fuel b v n db results
    = Some (Return results', db', evs) →
  ∃ b', get_ips_to_scrape (select_exec b') db' n = [].
Proof.
  induction fuel as [|fuel IH]; intros b v db results results' db' evs; [done|].
  cbn [scrape_batches].
  destruct (get_ips_to_scrape (select_exec b) db n) as [|ip rest] eqn:Hget.
  { intros [= _ <- _]. eauto. }
  destruct (scrape_batch json_dumps now page_of shot write_exec v (ip :: rest) db results)
    as [[[results1|e] db1] evs1] eqn:E; [|done].
  destruct (scrape_batches _ _ _ _ _ _ fuel _ _ n db1 results1)
    as [[[r2 db2] evs2]|] eqn:E2; [|done].
  intros [= -> <- _]. by eapply IH.
Qed.

End BatchesResults.

(** X5. When [scrape_ips] returns, the tables have only grown. When every
    [SELECT] went through, nothing is left for [get_ips_to_scrape] to
    return; when the statement of every visit went through, every result it
    returns has its row in [AbuseIPDB_IP_Report]. *)
Theorem scrape_ips_drains_and_stores json_dumps now page_of shot select_exec write_exec
    (fuel n : nat) (db db' : Database) (results : list scraped) (evs : list event) :
  scrape_batches json_dumps now page_of shot select_exec write_exec fuel 0 0 n db []
    = Some (Return results, db', evs) →
  grows db db'
  ∧ ((∀ b, select_exec b = SqlOk) → get_ips_to_scrape SqlOk db' n = [])
  ∧ ((∀ v, write_exec v = SqlOk) → ∀ d, d ∈ results → d_ip d ∈ reported db').
Proof.
  intros Hrun. split; [by eapply scrape_batches_grows|]. split.
  - intros Hsel. destruct (scrape_batches_drained _ _ _ _ _ _ _ _ _ _ _ _ _ _ _ Hrun)
      as [b' Hnil]. by rewrite Hsel in Hnil.
  - intros Hok. eapply scrape_batches_stored; [exact Hok|exact Hrun|].
    intros d Hd. by apply elem_of_nil in Hd.
Qed.

Lemma scrape_ips_drains_and_stores_witness :
  ∃ results db' evs,
    sample_run = Some (Return results, db', evs)
    ∧ get_ips_to_scrape SqlOk db' 10 = []
    ∧ (d_ip <$> results) = ["8.8.8.8"]
    ∧ "8.8.8.8" ∈ reported db'.
Proof.
  let v := eval vm_compute in sample_run in
  lazymatch v with
  | Some (Return ?r, ?d, ?e) =>
      assert (sample_run = Some (Return r, d, e)) as Hrun by (vm_compute; reflexivity);
      exists r, d, e
  end.
  destruct (scrape_ips_drains_and_stores _ _ _ _ _ _ _ _ _ _ _ _ Hrun) as (_ & Hnil & Hst).
  split; [exact Hrun|]. split; [exact (Hnil (λ _, eq_refl))|]. split; [reflexivity|].
  exact (Hst (λ _, eq_refl) _ (list_elem_of_here _ _)).
Defined.

(** X6. The loop over the batches ends when the statement of every visit
    goes through: with more fuel than rows waiting, [scrape_ips] returns or
    raises, whatever the site answers and whether the [SELECT]s go through
    or not. *)
Theorem scrape_ips_ends json_dumps now page_of shot select_exec write_exec
    (n fuel b v : nat) (db : Database) (results : list scraped) :
  (∀ v, write_exec v = SqlOk) →
  (backlog db < fuel)%nat →
  ∃ r db' evs,
    scrape_batches json_dumps now page_of shot select_exec write_exec fuel b v n db results
    = Some (r, db', evs).
Proof.
  intros Hok. revert b v db results.
  induction fuel as [|fuel IH]; intros b v db results Hfuel; [lia|].
  cbn [scrape_batches].
  destruct (get_ips_to_scrape (select_exec b) db n) as [|ip rest] eqn:Hget.
  { eexists _, _, _. done. }
  destruct (scrape_batch json_dumps now page_of shot write_exec v (ip :: rest) db results)
    as [[[results1|e] db1] evs] eqn:E.
  - assert (ip ∈ get_ips_to_scrape (select_exec b) db n) as Hip by (rewrite Hget; left).
    apply get_ips_to_scrape_ranked in Hip as [_ [sc Hin]].
    apply RankedIPs_unprocessed in Hin as [Hun Hin].
    pose proof (scrape_batch_grows _ _ _ _ _ _ _ _ _ _ _ _ E) as Hg.
    assert (backlog db1 < backlog db)%nat as Hlt.
    { eapply backlog_processed; [done|done|done|].
      eapply scrape_batch_head_processed; [apply Hok|exact E]. }
    destruct (IH (S b) (v + List.length (ip :: rest))%nat db1 results1)
      as (r & db2 & evs' & ->); [lia|].
    eexists _, _, _. done.
  - eexists _, _, _. done.
Qed.

Lemma scrape_ips_ends_witness :
  (backlog sample_tables < 4)%nat
  ∧ ∃ r db' evs, sample_run = Some (r, db', evs).
Proof.
  assert (backlog sample_tables < 4)%nat as Hfuel by (vm_compute; lia).
  split; [exact Hfuel|].
  exact (scrape_ips_ends json_dumps_plain (λ _, "2024-05-01T10:00:00") (λ _, sample_pages)
           (λ _ _, false) (λ _, SqlOk) (λ _, SqlOk) 10 4 0 0 sample_tables []
           (λ _, eq_refl) Hfuel).
Defined.

Section BatchesForever.
Context (json_dumps : json → string) (now : nat → string).
Context (page_of : nat → string → page_outcome) (shot : nat → string → bool).
Context (select_exec write_exec : nat → sql_outcome).

(** A batch on pages that are all scraped, with every [INSERT] failing,
    leaves the tables as they were. *)
Lemma scrape_batch_unsaved ip_list : ∀ v db results,
  (∀ v ip, ∃ i s c l, page_of v ip = PageScraped i s c l) →
  (∀ v, write_exec v = SqlError) →
  ∃ results' evs,
    scrape_batch json_dumps now page_of shot write_exec v ip_list db results
    = (Return results', db, evs).
Proof.
  intros v db results Hpage Hfail. revert v results.
  induction ip_list as [|ip rest IH]; intros v results; [by eexists _, _|].
  cbn [scrape_batch]. destruct (Hpage v ip) as (i & s & c & l & ->). simpl.
  rewrite (Hfail v). simpl.
  match goal with
  | |- context [scrape_batch _ _ _ _ _ (S v) rest db ?rs] =>
      destruct (IH (S v) rs) as (results' & evs & ->)
  end.
  by eexists _, _.
Qed.

Lemma scrape_batches_forever n db :
  (∀ v ip, ∃ i s c l, page_of v ip = PageScraped i s c l) →
  (∀ v, write_exec v = SqlError) →
  (∀ b, select_exec b = SqlOk) →
  get_ips_to_scrape SqlOk db n ≠ [] →
  ∀ fuel b v results,
    scrape_batches json_dumps now page_of shot select_exec write_exec fuel b v n db results
    = None.
Proof.
  intros Hpage Hfail Hsel Hne. induction fuel as [|fuel IH]; intros b v results; [done|].
  cbn [scrape_batches]. rewrite Hsel.
  destruct (get_ips_to_scrape SqlOk db n) as [|ip rest] eqn:Hget; [done|].
  destruct (scrape_batch_unsaved (ip :: rest) v db results Hpage Hfail)
    as (results' & evs & ->).
  by rewrite IH.
Qed.

End BatchesForever.

(** X17. [scrape_ips] does not end while the [INSERT] keeps failing:
    [insert_data] swallows the error, the addresses stay unprocessed, and
    the next [SELECT] returns them again. When the [SELECT]s go through, the
    pages are scraped and every [INSERT] fails, no number of batches ends the
    loop, as soon as the first [SELECT] returns an address. *)
Theorem scrape_ips_never_ends_while_insert_fails json_dumps now page_of shot
    select_exec write_exec (n : nat) (db : Database) :
  (∀ v ip, ∃ i s c l, page_of v ip = PageScraped i s c l) →
  (∀ v, write_exec v = SqlError) →
  (∀ b, select_exec b = SqlOk) →
  get_ips_to_scrape SqlOk db n ≠ [] →
  ∀ fuel results,
    scrape_batches json_dumps now page_of shot select_exec write_exec fuel 0 0 n db results
    = None.
Proof. intros Hpage Hfail Hsel Hne fuel results. by apply scrape_batches_forever. Qed.

Lemma scrape_ips_never_ends_while_insert_fails_witness : unsaved_run 50 = None.
Proof.
  apply (scrape_ips_never_ends_while_insert_fails json_dumps_plain
           (λ _, "2024-05-01T10:00:00")
           (λ _ _, PageScraped " Google LLC " 3 "United States of America" "")
           (λ _ _, false) (λ _, SqlOk) (λ _, SqlError) 10 sample_tables).
  - intros v ip. by eexists _, _, _, _.
  - done.
  - done.
  - vm_compute. discriminate.
Defined.

End AbuseIPDBStoreMore.

Section SitemapFacts.
Import AbuseIPDB.

Lemma insert_ip_keeps ip t row : row ∈ t → row ∈ insert_ip ip t.
Proof. unfold insert_ip. case_decide; [done|]. intros. apply elem_of_app. by left. Qed.

Lemma insert_ip_key ip t : ip ∈ (insert_ip ip t).*1.
Proof.
  unfold insert_ip. case_decide; [done|]. rewrite fmap_app. apply elem_of_app. right. left.
Qed.

Lemma insert_ip_rows ip t row : row ∈ insert_ip ip t → row ∈ t ∨ row = (ip, 0).
Proof.
  unfold insert_ip. case_decide; [by left|].
  intros [?|?%list_elem_of_singleton]%elem_of_app; auto.
Qed.

Lemma insert_ip_NoDup ip t : NoDup (t.*1) → NoDup ((insert_ip ip t).*1).
Proof.
  intros Hnd. unfold insert_ip. case_decide as Hin; [done|].
  rewrite fmap_app. apply NoDup_app. split; [done|]. split.
  - intros k Hk ->%list_elem_of_singleton. done.
  - apply NoDup_singleton.
Qed.

Lemma save_ips_keeps ips : ∀ processed t row,
  row ∈ t → row ∈ save_ips processed ips t.
Proof.
  induction ips as [|x ips IH]; intros processed t row Hrow; [done|].
  simpl. destruct (bool_decide (x ≠ "") && bool_decide (x ∉ processed)).
  - apply IH. by apply insert_ip_keeps.
  - by apply IH.
Qed.

(** X7. [save_ips_to_db] keeps every row of [Combined_IP_Score] with its
    score; what it adds are rows with score 0 for addresses of the page that
    are non-empty and not in [processed_ips]; each such address has a row
    afterwards; and the addresses stay distinct. *)
Theorem save_ips_to_db_adds_new_addresses (processed : gset string)
    (ips : list string) (db : Database) :
  let db' := save_ips_to_db SqlOk processed ips db in
  (∀ row, row ∈ Combined_IP_Score db → row ∈ Combined_IP_Score db')
  ∧ (∀ row, row ∈ Combined_IP_Score db' →
       row ∈ Combined_IP_Score db
       ∨ ∃ ip, row = (ip, 0) ∧ ip ∈ ips ∧ ip ≠ "" ∧ ¬ (ip ∈ processed))
  ∧ (∀ ip, ip ∈ ips → ip ≠ "" → ¬ (ip ∈ processed) →
       ip ∈ (Combined_IP_Score db').*1)
  ∧ (NoDup ((Combined_IP_Score db).*1) → NoDup ((Combined_IP_Score db').*1)).
Proof.
  simpl. generalize (Combined_IP_Score db) as t. clear db.
  revert processed. induction ips as [|x ips IH]; intros processed t.
  { simpl. split; [done|]. split; [by left|]. split; [|done].
    by intros ip ?%elem_of_nil. }
  simpl. destruct (bool_decide (x ≠ "") && bool_decide (x ∉ processed)) eqn:Hx.
  - apply andb_true_iff in Hx as [Hne%bool_decide_eq_true Hnp%bool_decide_eq_true].
    destruct (IH ({[x]} ∪ processed) (insert_ip x t)) as (Hk & Hr & Hi & Hd).
    split; [|split; [|split]].
    + intros row Hrow. by apply Hk, insert_ip_keeps.
    + intros row Hrow. destruct (Hr row Hrow) as [Hin|(ip & -> & Hip & Hne' & Hnp')].
      * apply insert_ip_rows in Hin as [?| ->]; [by left|]. right.
        exists x. split; [done|]. split; [left|]. done.
      * right. exists ip. split; [done|]. split; [by right|]. split; [done|].
        intros Hp. apply Hnp', elem_of_union. by right.
    + intros ip Hip Hne' Hnp'. destruct (decide (ip = x)) as [->|Hdiff].
      * apply list_elem_of_fmap. pose proof (insert_ip_key x t) as Hkey.
        apply list_elem_of_fmap in Hkey as (row & Hrow1 & Hrow).
        exists row. split; [done|]. by apply Hk.
      * apply Hi; [|done|].
        -- apply elem_of_cons in Hip as [?|?]; done.
        -- rewrite elem_of_union, elem_of_singleton. tauto.
    + intros Hnd. by apply Hd, insert_ip_NoDup.
  - destruct (IH processed t) as (Hk & Hr & Hi & Hd).
    split; [done|]. split; [|split; [|done]].
    + intros row Hrow. destruct (Hr row Hrow) as [Hin|(ip & -> & Hip & Hne' & Hnp')];
        [by left|]. right. exists ip. split; [done|]. split; [by right|]. done.
    + intros ip Hip Hne' Hnp'. apply Hi; [|done|done].
      apply elem_of_cons in Hip as [->|?]; [|done].
      apply andb_false_iff in Hx as [Hx|Hx]; apply bool_decide_eq_false in Hx; by destruct Hx.
Qed.

End SitemapFacts.

(** ** AbuseIPDB: failed fetches, stopping, and the handles after an error *)

Section AbuseIPDBWorkerFacts.
Import AbuseIPDB AbuseIPDBWorker.

(** C1. An exception inside the [try] of [scrape_ip_data] (a timeout of the
    wait, a challenge page) makes the call return [None] after inserting the
    address in [Invalid_IPs]: from then on no [get_ips_to_scrape] returns it,
    whatever is written to the tables later. The candidate is not retried. *)
Theorem scrape_failure_marks_invalid json_dumps (e : string) (shot : bool)
    (now ip : string) (db : Database) (ops : list db_op) (exec : sql_outcome) (n : nat) :
  let out := scrape_ip_data (PageRaises e) SqlOk shot now ip db in
  out.1.1 = Return None
  ∧ ip ∈ Invalid_IPs (out.1.2)
  ∧ ip ∉ get_ips_to_scrape exec (run_ops json_dumps ops (out.1.2)) n.
Proof.
  simpl. split; [done|]. split; [set_solver|].
  apply get_ips_to_scrape_not_invalid.
  apply (run_ops_invalid json_dumps ops). simpl. set_solver.
Qed.

(** The message of the timeout branch names the cookies, not the address. *)
Example scrape_timeout_log :
  (scrape_ip_data (PageRaises "TimeoutException: Message: ") SqlOk false
     "2024-05-01T10:00:00" "8.8.8.8"
     {| Combined_IP_Score := [("8.8.8.8", 90)];
        AbuseIPDB_IP_Report := [];
        Invalid_IPs := ∅ |}).2
  = [ EvGet "https://www.abuseipdb.com/check/8.8.8.8";
      EvLog ERROR "Cookie expiration or Cloudflare challenge detected for IP 8.8.8.8. Please update your cookies.";
      EvScreenshot "error_8.8.8.8.png";
      EvLog INFO "Screenshot saved to error_8.8.8.8.png";
      EvLog INFO "Marked IP 8.8.8.8 as invalid" ].
Proof. reflexivity. Qed.

(** C6. [stop_collection] of the AbuseIPDB worker, called while a cycle that
    processed its batches sleeps: the loop ends without another cycle, with
    the flag off, and the driver, the cursor and the connection still live;
    nothing was quit or closed. *)
Theorem abuseipdb_stop_keeps_handles (results : list scraped) (envs : list cycle_env) :
  let env := {| chrome := Return (); mysql := Return (); site := Return ();
                batches := Return results; stop_requested := true |} in
  let out := collect_continuous (env :: envs) initialized in
  outcome_of out = Return ()
  ∧ state_of out = {| running := false; driver := Some Live; conn := Some Live; cur := Some Live |}
  ∧ events_of out = events_of (cycle env initialized)
  ∧ (EvQuitDriver ∉ events_of out)
  ∧ (EvCloseConnection ∉ events_of out).
Proof.
  destruct results as [|r results], envs as [|env' envs]; vm_compute;
    (split; [reflexivity|]); (split; [reflexivity|]); (split; [reflexivity|]);
    split; intros Hin; repeat (apply elem_of_cons in Hin as [Hin|Hin]; [discriminate|]);
    by apply elem_of_nil in Hin.
Qed.

Lemma first_error_closes env e :
  outcome_of (cycle_body env (set_running true initialized)) = Raise e →
  state_of (cycle env (set_running true initialized)) = closed_after_error.
Proof.
  destruct env as [ch my [[]|e1] [rs|e2] st]; vm_compute; try done.
Qed.

(** C7. After a first cycle that raised, the object has its handles closed
    but still as attributes; in every later cycle the guard
    [not hasattr(self, 'driver') or not hasattr(self, 'conn')] is false, so
    no driver and no connection is set up, [scrape_ips] is run on the closed
    session and raises, and the cycle ends in the same state after 60
    seconds. *)
Theorem closed_handles_never_reacquired (env1 : cycle_env) (e : string) :
  outcome_of (cycle_body env1 (set_running true initialized)) = Raise e →
  let s1 := state_of (cycle env1 (set_running true initialized)) in
  driver s1 = Some Closed ∧ conn s1 = Some Closed ∧
  ∀ env : cycle_env,
    let out := cycle env s1 in
    state_of out = s1
    ∧ outcome_of (cycle_body env s1) = Raise "InvalidSessionIdException"
    ∧ (EvSetupDriver ∉ events_of out)
    ∧ (EvSetupDatabase ∉ events_of out)
    ∧ sleeps (events_of out) = [60].
Proof.
  intros Hraise s1. subst s1. rewrite (first_error_closes env1 e Hraise).
  split; [done|]. split; [done|]. intros env out. subst out.
  destruct env as [ch my si ba st]; vm_compute.
  split; [reflexivity|]. split; [reflexivity|]. split; [|split; [|reflexivity]];
    intros Hin; repeat (apply elem_of_cons in Hin as [Hin|Hin]; [discriminate|]);
    by apply elem_of_nil in Hin.
Qed.

Lemma closed_handles_never_reacquired_witness :
  let env1 := {| chrome := Return (); mysql := Return (); site := Return ();
                 batches := Raise "WebDriverException"; stop_requested := false |} in
  let env2 := {| chrome := Return (); mysql := Return (); site := Return ();
                 batches := Return []; stop_requested := false |} in
  outcome_of (cycle_body env1 (set_running true initialized)) = Raise "WebDriverException"
  ∧ sleeps (events_of (cycle env2 (state_of (cycle env1 (set_running true initialized))))) = [60].
Proof.
  intros env1 env2. split; [reflexivity|].
  apply (closed_handles_never_reacquired env1 "WebDriverException"). reflexivity.
Defined.

End AbuseIPDBWorkerFacts.

(** ** The delays of the continuous workers *)

Section Backoff.

Lemma sleeps_app evs1 evs2 : sleeps (evs1 ++ evs2) = sleeps evs1 ++ sleeps evs2.
Proof. apply omap_app. Qed.

(** Three cycles of the AbuseIPDB worker that raise: the delays are 60, 60
    and 60 seconds. One cycle of the VirusTotal worker that raises: 60 seconds
    for every draw. *)
Lemma error_delay_fixed_without_jitter :
  ¬ escalates
      (sleeps (events_of
         (AbuseIPDBWorker.collect_continuous
            [abuseipdb_failing_cycle; abuseipdb_failing_cycle; abuseipdb_failing_cycle]
            AbuseIPDBWorker.initialized)))
  ∧ ¬ jittered (λ _, default 0 (last (sleeps (events_of
         (AbuseIPDBWorker.cycle abuseipdb_failing_cycle AbuseIPDBWorker.initialized)))))
  ∧ ¬ jittered (λ draw, default 0 (last (sleeps (events_of
         (VirusTotal.cycle json_dumps_plain (λ t, Some t)
            (virustotal_failing_cycle draw) virustotal_started))))).
Proof.
  split; [|split].
  - change (¬ escalates [60; 60; 60]).
    intros (i & d1 & d2 & H1 & H2 & Hlt).
    destruct i as [|[|[|i]]]; simpl in *; simplify_eq; lia.
  - intros (d1 & d2 & Hne). by apply Hne.
  - intros (d1 & d2 & Hne). by apply Hne.
Qed.

(** C2, as the code has it. One turn of the AbuseIPDB loop sleeps once: 60
    seconds when the turn raised, 300 when [scrape_ips] returned nothing, 30
    when it returned results. The last sleep of one turn of the VirusTotal
    loop is 60 seconds when the turn raised or the fetch failed, 300 when no
    address was selected, and a drawn integer from 30 to 40 after an update.
    None of these depends on the turns before, and only the last one on a
    draw. *)
Theorem continuous_worker_delays :
  (∀ (env : AbuseIPDBWorker.cycle_env) (s : AbuseIPDBWorker.Collector),
     sleeps (events_of (AbuseIPDBWorker.cycle env s)) =
     [ match outcome_of (AbuseIPDBWorker.cycle_body env s) with
       | Raise _ => 60
       | Return [] => 300
       | Return (_ :: _) => 30
       end ])
  ∧ (∀ json_dumps utd (env : VirusTotal.cycle_env) (w : VirusTotal.World),
     last (sleeps (events_of (VirusTotal.cycle json_dumps utd env w))) =
     Some match outcome_of (VirusTotal.cycle_body json_dumps utd env w) with
          | Raise _ => 60
          | Return VirusTotal.Failed => 60
          | Return VirusTotal.NoCandidate => 300
          | Return VirusTotal.Updated => randint 30 40 (VirusTotal.draw env)
          end)
  ∧ (∀ draw : Z, 30 ≤ randint 30 40 draw ≤ 40).
Proof.
  split; [|split].
  - intros [ch my si ba st] [r d c k].
    destruct ch as [[]|?], my as [[]|?], si as [[]|?], ba as [[|? ?]|?],
      d as [[]|], c as [[]|], k as [[]|]; reflexivity.
  - intros jd utd env w.
    unfold VirusTotal.cycle, try_except, mbind, M_bind.
    destruct (VirusTotal.cycle_body jd utd env w) as [[[t|e] w'] evs] eqn:E;
      unfold outcome_of; simpl.
    + destruct t; simpl; rewrite sleeps_app; apply last_snoc.
    + unfold VirusTotal.quit_driver, mbind, M_bind, get_self. simpl.
      destruct (VirusTotal.hasattr _ && VirusTotal.truthy _); simpl; rewrite sleeps_app; apply last_snoc.
  - intros draw. unfold randint.
    pose proof (Z.mod_pos_bound draw (40 - 30 + 1)). lia.
Qed.

End Backoff.

(** ** AbuseIPDB: the single run, and the loop under errors and stops *)

Section AbuseIPDBLoopFacts.
Import AbuseIPDB AbuseIPDBWorker AbuseIPDBRun.

(** X8. [collect] never raises and leaves every handle the object has
    closed, whether the cookies, the batches or nothing at all raised. *)
Theorem collect_always_closes (env : cycle_env) (s : Collector) :
  let out := collect env s in
  outcome_of out = Return ()
  ∧ state_of out = {| running := running s;
                      driver := closed (driver s);
                      conn := closed (conn s);
                      cur := closed (cur s) |}.
Proof.
  destruct env as [ch my [[]|e1] [rs|e2] st], s as [r [[]|] [[]|] [[]|]];
    vm_compute; done.
Qed.

(** A turn of the loop returns, keeps the flag, and sleeps once. *)
Lemma cycle_returns env s :
  ∃ s' evs, cycle env s = (Return (), s', evs)
            ∧ running s' = running s
            ∧ List.length (sleeps evs) = 1%nat.
Proof.
  destruct env as [[[]|e0] [[]|e1] [[]|e2] [[|d rs]|e3] st], s as [r [[]|] [[]|] [[]|]];
    eexists _, _; vm_compute; done.
Qed.

Lemma loop_stopped envs s : running s = false → loop envs s = (Return (), s, []).
Proof. intros Hr. destruct envs as [|env envs]; [done|]. simpl. unfold mbind, M_bind, get_self. by rewrite Hr. Qed.

Lemma loop_cons env envs s :
  running s = true →
  loop (env :: envs) s =
  match cycle env s with
  | (Return _, s1, evs1) =>
      let s2 := if stop_requested env then set_running false s1 else s1 in
      match loop envs s2 with
      | (r, s3, evs3) => (r, s3, evs1 ++ evs3)
      end
  | (Raise e, s1, evs1) => (Raise e, s1, evs1)
  end.
Proof.
  intros Hr. simpl. unfold mbind, M_bind, get_self. rewrite Hr. simpl.
  destruct (cycle env s) as [[[[]|e] s1] evs1]; [|done].
  unfold stop_collection, mbind, M_bind, get_self, put_self.
  destruct (stop_requested env); simpl;
    destruct (loop envs _) as [[r s3] evs3]; simpl; by rewrite ?app_nil_r.
Qed.

(** X9. Errors do not end the AbuseIPDB worker. Whatever raises inside a
    turn of [collect_continuous] (the set-up of the driver or of the
    database, the cookies, [scrape_ips]) is caught in that turn: a turn whose
    calls return or raise ends normally and leaves [running] as it was, so
    that, unless [stop_collection] is called, the loop goes on with its next
    turn. *)
Theorem abuseipdb_loop_goes_on_after_errors (env : cycle_env) (envs : list cycle_env)
    (s : Collector) :
  running s = true →
  stop_requested env = false →
  ∃ s1 evs1,
    cycle env s = (Return (), s1, evs1)
    ∧ running s1 = true
    ∧ loop (env :: envs) s
      = match loop envs s1 with
        | (r, s3, evs3) => (r, s3, evs1 ++ evs3)
        end.
Proof.
  intros Hr Hstop. rewrite loop_cons by done.
  destruct (cycle_returns env s) as (s1 & evs1 & -> & Hr1 & _). rewrite Hstop.
  exists s1, evs1. split; [done|]. split; [congruence|done].
Qed.

Lemma abuseipdb_loop_goes_on_after_errors_witness :
  ∃ s1 evs1,
    cycle abuseipdb_failing_cycle (set_running true initialized) = (Return (), s1, evs1)
    ∧ running s1 = true
    ∧ loop [abuseipdb_failing_cycle; abuseipdb_failing_cycle] (set_running true initialized)
      = match loop [abuseipdb_failing_cycle] s1 with
        | (r, s3, evs3) => (r, s3, evs1 ++ evs3)
        end.
Proof.
  apply (abuseipdb_loop_goes_on_after_errors abuseipdb_failing_cycle
           [abuseipdb_failing_cycle] (set_running true initialized)); reflexivity.
Defined.

Lemma loop_after_stop env envs1 : ∀ envs2 s,
  stop_requested env = true →
  ∃ r s' evs, loop (envs1 ++ env :: envs2) s = (r, s', evs)
              ∧ loop (envs1 ++ [env]) s = (r, s', evs)
              ∧ running s' = false.
Proof.
  induction envs1 as [|e envs1 IH]; intros envs2 s Hstop.
  - destruct (running s) eqn:Hr.
    + simpl app. rewrite !loop_cons by done.
      destruct (cycle_returns env s) as (s1 & evs1 & -> & Hr1 & _). rewrite Hstop. simpl.
      rewrite loop_stopped by done. eexists _, _, _. done.
    + rewrite !loop_stopped by done. eexists _, _, _. done.
  - destruct (running s) eqn:Hr.
    + rewrite <- !app_comm_cons, !loop_cons by done.
      destruct (cycle_returns e s) as (s1 & evs1 & -> & Hr1 & _). simpl.
      destruct (IH envs2 (if stop_requested e then set_running false s1 else s1) Hstop)
        as (r & s' & evs & -> & -> & Hr'). eexists _, _, _. done.
    + rewrite !loop_stopped by done. eexists _, _, _. done.
Qed.

(** X10. Once [stop_collection] has been called during a cycle, no later
    cycle of the AbuseIPDB worker runs: what the worker does is what it does
    up to that cycle, and it ends with the flag off. *)
Theorem abuseipdb_stop_ends_the_loop (envs1 envs2 : list cycle_env) (env : cycle_env)
    (s : Collector) :
  stop_requested env = true →
  collect_continuous (envs1 ++ env :: envs2) s = collect_continuous (envs1 ++ [env]) s
  ∧ running (state_of (collect_continuous (envs1 ++ env :: envs2) s)) = false.
Proof.
  intros Hstop. unfold collect_continuous, mbind, M_bind, get_self, put_self. simpl.
  destruct (loop_after_stop env envs1 envs2 (set_running true s) Hstop)
    as (r & s' & evs & -> & -> & Hr). done.
Qed.

Lemma abuseipdb_stop_ends_the_loop_witness :
  let stop := {| chrome := Return (); mysql := Return (); site := Return ();
                 batches := Return []; stop_requested := true |} in
  running (state_of (collect_continuous
    ([abuseipdb_failing_cycle] ++ stop :: [abuseipdb_failing_cycle]) initialized)) = false.
Proof.
  intros stop.
  apply (abuseipdb_stop_ends_the_loop [abuseipdb_failing_cycle] [abuseipdb_failing_cycle]
           stop initialized).
  reflexivity.
Defined.

End AbuseIPDBLoopFacts.

(** ** VirusTotal: which address is selected, and when it is selected again *)

Section VirusTotalFacts.
Import VirusTotal.

Global Instance score_desc_trans : Transitive score_desc.
Proof. intros a b c. unfold score_desc. lia. Qed.

Global Instance score_desc_total : Total score_desc.
Proof. intros a b. unfold score_desc. lia. Qed.

Lemma needs_update_spec now db a :
  needs_update now db a ↔
  VirusTotal_IP_Info db !! AbuseIPDB.ip_address a = None
  ∨ ∃ v t, VirusTotal_IP_Info db !! AbuseIPDB.ip_address a = Some v
           ∧ update_time v = Some t ∧ t < now - one_day.
Proof.
  unfold needs_update.
  destruct (VirusTotal_IP_Info db !! AbuseIPDB.ip_address a) as [v|] eqn:E.
  - destruct (update_time v) as [t|] eqn:Et.
    + split; [intros Hlt; right; eauto|].
      intros [?|(v' & t' & ? & ? & ?)]; [done|]. by simplify_eq.
    + split; [done|]. intros [?|(v' & t' & ? & ? & ?)]; [done|]. by simplify_eq.
  - split; [by left | done].
Qed.

(** The head of a list sorted by decreasing score has the largest score. *)
Lemma head_sorted_max (l : list AbuseIPDB.report_row) a :
  StronglySorted score_desc l → head l = Some a →
  ∀ a', a' ∈ l → AbuseIPDB.score a' ≤ AbuseIPDB.score a.
Proof.
  destruct l as [|b l]; [done|]. intros Hs [= ->] a' Hin.
  apply StronglySorted_inv in Hs as [_ Hall].
  apply elem_of_cons in Hin as [->|Hin]; [done|].
  rewrite Forall_forall in Hall. by apply Hall.
Qed.

Lemma get_ip_from_db_selected now db ip :
  get_ip_from_db SqlOk now db = Some ip →
  ∃ a, a ∈ AbuseIPDB_IP_Report db ∧ AbuseIPDB.ip_address a = ip
       ∧ needs_update now db a
       ∧ ∀ a', a' ∈ AbuseIPDB_IP_Report db → needs_update now db a' →
               AbuseIPDB.score a' ≤ AbuseIPDB.score a.
Proof.
  unfold get_ip_from_db. intros Hsel. apply fmap_Some in Hsel as (a & Hhead & ->).
  set (l := merge_sort score_desc (filter (needs_update now db) (AbuseIPDB_IP_Report db))) in *.
  assert (∀ x, x ∈ l ↔ needs_update now db x ∧ x ∈ AbuseIPDB_IP_Report db) as Hl.
  { intros x. unfold l. by rewrite merge_sort_Permutation, list_elem_of_filter. }
  assert (a ∈ l) as Ha by (destruct l; [done|]; injection Hhead as ->; left).
  exists a. apply Hl in Ha as [Hn Hin]. split; [done|]. split; [done|]. split; [done|].
  intros a' Hin' Hn'. apply (head_sorted_max l); [|done|by apply Hl].
  apply StronglySorted_merge_sort; apply _.
Qed.

(** Nothing is selected exactly when no row of the report table is due. *)
Lemma get_ip_from_db_none now db :
  get_ip_from_db SqlOk now db = None ↔
  ∀ a, a ∈ AbuseIPDB_IP_Report db → ¬ needs_update now db a.
Proof.
  unfold get_ip_from_db. rewrite fmap_None.
  set (l := merge_sort score_desc (filter (needs_update now db) (AbuseIPDB_IP_Report db))).
  assert (∀ x, x ∈ l ↔ needs_update now db x ∧ x ∈ AbuseIPDB_IP_Report db) as Hl.
  { intros x. unfold l. by rewrite merge_sort_Permutation, list_elem_of_filter. }
  split.
  - intros Hhead a Hin Hn. destruct l as [|b l']; [|done].
    assert (a ∈ []) as Hnil by (by apply Hl). by apply elem_of_nil in Hnil.
  - intros Hno. destruct l as [|b l'] eqn:El; [done|].
    assert (b ∈ b :: l') as Hb by left. apply Hl in Hb as [Hn Hin]. by destruct (Hno b).
Qed.

(** C10. [get_ip_from_db] returns at most one address. An address it returns
    is the address of a report row that has no VirusTotal row or has one whose
    [update_time] is more than one day old, and no such row has a larger
    score. After [update_db] has stored a result for it at time [now] (the
    row existed, or the column defaults to the current time), the address is
    due again exactly from the first second after [now] plus one day. *)
Theorem virustotal_selection_is_freshness_bounded json_dumps utd
    (now : Z) (db : Database) (ip : string) (data : vt_data) :
  get_ip_from_db SqlOk now db = Some ip →
  is_Some (VirusTotal_IP_Info db !! ip) ∨ utd now = Some now →
  (∃ a, a ∈ AbuseIPDB_IP_Report db ∧ AbuseIPDB.ip_address a = ip
        ∧ (VirusTotal_IP_Info db !! ip = None
           ∨ ∃ v t, VirusTotal_IP_Info db !! ip = Some v
                    ∧ update_time v = Some t ∧ t < now - one_day)
        ∧ ∀ a', a' ∈ AbuseIPDB_IP_Report db → needs_update now db a' →
                AbuseIPDB.score a' ≤ AbuseIPDB.score a)
  ∧ ∀ a (later : Z), AbuseIPDB.ip_address a = ip →
      (needs_update later (update_db json_dumps utd SqlOk now ip data db) a
       ↔ now + one_day < later).
Proof.
  intros Hsel Hstamp. split.
  - apply get_ip_from_db_selected in Hsel as (a & Hin & <- & Hn & Hmax).
    exists a. split; [done|]. split; [done|]. split; [|done].
    by apply needs_update_spec.
  - intros a later <-. unfold needs_update, update_db. simpl.
    rewrite lookup_insert_eq. simpl.
    destruct Hstamp as [[v ->]| Hdef].
    + lia.
    + destruct (VirusTotal_IP_Info db !! AbuseIPDB.ip_address a); [lia|].
      rewrite Hdef. lia.
Qed.

Lemma virustotal_selection_is_freshness_bounded_witness :
  let db0 := {| AbuseIPDB_IP_Report := [report_row_of "1.1.1.1" 50; report_row_of "8.8.8.8" 90];
                VirusTotal_IP_Info := ∅ |} in
  let data := {| d_positive := Some 3; d_total := Some 94; d_country := Some "US";
                 d_engines := []; d_total_files := 0; d_jarm := None |} in
  get_ip_from_db SqlOk 1714557600 db0 = Some "8.8.8.8"
  ∧ (needs_update (1714557600 + 86401)
       (update_db json_dumps_plain (λ t, Some t) SqlOk 1714557600 "8.8.8.8" data db0)
       (report_row_of "8.8.8.8" 90)
     ↔ 1714557600 + one_day < 1714557600 + 86401).
Proof.
  intros db0 data.
  assert (get_ip_from_db SqlOk 1714557600 db0 = Some "8.8.8.8") as Hsel
    by (vm_compute; reflexivity).
  split; [exact Hsel|].
  apply (virustotal_selection_is_freshness_bounded json_dumps_plain (λ t, Some t)
           1714557600 db0 "8.8.8.8" data Hsel); [right|]; reflexivity.
Defined.

(** The VirusTotal worker does release its session when it is stopped. *)
Lemma virustotal_stop_quits_driver (w : World) :
  driver (self w) = Obj Live →
  let out := stop_collection w in
  running (self (state_of out)) = false
  ∧ driver (self (state_of out)) = PyNone
  ∧ events_of out = [EvQuitDriver].
Proof. destruct w as [[r d] db]. simpl. intros ->. vm_compute. done. Qed.

(** A fetch that fails or raises writes nothing: the tables of the
    VirusTotal worker are as before, so the same address is selected again in
    the next cycle. *)
Lemma virustotal_failure_keeps_candidate json_dumps utd (env : cycle_env) (w : World) :
  outcome_of (cycle_body json_dumps utd env w) ≠ Return Updated →
  db (state_of (cycle json_dumps utd env w)) = db w.
Proof.
  destruct w as [[r d] tables], env as [ch nw se pg ue dr st].
  unfold cycle, cycle_body, try_except, mbind, M_bind, get_self, outcome_of, state_of.
  simpl.
  destruct d as [| |[]], ch as [[]|e]; simpl; try done;
    destruct (get_ip_from_db se nw tables) as [ip|]; simpl; try done;
    try (destruct (decide (ip = "")); simpl; try done);
    destruct pg as [[data|]|e']; simpl; done.
Qed.

End VirusTotalFacts.

(** ** VirusTotal: more on the selection and on the loop *)

Section VirusTotalMore.
Import VirusTotal.

(** X11. [get_ip_from_db] returns nothing in two cases that its caller cannot
    tell apart: MySQL raised, or no row of the report table is due. *)
Theorem get_ip_from_db_nothing (exec : sql_outcome) (now : Z) (db : Database) :
  get_ip_from_db exec now db = None ↔
  exec = SqlError ∨ ∀ a, a ∈ AbuseIPDB_IP_Report db → ¬ needs_update now db a.
Proof.
  destruct exec.
  - rewrite get_ip_from_db_none. split; [by right|]. by intros [?|?].
  - split; [by left|done].
Qed.

(** X12. A cycle that does not end in an update writes nothing: the tables
    are as before, and so is every later selection. *)
Theorem virustotal_failed_fetch_is_retried json_dumps utd (env : cycle_env) (w : World) :
  outcome_of (cycle_body json_dumps utd env w) ≠ Return Updated →
  db (state_of (cycle json_dumps utd env w)) = db w
  ∧ ∀ exec later,
      get_ip_from_db exec later (db (state_of (cycle json_dumps utd env w)))
      = get_ip_from_db exec later (db w).
Proof.
  intros Hno. pose proof (virustotal_failure_keeps_candidate json_dumps utd env w Hno) as ->.
  done.
Qed.

Lemma virustotal_failed_fetch_is_retried_witness :
  get_ip_from_db SqlOk 1714557600
    (db (state_of (cycle json_dumps_plain (λ t, Some t)
                     (virustotal_failing_cycle 0) virustotal_started)))
  = get_ip_from_db SqlOk 1714557600 (db virustotal_started).
Proof.
  apply (virustotal_failed_fetch_is_retried json_dumps_plain (λ t, Some t)
           (virustotal_failing_cycle 0) virustotal_started).
  vm_compute. discriminate.
Defined.

(** X13. [stop_collection] of the VirusTotal worker turns the flag off and
    leaves no session: the driver is quit exactly when the attribute held
    one, and the attribute does not hold one afterwards. The tables are not
    touched. *)
Theorem virustotal_stop_releases (w : World) :
  let out := stop_collection w in
  outcome_of out = Return ()
  ∧ running (self (state_of out)) = false
  ∧ truthy (driver (self (state_of out))) = false
  ∧ db (state_of out) = db w
  ∧ events_of out = if truthy (driver (self w)) then [EvQuitDriver] else [].
Proof. destruct w as [[r [| |h]] tables]; vm_compute; done. Qed.

(** X14. [update_db] swallows a MySQL error: the cycle still ends as an
    update, with its success record, but nothing is stored. *)
Theorem virustotal_update_error_is_silent json_dumps utd (env : cycle_env) (w : World)
    (ip : string) (data : vt_data) :
  driver (self w) = Obj Live →
  get_ip_from_db (select_exec env) (now env) (db w) = Some ip →
  ip ≠ "" →
  page env = Return (Some data) →
  update_exec env = SqlError →
  outcome_of (cycle_body json_dumps utd env w) = Return Updated
  ∧ db (state_of (cycle json_dumps utd env w)) = db w
  ∧ EvLog INFO ("Successfully updated information for IP: " +:+ ip)
      ∈ events_of (cycle json_dumps utd env w).
Proof.
  destruct w as [[r d] tables], env as [ch nw se pg ue dr st]. simpl.
  intros -> Hsel Hip -> ->.
  unfold cycle, cycle_body, try_except, mbind, M_bind, get_self, outcome_of, state_of,
    events_of. simpl. rewrite Hsel. simpl. rewrite decide_False by done. simpl.
  split; [done|]. split; [done|].
  do 3 right. left.
Qed.

Lemma virustotal_update_error_is_silent_witness :
  db (state_of (cycle json_dumps_plain (λ t, Some t) virustotal_unsaved_cycle
                  virustotal_started))
  = db virustotal_started.
Proof.
  apply (virustotal_update_error_is_silent json_dumps_plain (λ t, Some t)
           virustotal_unsaved_cycle virustotal_started "8.8.8.8" sample_vt_data eq_refl);
    [vm_compute; reflexivity|done|done|done].
Defined.

(** X15. An update makes progress: at the time of the update the address is
    not selected again, and whether another address is due has not
    changed. *)
Theorem virustotal_update_makes_progress json_dumps utd (now : Z) (db : Database)
    (ip : string) (data : vt_data) :
  is_Some (VirusTotal_IP_Info db !! ip) ∨ utd now = Some now →
  let db' := update_db json_dumps utd SqlOk now ip data db in
  get_ip_from_db SqlOk now db' ≠ Some ip
  ∧ ∀ a, AbuseIPDB.ip_address a ≠ ip → (needs_update now db' a ↔ needs_update now db a).
Proof.
  intros Hstamp db'. split.
  - intros Hsel. apply get_ip_from_db_selected in Hsel as (a & _ & Ha & Hdue & _).
    revert Hdue. subst db'. unfold needs_update, update_db. simpl.
    rewrite <- Ha, lookup_insert_eq. simpl. unfold one_day.
    destruct Hstamp as [[v Hv]|Hdef].
    + rewrite <- Ha in Hv. rewrite Hv. lia.
    + destruct (VirusTotal_IP_Info db !! AbuseIPDB.ip_address a); [lia|].
      rewrite Hdef. lia.
  - intros a Hne. subst db'. unfold needs_update, update_db. simpl.
    by rewrite lookup_insert_ne.
Qed.

Lemma virustotal_update_makes_progress_witness :
  get_ip_from_db SqlOk 1714557600
    (update_db json_dumps_plain (λ t, Some t) SqlOk 1714557600 "8.8.8.8"
       sample_vt_data (db virustotal_started))
  ≠ Some "8.8.8.8".
Proof.
  apply (virustotal_update_makes_progress json_dumps_plain (λ t, Some t) 1714557600
           (db virustotal_started) "8.8.8.8"). right. reflexivity.
Defined.

Lemma virustotal_setup_first json_dumps utd (env : cycle_env) (w : World) :
  truthy (driver (self w)) = false →
  head (events_of (cycle json_dumps utd env w)) = Some EvSetupDriver.
Proof.
  destruct w as [[r d] tables], env as [ch nw se pg ue dr st].
  unfold cycle, cycle_body, try_except, mbind, M_bind, get_self, events_of. simpl.
  destruct d as [| |[]], ch as [[]|e]; simpl; try done; intros _;
    destruct (get_ip_from_db se nw tables) as [ip|]; simpl; try done;
    destruct (decide (ip = "")); simpl; try done;
    destruct pg as [[data|]|e']; simpl; done.
Qed.

(** X16. The VirusTotal loop takes a new session after an error: a cycle
    that raised leaves the attribute without a session, and the next cycle
    begins by setting up a driver. *)
Theorem virustotal_reacquires_after_error json_dumps utd (env1 : cycle_env) (w : World)
    (e : string) :
  outcome_of (cycle_body json_dumps utd env1 w) = Raise e →
  let w1 := state_of (cycle json_dumps utd env1 w) in
  truthy (driver (self w1)) = false
  ∧ ∀ env2, head (events_of (cycle json_dumps utd env2 w1)) = Some EvSetupDriver.
Proof.
  intros Hraise w1.
  assert (truthy (driver (self w1)) = false) as Hnone.
  { subst w1. unfold cycle, try_except. unfold mbind at 1. unfold M_bind at 1.
    destruct (cycle_body json_dumps utd env1 w) as [[[t|e'] [[r d] tables]] evs]; [done|].
    destruct d as [| |h]; reflexivity. }
  split; [done|]. intros env2. by apply virustotal_setup_first.
Qed.

Lemma virustotal_reacquires_after_error_witness :
  head (events_of (cycle json_dumps_plain (λ t, Some t) (virustotal_failing_cycle 1)
                     (state_of (cycle json_dumps_plain (λ t, Some t)
                                  (virustotal_failing_cycle 0) virustotal_started))))
  = Some EvSetupDriver.
Proof.
  apply (virustotal_reacquires_after_error json_dumps_plain (λ t, Some t)
           (virustotal_failing_cycle 0) virustotal_started "WebDriverException").
  reflexivity.
Defined.

End VirusTotalMore.

(** ** The scheduler: a collector that raises *)

Section Scheduler.
Import App.

Lemma wrapper_events_eq env now c :
  wrapper_events env now c =
  [EvLog INFO (start_text c); EvCall (method c)] ++
  match env c now with
  | Return _ => [EvLog INFO (done_text c)]
  | Raise e => [EvLog ERROR (error_text c e)]
  end.
Proof.
  unfold wrapper_events, run_collector, try_except, events_of, mbind, M_bind. simpl.
  destruct (env c now) as [[]|e]; reflexivity.
Qed.

(** A wrapper returns, whatever the collector does, and leaves the state of
    its caller alone. *)
Lemma run_collector_returns {S} env now c (s : S) :
  run_collector env now c s = (Return (), s, wrapper_events env now c).
Proof.
  unfold wrapper_events, run_collector, try_except, events_of, mbind, M_bind. simpl.
  destruct (env c now) as [[]|e]; reflexivity.
Qed.

Lemma run_all_returns env now entries : ∀ jobs,
  run_all env now entries jobs =
  (Return (), reschedule_all now entries jobs,
   List.concat ((λ entry, wrapper_events env now (job_func (entry.2))) <$> entries)).
Proof.
  induction entries as [|entry rest IH]; intros jobs; [reflexivity|].
  simpl. unfold mbind, M_bind, run_job, mbind, M_bind.
  rewrite run_collector_returns. simpl. rewrite IH. simpl.
  by rewrite app_nil_r.
Qed.

Lemma run_pending_returns env now jobs :
  run_pending env now jobs =
  (Return (), reschedule_all now (runnable_jobs now jobs) jobs,
   List.concat ((λ entry, wrapper_events env now (job_func (entry.2))) <$> runnable_jobs now jobs)).
Proof.
  unfold run_pending, mbind, M_bind, get_self. rewrite run_all_returns. reflexivity.
Qed.

Lemma runnable_jobs_elem now jobs i j :
  (i, j) ∈ runnable_jobs now jobs ↔ jobs !! i = Some j ∧ next_run j ≤ now.
Proof.
  unfold runnable_jobs. rewrite merge_sort_Permutation, list_elem_of_filter.
  rewrite list_elem_of_lookup. unfold should_run. simpl. split.
  - intros [Hdue [k Hk]]. rewrite list_lookup_imap in Hk.
    destruct (jobs !! k) as [j'|] eqn:E; simpl in Hk; [|done]. by simplify_eq.
  - intros [Hi Hdue]. split; [done|]. exists i. rewrite list_lookup_imap, Hi. done.
Qed.

Lemma runnable_jobs_NoDup now jobs : NoDup ((runnable_jobs now jobs).*1).
Proof.
  apply NoDup_fmap_fst.
  - intros i j1 j2 [H1 _]%runnable_jobs_elem [H2 _]%runnable_jobs_elem. congruence.
  - unfold runnable_jobs. rewrite merge_sort_Permutation. apply NoDup_filter.
    apply (NoDup_fmap_1 fst). rewrite fmap_imap.
    rewrite (imap_ext _ (λ i _, i)) by done.
    rewrite (imap_seq_0 jobs (λ i, i)), list_fmap_id. apply NoDup_seq.
Qed.

Lemma reschedule_all_other now entries : ∀ jobs (i : nat),
  i ∉ entries.*1 → reschedule_all now entries jobs !! i = jobs !! i.
Proof.
  induction entries as [|[k j] rest IH]; intros jobs i Hi; [done|].
  rewrite fmap_cons, not_elem_of_cons in Hi. destruct Hi as [Hne Hi].
  simpl in *. unfold reschedule_all in *. simpl. rewrite IH by done.
  by rewrite list_lookup_insert_ne.
Qed.

Lemma reschedule_all_lookup now entries : ∀ jobs (i : nat) j,
  NoDup (entries.*1) →
  (∀ i' j', (i', j') ∈ entries → jobs !! i' = Some j') →
  (i, j) ∈ entries →
  reschedule_all now entries jobs !! i = Some (rescheduled now j).
Proof.
  induction entries as [|[k jk] rest IH]; intros jobs i j Hnd Hjobs Hin.
  { by apply elem_of_nil in Hin. }
  rewrite fmap_cons, NoDup_cons in Hnd. destruct Hnd as [Hk Hnd]. simpl in Hk.
  assert (k < List.length jobs)%nat as Hlen.
  { eapply lookup_lt_Some. apply (Hjobs k jk). left. }
  apply elem_of_cons in Hin as [[= -> ->]|Hin].
  - change (reschedule_all now rest (<[k:=rescheduled now jk]> jobs) !! k
            = Some (rescheduled now jk)).
    rewrite reschedule_all_other by done. by apply list_lookup_insert_eq.
  - change (reschedule_all now rest (<[k:=rescheduled now jk]> jobs) !! i
            = Some (rescheduled now j)).
    apply IH; [done| |done].
    intros i' j' Hin'. rewrite list_lookup_insert_ne.
    + apply Hjobs. by right.
    + intros ->. apply Hk. apply list_elem_of_fmap. by exists (i', j').
Qed.

(** After [run_pending], a job that was due has its next run counted from
    this run, whether its collector raised or not, and the others are as
    they were. *)
Lemma run_pending_reschedules env now jobs (i : nat) j :
  jobs !! i = Some j →
  state_of (run_pending env now jobs) !! i =
  Some (if decide (next_run j ≤ now) then rescheduled now j else j).
Proof.
  intros Hi. rewrite run_pending_returns. unfold state_of. simpl. case_decide as Hdue.
  - apply reschedule_all_lookup.
    + apply runnable_jobs_NoDup.
    + by intros i' j' [? _]%runnable_jobs_elem.
    + by apply runnable_jobs_elem.
  - rewrite reschedule_all_other; [done|].
    intros ([i' j'] & Heq & [Hi' Hdue']%runnable_jobs_elem)%list_elem_of_fmap.
    simpl in Heq. subst i'. rewrite Hi in Hi'. injection Hi' as <-. by apply Hdue.
Qed.

Lemma wrappers_do_not_sleep env now (entries : list (nat * job)) :
  sleeps (List.concat ((λ entry, wrapper_events env now (job_func (entry.2))) <$> entries))
  = [].
Proof.
  induction entries as [|entry l IH]; [done|].
  rewrite fmap_cons. change (List.concat (?x :: ?l)) with (x ++ List.concat l).
  rewrite sleeps_app, IH, wrapper_events_eq.
  by destruct (env (job_func (entry.2)) now).
Qed.

Lemma run_schedule_loop_sleeps env ticks : ∀ jobs,
  outcome_of (run_schedule_loop env ticks jobs) = Return ()
  ∧ sleeps (events_of (run_schedule_loop env ticks jobs)) = replicate (List.length ticks) 1.
Proof.
  induction ticks as [|now later IH]; intros jobs; [done|].
  simpl. unfold mbind, M_bind, try_except, mbind, M_bind.
  rewrite run_pending_returns. simpl.
  set (jobs' := reschedule_all now (runnable_jobs now jobs) jobs).
  destruct (IH jobs') as [Hout Hsl].
  destruct (run_schedule_loop env later jobs') as [[r s] evs].
  unfold outcome_of, events_of in *. simpl in *. split; [done|].
  rewrite !sleeps_app, Hsl. simpl.
  by rewrite wrappers_do_not_sleep.
Qed.

(** C8. For every behaviour of the collectors, every time and every list of
    jobs: [run_pending] returns; what it does is what the wrappers of the due
    jobs do, one after the other, each job of the list that is due being
    among them and being scheduled again from this run; the wrapper of a
    collector that raises writes exactly one error record on the logger of
    the application and calls the collector once, and the wrapper of a
    collector that returns writes none; and the loop of the scheduler goes
    through every tick, sleeping one second after each. *)
Theorem faulting_job_is_isolated (env : behaviour) (now : Z) (jobs : list job) :
  let out := run_pending env now jobs in
  outcome_of out = Return ()
  ∧ events_of out =
      List.concat ((λ entry, wrapper_events env now (job_func (entry.2)))
                <$> runnable_jobs now jobs)
  ∧ (∀ i j, jobs !! i = Some j → next_run j ≤ now →
            (i, j) ∈ runnable_jobs now jobs
            ∧ state_of out !! i = Some (rescheduled now j))
  ∧ (∀ c, error_records (wrapper_events env now c) =
          match env c now with
          | Raise e => [error_text c e]
          | Return _ => []
          end)
  ∧ (∀ c, calls (wrapper_events env now c) = [method c])
  ∧ (∀ ticks, outcome_of (run_schedule env ticks jobs) = Return ()
              ∧ sleeps (events_of (run_schedule env ticks jobs))
                = replicate (List.length ticks) 1).
Proof.
  intros out. subst out.
  split; [by rewrite run_pending_returns|]. split; [by rewrite run_pending_returns|].
  split; [|split; [|split]].
  - intros i j Hi Hdue. split; [by apply runnable_jobs_elem|].
    rewrite (run_pending_reschedules env now jobs i j Hi). by rewrite decide_True.
  - intros c. rewrite wrapper_events_eq. by destruct (env c now).
  - intros c. rewrite wrapper_events_eq. by destruct (env c now).
  - intros ticks. unfold run_schedule, mbind, M_bind, log, emit.
    destruct (run_schedule_loop_sleeps env ticks jobs) as [Hout Hsl].
    destruct (run_schedule_loop env ticks jobs) as [[r s] evs].
    unfold outcome_of, events_of in *. simpl in *. done.
Qed.

(** At midnight plus one hour, with the phishing and the OpenCTI jobs due
    and the phishing collector raising: both run, and one error is recorded. *)
Example faulting_job_tick :
  let env : behaviour := λ c _, match c with Phishing => Raise "ConnectionError" | _ => Return () end in
  let out := run_pending env 3600 (start_scheduler 0) in
  calls (events_of out) = ["phishing_collector.collect"; "opencti_collector.save_indicators"]
  ∧ error_records (events_of out) = ["Error in Phishing collector: ConnectionError"]
  ∧ next_run <$> state_of out = [3630; 7200; 86400; 86340; 7200].
Proof. vm_compute. done. Qed.

End Scheduler.

(** ** The start of the application *)

Section AppStartFacts.
Import App AppStart.

Ltac no_call :=
  let x := fresh "x" in
  let Hin := fresh "Hin" in
  intros x Hin; vm_compute in Hin;
  repeat (apply elem_of_cons in Hin as [Hin|Hin]; [by destruct x|]);
  by apply elem_of_nil in Hin.

(** A call before the [try] raises. *)
Ltac failed_startup E :=
  vm_compute;
  split; [split; [discriminate|intros Hall; rewrite Hall in E; discriminate]|];
  split; [split; [discriminate|intros [Hall _]; rewrite Hall in E; discriminate]|];
  split; [intros _; split; [reflexivity|no_call]|];
  split; [discriminate|];
  intros _; no_call.

(** A constructor raises. *)
Ltac failed_start Hst E :=
  vm_compute;
  split; [split; [intros _; exact Hst|reflexivity]|];
  split; [split; [discriminate|intros [_ Hall]; rewrite Hall in E; discriminate]|];
  split; [intros _; split; [reflexivity|no_call]|];
  split; [discriminate|];
  intros Hno; by destruct Hno.

(** X18. [__init__] raises exactly when one of the three calls before its
    [try] does ([init_config], [Flask], [setup_app]), and then no constructor
    has been called. After them the start is all or nothing for the
    scheduled jobs: the flag [collectors_initialized] is set exactly when all
    seven constructors return too; when it is not set, no job is registered
    and no thread is started; and when it is set, the five jobs are
    registered, whether the threads can be started or not. *)
Theorem start_is_all_or_nothing (env : start_env) (now : Z) :
  let out := init env now fresh in
  (outcome_of out = Return () ↔ ∀ c, startup env c = Return ())
  ∧ (collectors_initialized (state_of out) = Some true ↔
       (∀ c, startup env c = Return ()) ∧ (∀ c, construct env c = Return ()))
  ∧ (collectors_initialized (state_of out) ≠ Some true →
       jobs (state_of out) = []
       ∧ ∀ t, ¬ (thread_target t ∈ calls (events_of out)))
  ∧ (collectors_initialized (state_of out) = Some true →
       jobs (state_of out) = App.start_scheduler now)
  ∧ (outcome_of out ≠ Return () →
       ∀ c, ¬ (class_name c ∈ calls (events_of out))).
Proof.
  intros out. subst out.
  unfold init, AppStart.start_scheduler, setup_collectors, start_abuseipdb_collector,
    start_virustotal_collector, call_startup, new, spawn.
  generalize (App.start_scheduler now). intros js.
  destruct (startup env InitConfig) as [[]|s1] eqn:S1; [|failed_startup S1].
  destruct (startup env NewFlask) as [[]|s2] eqn:S2; [|failed_startup S2].
  destruct (startup env SetupApp) as [[]|s3] eqn:S3; [|failed_startup S3].
  assert (∀ c, startup env c = Return ()) as Hst by (by intros []).
  destruct (construct env OpenCTICollector) as [[]|e1] eqn:E1; [|failed_start Hst E1].
  destruct (construct env EmergingThreatCollector) as [[]|e2] eqn:E2; [|failed_start Hst E2].
  destruct (construct env PhishingCollector) as [[]|e3] eqn:E3; [|failed_start Hst E3].
  destruct (construct env PhishingDataCollector) as [[]|e4] eqn:E4; [|failed_start Hst E4].
  destruct (construct env AbuseIPDBCollector) as [[]|e5] eqn:E5; [|failed_start Hst E5].
  destruct (construct env AbuseIPDBSitemapCollector) as [[]|e6] eqn:E6;
    [|failed_start Hst E6].
  destruct (construct env VirusTotalCollector) as [[]|e7] eqn:E7; [|failed_start Hst E7].
  assert (∀ c, construct env c = Return ()) as Hall by (by intros []).
  destruct (start_thread env AbuseIPDBThread) as [[]|t1];
    [destruct (start_thread env VirusTotalThread) as [[]|t2];
       [destruct (start_thread env SchedulerThread) as [[]|t3]|]|];
    vm_compute;
    (split; [split; [intros _; exact Hst|reflexivity]|]);
    (split; [split; [done|reflexivity]|]);
    (split; [intros Hno; by destruct Hno|]);
    (split; [reflexivity|]);
    intros Hno; by destruct Hno.
Qed.

(** X19. [start_abuseipdb_collector] starts a thread only when the attribute
    holds none that is alive, and calling it again while that thread is alive
    does nothing. *)
Theorem start_abuseipdb_collector_once (env : start_env) (a : FlaskApp) :
  start_thread env AbuseIPDBThread = Return () →
  abuseipdb_thread a ≠ NoAttr →
  let out := start_abuseipdb_collector env a in
  abuseipdb_thread (state_of out) = Thread true
  ∧ calls (events_of out)
    = match abuseipdb_thread a with
      | Thread true => []
      | _ => [thread_target AbuseIPDBThread]
      end
  ∧ start_abuseipdb_collector env (state_of out) = (Return (), state_of out, []).
Proof.
  destruct env as [su con st], a as [ini [| |[]] vt js]; simpl; intros Hst Hattr; try done;
    unfold start_abuseipdb_collector, spawn, mbind, M_bind, get_self, put_self, emit, log,
      state_of, events_of; simpl; rewrite ?Hst; simpl; done.
Qed.

Lemma start_abuseipdb_collector_once_witness :
  let a := {| collectors_initialized := Some true; abuseipdb_thread := NoThread;
              virustotal_thread := NoThread; jobs := [] |} in
  calls (events_of (start_abuseipdb_collector (failing_at VirusTotalCollector) a))
  = [thread_target AbuseIPDBThread].
Proof.
  intros a.
  apply (start_abuseipdb_collector_once (failing_at VirusTotalCollector) a); done.
Defined.

End AppStartFacts.

(** ** The phishing export and its reader *)

Section Publication.
Import PhishingFiles.

(** The run of [collect] of the example, with the data directory set to the
    directory the reader serves and the application started in its own
    directory. The file is created empty at its final path
    [./phishing_domain/2024-05-01/20240501_235900_phishing_cti.txt] and holds
    the artifact only at the last of the four states; and the reader, which
    lists [./phishing_domain/*.txt], sends the file of the day before at
    every state, also after [collect] has returned. *)
Lemma collect_does_not_publish :
  (read (path_join phishing_domain "2024-05-01") "20240501_235900_phishing_cti.txt"
     <$> sample_collect)
  = [ Some ""; Some ""; Some ""; Some (artifact today_records) ]
  ∧ (find_latest_phishing_file send_from_cwd phishing_domain <$> sample_collect)
    = replicate 4 (SendFile phishing_domain "20240430_235900_phishing_cti.txt"
                     (content yesterday_file))
  ∧ ¬ atomic_publication (find_latest_phishing_file send_from_cwd phishing_domain)
        (artifact today_records) [yesterday_file] sample_collect.
Proof.
  split; [vm_compute; reflexivity|]. split; [vm_compute; reflexivity|].
  intros [_ (fs' & Hlast & d & n & Hsend)].
  vm_compute in Hlast. injection Hlast as <-. vm_compute in Hsend. discriminate.
Qed.

Lemma artifact_line r rest : artifact (r :: rest) = line r +:+ artifact rest.
Proof. reflexivity. Qed.

Lemma line_skipped r : py_true (r.1) && py_true (r.2) = false → line r = "".
Proof. unfold line. by intros ->. Qed.

Lemma append_empty_r (s : string) : s +:+ "" = s.
Proof. induction s as [|c s IH]; [done|]. by rewrite append_cons, IH. Qed.

Lemma string_take_drop n : ∀ s, string_take n s +:+ string_drop n s = s.
Proof.
  induction n as [|n IH]; intros [|c s]; simpl; try done.
  by rewrite append_cons, IH.
Qed.

(** The invariant of the loop: what is in the file, then what is in the
    buffers, then what is still to be written, is the artifact. *)
Lemma write_records_prefix buffering records : ∀ (w : writer) (whole : string),
  whole = on_disk w +:+ pending w +:+ artifact records →
  (∀ w', w' ∈ write_records buffering records w →
         ∃ rest, whole = on_disk w' +:+ rest)
  ∧ on_disk <$> last (write_records buffering records w) = Some whole.
Proof.
  induction records as [|r rest IH]; intros w whole Hw.
  - simpl in *. rewrite append_empty_r in Hw. split; [|by rewrite Hw].
    intros w' ->%list_elem_of_singleton. exists "". simpl. by rewrite append_empty_r.
  - simpl. set (w1 := if py_true (r.1) && py_true (r.2) then write buffering (line r) w else w).
    assert (whole = on_disk w1 +:+ pending w1 +:+ artifact rest) as Hw1.
    { subst w1. rewrite artifact_line in Hw.
      destruct (py_true (r.1) && py_true (r.2)) eqn:Ht.
      - unfold write. simpl. rewrite Hw. rewrite (append_assoc (on_disk w)). f_equal.
        rewrite <- (append_assoc (string_take _ _)), string_take_drop.
        by rewrite append_assoc.
      - by rewrite line_skipped in Hw. }
    destruct (IH w1 whole Hw1) as [Hall Hlast]. split.
    + intros w' [->|Hin]%elem_of_cons; [eauto | by apply Hall].
    + destruct (write_records buffering rest w1) eqn:E; [done|]. exact Hlast.
Qed.

(** [save_to_txt] works on the file at its final path: at every state of
    the run the file holds a prefix of the artifact, whatever the buffering,
    and at the last state it holds the artifact. *)
Lemma save_to_txt_prefixes (buffering : list string → nat) (records : list record)
    (d n : string) (now : Z) (fs : filesystem) :
  (∀ fs', fs' ∈ save_to_txt buffering records d n now fs →
          ∃ written rest,
            fs' = store d n now written fs ∧ artifact records = written +:+ rest)
  ∧ last (save_to_txt buffering records d n now fs)
    = Some (store d n now (artifact records) fs).
Proof.
  destruct (write_records_prefix buffering records opened (artifact records))
    as [Hall Hlast]; [done|].
  unfold save_to_txt, save_to_txt_states. split.
  - intros fs' (w & -> & Hin)%list_elem_of_fmap.
    apply elem_of_cons in Hin as [->|Hin].
    + exists "", (artifact records). done.
    + destruct (Hall w Hin) as [rest Hrest]. eauto.
  - rewrite fmap_last. rewrite last_cons.
    destruct (last (write_records buffering records opened)) as [w|] eqn:El.
    + simpl in Hlast. injection Hlast as Hl. simpl. by rewrite Hl.
    + discriminate.
Qed.

(** The directory of a day is not the directory the reader lists. *)
Lemma last_char_app (a b : string) : b ≠ "" → last_char (a +:+ b) = last_char b.
Proof.
  intros Hb. induction a as [|c a IH]; [by rewrite append_nil|].
  rewrite append_cons. simpl. rewrite IH.
  destruct (a +:+ b) eqn:E; [|done].
  destruct a; [rewrite append_nil in E; congruence|by rewrite append_cons in E].
Qed.

Lemma last_char_date (s : string) :
  is_date s = true → ∃ c, last_char s = Some c ∧ date_char c = true.
Proof.
  unfold is_date. intros [Hne Hall]%andb_true_iff. apply bool_decide_eq_true in Hne.
  induction s as [|c s IH]; [done|]. simpl in Hall. apply andb_true_iff in Hall as [Hc Hs].
  destruct s as [|c' s]; [by exists c|]. apply IH; done.
Qed.

Lemma daily_dir_is_not_served (dir today : string) :
  is_date today = true → path_join dir today ≠ phishing_domain.
Proof.
  intros Hdate Heq.
  assert (today ≠ "") as Hne.
  { unfold is_date in Hdate. apply andb_true_iff in Hdate as [Hne _].
    by apply bool_decide_eq_true in Hne. }
  destruct (last_char_date today Hdate) as (c & Hlast & Hc).
  assert (last_char (path_join dir today) = Some c) as Hjoin.
  { unfold path_join. destruct (decide (dir = "")); [done|].
    destruct (ends_in_slash dir).
    - by rewrite last_char_app.
    - rewrite last_char_app; [by rewrite last_char_app|]. by rewrite append_cons. }
  rewrite Heq in Hjoin. vm_compute in Hjoin. injection Hjoin as <-.
  vm_compute in Hc. discriminate.
Qed.

(** A file stored in another directory does not change what [glob] lists. *)
Lemma store_elsewhere d0 d n now c (fs : filesystem) :
  d ≠ d0 →
  filter (λ f, matches_txt d0 f = true) (store d n now c fs)
  = filter (λ f, matches_txt d0 f = true) fs.
Proof.
  intros Hd.
  assert (∀ g, directory g = d → matches_txt d0 g ≠ true) as Hout.
  { intros g Hg. unfold matches_txt. rewrite bool_decide_eq_false_2; [done|congruence]. }
  unfold store, filesystem in *. cbv zeta. case_decide as Hex.
  - clear Hex. induction fs as [|g fs IH]; [done|]. rewrite fmap_cons. cbv beta.
    destruct (decide (at_path d n g)) as [[Hg ?]|Hg].
    + rewrite (filter_cons_False _ g) by by apply Hout.
      rewrite filter_cons_False by by apply Hout. exact IH.
    + destruct (decide (matches_txt d0 g = true)).
      * rewrite !filter_cons_True by done. by rewrite IH.
      * rewrite !filter_cons_False by done. exact IH.
  - rewrite filter_app. rewrite filter_cons_False by by apply Hout.
    by rewrite filter_nil, app_nil_r.
Qed.

(** C5, as the code has it. [collect] writes the artifact in place, at its
    final path [<phishing_data_dir>/<date>/<timestamp>_phishing_cti.txt]:
    at every state of the run the file holds a prefix of the artifact,
    whatever the buffering, and at the last state the whole artifact. The
    reader lists the [.txt] files of [./phishing_domain] itself, where that
    file is not: at every state of the run, and after it, the reader answers
    what it answered before. *)
Theorem collect_writes_in_place_out_of_sight (buffering : list string → nat)
    (records : list record) (dir today stamp : string) (now : Z) (fs : filesystem)
    (send_file : file → result string) :
  is_date today = true →
  let d := path_join dir today in
  let n := stamp +:+ "_phishing_cti.txt" in
  (∀ fs', fs' ∈ collect buffering records dir today stamp now fs →
          find_latest_phishing_file send_file phishing_domain fs'
          = find_latest_phishing_file send_file phishing_domain fs)
  ∧ (records ≠ [] →
       (∀ fs', fs' ∈ collect buffering records dir today stamp now fs →
               ∃ written rest,
                 fs' = store d n now written fs ∧ artifact records = written +:+ rest)
       ∧ last (collect buffering records dir today stamp now fs)
         = Some (store d n now (artifact records) fs)).
Proof.
  intros Hdate d n. split.
  - intros fs' Hin. destruct records as [|r rest].
    + apply list_elem_of_singleton in Hin as ->. done.
    + destruct (save_to_txt_prefixes buffering (r :: rest) d n now fs) as [Hall _].
      destruct (Hall fs' Hin) as (written & _ & -> & _).
      unfold find_latest_phishing_file.
      rewrite store_elsewhere; [done|]. by apply daily_dir_is_not_served.
  - intros Hne. destruct records as [|r rest]; [done|].
    apply save_to_txt_prefixes.
Qed.

Lemma collect_writes_in_place_out_of_sight_witness :
  is_date "2024-05-01" = true
  ∧ ∀ fs', fs' ∈ sample_collect →
           find_latest_phishing_file send_from_cwd phishing_domain fs'
           = find_latest_phishing_file send_from_cwd phishing_domain [yesterday_file].
Proof.
  split; [reflexivity|].
  apply (collect_writes_in_place_out_of_sight keep_until_close today_records
           phishing_domain "2024-05-01" "20240501_235900" 1714607940 [yesterday_file]
           send_from_cwd).
  reflexivity.
Defined.

End Publication.

(** ** The phishing export and its reader: more *)

Section PublicationMore.
Import PhishingFiles.

Lemma foldl_newer files : ∀ best,
  match foldl newer best files with
  | None => best = None ∧ files = []
  | Some f =>
      (best = Some f ∨ f ∈ files)
      ∧ (∀ b, best = Some b → ctime b ≤ ctime f)
      ∧ (∀ g, g ∈ files → ctime g ≤ ctime f)
  end.
Proof.
  induction files as [|x files IH]; intros best; simpl.
  - destruct best as [b|]; [|done]. split; [by left|]. split.
    + by intros b' [= ->].
    + by intros g ?%elem_of_nil.
  - specialize (IH (newer best x)).
    destruct (foldl newer (newer best x) files) as [f|].
    + destruct IH as (Hin & Hbest & Hall).
      assert (ctime x ≤ ctime f) as Hx.
      { destruct best as [b|]; simpl in *; [|by apply Hbest].
        destruct (decide (ctime b < ctime x)).
        - by apply Hbest.
        - pose proof (Hbest b eq_refl). lia. }
      split; [|split].
      * destruct Hin as [Hin|Hin]; [|right; by right].
        destruct best as [b|]; simpl in Hin.
        -- destruct (decide (ctime b < ctime x)); injection Hin as <-; [right|]; by left.
        -- injection Hin as <-. right. left.
      * intros b ->. simpl in Hbest. destruct (decide (ctime b < ctime x)).
        -- pose proof (Hbest x eq_refl). lia.
        -- by apply Hbest.
      * intros g [->|Hg]%elem_of_cons; [done|by apply Hall].
    + destruct IH as [Hnone _]. destruct best as [b|]; simpl in Hnone; [|done].
      by destruct (decide (ctime b < ctime x)).
Qed.

Lemma find_latest_phishing_file_shape (send_file : file → result string) (d : string)
    (fs : filesystem) :
  match find_latest_phishing_file send_file d fs with
  | NotFound _ => ∀ f, f ∈ fs → matches_txt d f = false
  | SendFile d' n body =>
      ∃ f, f ∈ fs ∧ matches_txt d f = true
           ∧ directory f = d' ∧ name f = n ∧ send_file f = Return body
           ∧ ∀ g, g ∈ fs → matches_txt d g = true → ctime g ≤ ctime f
  | ServerError e =>
      ∃ f, f ∈ fs ∧ matches_txt d f = true
           ∧ send_file f = Raise e
           ∧ ∀ g, g ∈ fs → matches_txt d g = true → ctime g ≤ ctime f
  end.
Proof.
  unfold find_latest_phishing_file, latest.
  pose proof (foldl_newer (filter (λ f, matches_txt d f = true) fs) None) as H.
  destruct (foldl newer None (filter (λ f, matches_txt d f = true) fs)) as [f|].
  - destruct H as ([?|Hin] & _ & Hall); [done|].
    apply list_elem_of_filter in Hin as [Hm Hin].
    assert (∀ g, g ∈ fs → matches_txt d g = true → ctime g ≤ ctime f) as Hmax.
    { intros g Hg Hgm. apply Hall. by apply list_elem_of_filter. }
    destruct (send_file f) as [body|e] eqn:Hsend; exists f; repeat (split; [done|]); done.
  - destruct H as [_ Hnil]. intros f Hf.
    destruct (matches_txt d f) eqn:Hm; [|done].
    assert (f ∈ filter (λ f, matches_txt d f = true) fs) as Hin
      by (by apply list_elem_of_filter).
    rewrite Hnil in Hin. by apply elem_of_nil in Hin.
Qed.

(** X20. [find_latest_phishing_file] answers "not found" only when the
    directory has no [.txt] file. Otherwise it hands to [send_file] a [.txt]
    file of the directory such that no other one is newer, and answers with
    what [send_file] sends for it, or with the error when [send_file]
    raises. *)
Theorem find_latest_phishing_file_newest (send_file : file → result string) (d : string)
    (fs : filesystem) :
  match find_latest_phishing_file send_file d fs with
  | NotFound _ => ∀ f, f ∈ fs → matches_txt d f = false
  | SendFile d' n body =>
      ∃ f, f ∈ fs ∧ matches_txt d f = true
           ∧ directory f = d' ∧ name f = n ∧ send_file f = Return body
           ∧ ∀ g, g ∈ fs → matches_txt d g = true → ctime g ≤ ctime f
  | ServerError e =>
      ∃ f, f ∈ fs ∧ matches_txt d f = true
           ∧ send_file f = Raise e
           ∧ ∀ g, g ∈ fs → matches_txt d g = true → ctime g ≤ ctime f
  end.
Proof. apply find_latest_phishing_file_shape. Qed.

Lemma store_others d n now c fs :
  filter (λ f, ¬ at_path d n f) (store d n now c fs) = filter (λ f, ¬ at_path d n f) fs.
Proof.
  unfold store, filesystem in *. cbv zeta. case_decide as Hex.
  - clear Hex. induction fs as [|g fs IH]; [done|]. rewrite fmap_cons. cbv beta.
    destruct (decide (at_path d n g)) as [Hg|Hg].
    + rewrite (filter_cons_False _ g) by (intros Hno; by apply Hno).
      rewrite filter_cons_False by (intros Hno; apply Hno; by split). exact IH.
    + rewrite !filter_cons_True by done. by rewrite IH.
  - rewrite filter_app. rewrite filter_cons_False by (intros Hno; apply Hno; by split).
    by rewrite filter_nil, app_nil_r.
Qed.

(** X21. [save_to_txt] touches no other file: at every state of the run the
    files at other paths are the ones that were there, in the same order. *)
Theorem save_to_txt_leaves_other_files (buffering : list string → nat) (records : list record)
    (d n : string) (now : Z) (fs : filesystem) :
  ∀ fs', fs' ∈ save_to_txt buffering records d n now fs →
         filter (λ f, ¬ at_path d n f) fs' = filter (λ f, ¬ at_path d n f) fs.
Proof.
  intros fs' (w & -> & _)%list_elem_of_fmap. apply store_others.
Qed.

Lemma save_to_txt_leaves_other_files_witness :
  filter (λ f, ¬ at_path phishing_domain "20240501_235900_phishing_cti.txt" f)
    (store phishing_domain "20240501_235900_phishing_cti.txt" 1714607940 ""
       [yesterday_file])
  = [yesterday_file].
Proof.
  apply (save_to_txt_leaves_other_files keep_until_close today_records phishing_domain
           "20240501_235900_phishing_cti.txt" 1714607940 [yesterday_file]).
  left.
Defined.

Lemma store_elem d n now c fs g :
  g ∈ store d n now c fs →
  g = {| directory := d; name := n; ctime := now; content := c |}
  ∨ (g ∈ fs ∧ ¬ at_path d n g).
Proof.
  unfold store. case_decide as Hex.
  - intros (h & -> & Hh)%list_elem_of_fmap. case_decide; [by left|by right].
  - intros [Hg| ->%list_elem_of_singleton]%elem_of_app; [|by left]. right. split; [done|].
    intros Hat. apply Hex. apply Exists_exists. by exists g.
Qed.

Lemma store_has d n now c fs :
  {| directory := d; name := n; ctime := now; content := c |} ∈ store d n now c fs.
Proof.
  unfold store. case_decide as Hex.
  - apply Exists_exists in Hex as (h & Hh & Hat). apply list_elem_of_fmap.
    exists h. by rewrite decide_True.
  - apply elem_of_app. right. left.
Qed.

Lemma save_to_txt_last buffering records d n now fs :
  last (save_to_txt buffering records d n now fs)
  = Some (store d n now (artifact records) fs).
Proof.
  destruct (write_records_prefix buffering records opened (artifact records))
    as [_ Hlast]; [done|].
  unfold save_to_txt, save_to_txt_states. rewrite fmap_last, last_cons.
  destruct (last (write_records buffering records opened)) as [w|]; [|done].
  simpl in *. injection Hlast as ->. done.
Qed.

Lemma latest_spec (l : list file) :
  match latest l with
  | None => l = []
  | Some f => f ∈ l ∧ ∀ g, g ∈ l → ctime g ≤ ctime f
  end.
Proof.
  unfold latest. pose proof (foldl_newer l None) as H.
  destruct (foldl newer None l) as [f|].
  - destruct H as ([?|Hin] & _ & Hall); done.
  - by destruct H.
Qed.

(** The file the reader chooses once [save_to_txt] has written a [.txt]
    file into its directory and the other [.txt] files there are older. *)
Lemma latest_after_save_to_txt (records : list record) (d n : string) (now : Z)
    (fs : filesystem) :
  ends_with ".txt" n = true →
  String.prefix "." n = false →
  (∀ f, f ∈ fs → matches_txt d f = true → ¬ at_path d n f → ctime f < now) →
  latest (filter (λ f, matches_txt d f = true) (store d n now (artifact records) fs))
  = Some {| directory := d; name := n; ctime := now; content := artifact records |}.
Proof.
  intros Htxt Hdot Hold.
  set (f0 := {| directory := d; name := n; ctime := now; content := artifact records |}).
  assert (f0 ∈ filter (λ f, matches_txt d f = true) (store d n now (artifact records) fs))
    as Hin0.
  { apply list_elem_of_filter. split; [|apply store_has].
    unfold matches_txt. simpl. rewrite Htxt, Hdot, bool_decide_eq_true_2; done. }
  pose proof (latest_spec (filter (λ f, matches_txt d f = true)
                             (store d n now (artifact records) fs))) as H.
  destruct (latest _) as [f|].
  - destruct H as [Hf Hmax]. f_equal.
    apply list_elem_of_filter in Hf as [Hm Hf].
    apply store_elem in Hf as [->|[Hf Hno]]; [done|].
    pose proof (Hmax f0 Hin0) as Hle. pose proof (Hold f Hf Hm Hno). simpl in Hle. lia.
  - rewrite H in Hin0. by apply elem_of_nil in Hin0.
Qed.

(** X22. Writer and reader together: when [save_to_txt] has written a
    [.txt] file into the directory of the reader and returned, and the other
    [.txt] files there are older, [find_latest_phishing_file] hands that
    file, with the whole artifact in it, to [send_file]: it answers with what
    [send_file] sends for it, or with the error when [send_file] raises. *)
Theorem published_file_is_served (buffering : list string → nat) (records : list record)
    (d n : string) (now : Z) (fs : filesystem) (send_file : file → result string) :
  ends_with ".txt" n = true →
  String.prefix "." n = false →
  (∀ f, f ∈ fs → matches_txt d f = true → ¬ at_path d n f → ctime f < now) →
  find_latest_phishing_file send_file d
    (default fs (last (save_to_txt buffering records d n now fs)))
  = match send_file {| directory := d; name := n; ctime := now;
                       content := artifact records |} with
    | Return body => SendFile d n body
    | Raise e => ServerError e
    end.
Proof.
  intros Htxt Hdot Hold. rewrite save_to_txt_last. simpl.
  unfold find_latest_phishing_file. by rewrite latest_after_save_to_txt.
Qed.

Lemma published_file_is_served_witness :
  find_latest_phishing_file send_from_cwd phishing_domain
    (default [yesterday_file]
       (last (save_to_txt keep_until_close today_records phishing_domain
                "20240501_235900_phishing_cti.txt" 1714607940 [yesterday_file])))
  = SendFile phishing_domain "20240501_235900_phishing_cti.txt" (artifact today_records).
Proof.
  apply (published_file_is_served keep_until_close today_records phishing_domain
           "20240501_235900_phishing_cti.txt" 1714607940 [yesterday_file] send_from_cwd);
    [reflexivity|reflexivity|].
  intros f [->|Hf%elem_of_nil]%elem_of_cons _ _; [|done]. vm_compute. reflexivity.
Defined.

Lemma artifact_skips r rest :
  py_true (r.1) && py_true (r.2) = false → artifact (r :: rest) = artifact rest.
Proof. intros H. by rewrite artifact_line, (line_skipped r H). Qed.

(** X23. A record without an address or without an IP leaves no trace in
    the artifact. [collect] writes no file when the query gave no record; when
    it gave records but none with both fields, it still creates the file,
    empty. *)
Theorem collect_with_incomplete_records (buffering : list string → nat) (records : list record)
    (dir today stamp : string) (now : Z) (fs : filesystem) :
  artifact records = artifact (filter (λ r, py_true (r.1) && py_true (r.2) = true) records)
  ∧ (records = [] → collect buffering records dir today stamp now fs = [fs])
  ∧ (records ≠ [] →
     Forall (λ r, py_true (r.1) && py_true (r.2) = false) records →
     last (collect buffering records dir today stamp now fs)
     = Some (store (path_join dir today) (stamp +:+ "_phishing_cti.txt") now "" fs)).
Proof.
  split; [|split].
  - induction records as [|r rest IH]; [done|].
    destruct (py_true (r.1) && py_true (r.2)) eqn:Hr.
    + rewrite filter_cons_True by done. by rewrite !artifact_line, IH.
    + rewrite filter_cons_False by congruence. by rewrite artifact_skips.
  - by intros ->.
  - intros Hne Hall. destruct records as [|r rest]; [done|].
    unfold collect. rewrite save_to_txt_last. do 2 f_equal.
    clear Hne. induction Hall as [|x l Hx _ IH]; [done|]. by rewrite artifact_skips.
Qed.

End PublicationMore.

(** ** The phishing collector: the host of an address *)

Section DomainFacts.
Import PhishingCollector.

Lemma rev_app_cons c (a b : string) :
  String.rev_app (String c a) b = String.rev_app a (String c b).
Proof. reflexivity. Qed.

Lemma rev_empty (s : string) : String.rev s = String.rev_app s "".
Proof. reflexivity. Qed.

Lemma prefix_empty (s : string) : String.prefix "" s = true.
Proof. by destruct s. Qed.

Lemma prefix_cons c d (sep s : string) :
  String.prefix (String c sep) (String d s)
  = if ascii_dec c d then String.prefix sep s else false.
Proof. reflexivity. Qed.

Lemma prefix_slash c s : String.prefix "/" (String c s) = bool_decide (c = "/"%char).
Proof.
  rewrite prefix_cons. destruct (ascii_dec "/" c) as [<-|Hne].
  - by rewrite prefix_empty.
  - symmetry. apply bool_decide_eq_false. congruence.
Qed.

Lemma prefix_double_slash c s : String.prefix "//" (String c s) = true → c = "/"%char.
Proof. rewrite prefix_cons. by destruct (ascii_dec "/" c) as [<-|Hne]. Qed.

Lemma prefix_double_slash_here (b : string) :
  String.prefix "//" (String "/" (String "/" b)) = true.
Proof. by destruct b. Qed.

Lemma contains_cons sep c s :
  contains sep (String c s) = String.prefix sep (String c s) || contains sep s.
Proof. reflexivity. Qed.

Lemma contains_slash_cons c s :
  contains "/" (String c s) = false ↔ c ≠ "/"%char ∧ contains "/" s = false.
Proof.
  rewrite contains_cons, prefix_slash, orb_false_iff, bool_decide_eq_false. done.
Qed.

Lemma contains_slash_rev_app (a b : string) :
  contains "/" a = false → contains "/" b = false →
  contains "/" (String.rev_app a b) = false.
Proof.
  revert b. induction a as [|c a IH]; intros b Ha Hb; [done|].
  apply contains_slash_cons in Ha as [Hc Ha]. rewrite rev_app_cons.
  apply IH; [done|]. by apply contains_slash_cons.
Qed.

Lemma split_slash_head s : ∀ cur p,
  contains "/" cur = false →
  head (split_go "/" 0 cur s) = Some p →
  contains "/" p = false.
Proof.
  induction s as [|c s IH]; intros cur p Hcur.
  - simpl. intros [= <-]. rewrite rev_empty. by apply contains_slash_rev_app.
  - cbn [split_go]. destruct (String.prefix "/" (String c s)) eqn:Hp.
    + simpl. intros [= <-]. rewrite rev_empty. by apply contains_slash_rev_app.
    + apply IH. apply contains_slash_cons. split; [|done].
      intros ->. by rewrite prefix_slash, bool_decide_eq_true_2 in Hp.
Qed.

(** X24. The host that [_get_domain_ip] resolves never contains a slash,
    whatever the address. *)
Theorem domain_of_has_no_slash (url : string) : contains "/" (domain_of url) = false.
Proof.
  unfold domain_of, split.
  destruct (head (split_go "/" 0 "" (default "" (last (split_go "//" 0 "" url)))))
    as [p|] eqn:Hp; [|done].
  simpl. by apply (split_slash_head _ "" p eq_refl Hp).
Qed.

(** A text without the separator is one piece. *)
Lemma split_go_no_match sep s : ∀ cur,
  contains sep s = false →
  split_go sep 0 cur s = [String.rev_app cur s].
Proof.
  induction s as [|c s IH]; intros cur Hno; [done|].
  cbn [split_go]. rewrite contains_cons in Hno. apply orb_false_iff in Hno as [Hp Hno].
  rewrite Hp. by rewrite IH.
Qed.

Lemma split_go_nonempty sep s : ∀ skip cur, split_go sep skip cur s ≠ [].
Proof.
  induction s as [|c s IH]; intros skip cur; [done|].
  cbn [split_go]. destruct skip; [|apply IH].
  destruct (String.prefix sep (String c s)); [done|apply IH].
Qed.

Lemma last_cons_nonempty {A} (x : A) (l : list A) : l ≠ [] → last (x :: l) = last l.
Proof. by destruct l. Qed.

Lemma ends_in_slash_cons c s :
  ends_in_slash (String c s) = false →
  ends_in_slash s = false ∧ (s = "" → c ≠ "/"%char).
Proof.
  destruct s as [|d s]; simpl.
  - intros H%bool_decide_eq_false. split; [done|]. by intros _.
  - intros H. split; [done|]. discriminate.
Qed.

(** After a last [//] that no slash precedes, the last piece is the rest. *)
Lemma split_double_slash_last (b : string) pre : ∀ skip cur,
  contains "//" b = false →
  (skip ≤ 1)%nat →
  (pre = "" → skip = 0%nat) →
  ends_in_slash pre = false →
  last (split_go "//" skip cur (pre +:+ "//" +:+ b)) = Some b.
Proof.
  induction pre as [|c pre IH]; intros skip cur Hb Hskip Hempty Hend.
  - rewrite (Hempty eq_refl). rewrite append_nil.
    change ("//" +:+ b) with (String "/" (String "/" b)).
    cbn [split_go]. rewrite prefix_double_slash_here.
    rewrite last_cons_nonempty by apply split_go_nonempty.
    change (String.length "//" - 1)%nat with 1%nat. cbn [split_go].
    by rewrite split_go_no_match.
  - rewrite append_cons. cbn [split_go].
    apply ends_in_slash_cons in Hend as [Hend' Hlast].
    destruct skip as [|skip].
    + destruct (String.prefix "//" (String c (pre +:+ "//" +:+ b))) eqn:Hp.
      * rewrite last_cons_nonempty by apply split_go_nonempty.
        change (String.length "//" - 1)%nat with 1%nat.
        apply IH; [done|lia| |done].
        intros ->. exfalso. apply prefix_double_slash in Hp. by apply Hlast.
      * apply IH; [done|lia|done|done].
    + apply IH; [done|lia| |done]. intros _. lia.
Qed.

Lemma split_slash_first (host rest : string) : ∀ cur,
  contains "/" host = false →
  head (split_go "/" 0 cur (host +:+ "/" +:+ rest)) = Some (String.rev_app cur host).
Proof.
  induction host as [|c host IH]; intros cur Hno.
  - rewrite append_nil, append_cons, append_nil. cbn [split_go].
    by rewrite prefix_slash, bool_decide_eq_true_2.
  - apply contains_slash_cons in Hno as [Hc Hno]. rewrite append_cons. cbn [split_go].
    assert (String.prefix "/" (String c (host +:+ "/" +:+ rest)) = false) as ->.
    { rewrite prefix_slash. by apply bool_decide_eq_false. }
    by rewrite IH.
Qed.

(** X25. The host is read after the last [//] of the address: for an
    address made of a beginning, [//], a host without slash, a slash and a
    path with no [//] in it, [_get_domain_ip] resolves that host, whatever
    the beginning is (it may hold another address) as long as it does not
    end with a slash. *)
Theorem domain_of_reads_after_last_double_slash (pre host path : string) :
  ends_in_slash pre = false →
  contains "/" host = false →
  contains "//" (host +:+ "/" +:+ path) = false →
  domain_of (pre +:+ "//" +:+ host +:+ "/" +:+ path) = host.
Proof.
  intros Hend Hhost Hpath. unfold domain_of, split.
  rewrite (split_double_slash_last (host +:+ "/" +:+ path) pre 0 "" Hpath);
    [|lia|done|done].
  simpl. by rewrite split_slash_first.
Qed.

Lemma domain_of_reads_after_last_double_slash_witness :
  domain_of "http://evil.example/redirect?to=https://bank.example/login" = "bank.example".
Proof.
  apply (domain_of_reads_after_last_double_slash
           "http://evil.example/redirect?to=https:" "bank.example" "login");
    reflexivity.
Defined.

End DomainFacts.

(** ** The phishing collector: the table *)

Section SaveToDbFacts.
Import PhishingCollector.
Context (timestamp_of_insert : Z → Z) (timestamp_of_update : Z → Z → Z).

Lemma exists_same_url u (t : list phishing_row) :
  Exists (same_url u) t ↔ u ∈ phishing_url <$> t.
Proof.
  rewrite Exists_exists, list_elem_of_fmap. unfold same_url.
  split; intros (r & H1 & H2); exists r; [by split|by split].
Qed.

Lemma upsert_row_urls now x t :
  phishing_url <$> upsert_row timestamp_of_insert timestamp_of_update now x t
  = if decide (Exists (same_url (x.1.1)) t)
    then phishing_url <$> t
    else (phishing_url <$> t) ++ [x.1.1].
Proof.
  unfold PhishingCollector.upsert_row. destruct (decide _) as [He|He].
  - rewrite <- list_fmap_compose. apply list_fmap_ext. intros i r _. simpl.
    by destruct (decide _).
  - by rewrite fmap_app.
Qed.

Lemma save_rows_spec exec now data : ∀ t n t' n',
  save_rows timestamp_of_insert timestamp_of_update exec now data t n = (t', n') →
  counted n' = (counted n + List.length data)%nat
  ∧ (new_records n ≤ new_records n')%nat
  ∧ List.length t' = (List.length t + (new_records n' - new_records n))%nat
  ∧ (NoDup (phishing_url <$> t) → NoDup (phishing_url <$> t'))
  ∧ (∀ u, u ∈ phishing_url <$> t' ↔
          u ∈ phishing_url <$> t
          ∨ ∃ x, x ∈ data ∧ has_ip x = true ∧ exec x = SqlOk ∧ x.1.1 = u).
Proof.
  induction data as [|x data IH]; intros t n t' n' Hrun.
  - injection Hrun as <- <-. unfold counted. simpl.
    repeat split; [lia|lia|lia|done|by left|].
    intros [?|(x & Hx & _)]; [done|]. by apply elem_of_nil in Hx.
  - cbn [PhishingCollector.save_rows] in Hrun.
    assert (∀ u, (u ∈ phishing_url <$> t
                  ∨ ∃ y, y ∈ data ∧ has_ip y = true ∧ exec y = SqlOk ∧ y.1.1 = u)
                 → u ∈ phishing_url <$> t
                   ∨ ∃ y, y ∈ x :: data ∧ has_ip y = true ∧ exec y = SqlOk ∧ y.1.1 = u)
      as Hweak.
    { intros u [?|(y & Hy & ?)]; [by left|]. right. exists y. split; [by right|done]. }
    assert (has_ip x = false ∨ exec x = SqlError →
            ∀ u, (u ∈ phishing_url <$> t
                  ∨ ∃ y, y ∈ x :: data ∧ has_ip y = true ∧ exec y = SqlOk ∧ y.1.1 = u)
                 → u ∈ phishing_url <$> t
                   ∨ ∃ y, y ∈ data ∧ has_ip y = true ∧ exec y = SqlOk ∧ y.1.1 = u)
      as Hskip.
    { intros Hno u [?|(y & Hy & Hip & Hex & Hu)]; [by left|].
      apply elem_of_cons in Hy as [->|Hy]; [|right; by exists y].
      destruct Hno; congruence. }
    destruct (has_ip x) eqn:Hip; [destruct (exec x) eqn:Hex|].
    + apply IH in Hrun as (Hc & Hn & Hl & Hd & Hk).
      assert (phishing_url <$> upsert_row timestamp_of_insert timestamp_of_update now x t
              = if decide (Exists (same_url (x.1.1)) t)
                then phishing_url <$> t else (phishing_url <$> t) ++ [x.1.1]) as Hu
        by apply upsert_row_urls.
      assert (List.length (upsert_row timestamp_of_insert timestamp_of_update now x t)
              = if decide (Exists (same_url (x.1.1)) t)
                then List.length t else S (List.length t)) as Hlen.
      { unfold PhishingCollector.upsert_row. destruct (decide _).
        - by rewrite length_fmap.
        - rewrite length_app. simpl. lia. }
      destruct (decide (Exists (same_url (x.1.1)) t)) as [He|He].
      * rewrite bool_decide_eq_true_2 in Hc, Hn, Hl by done.
        rewrite Hu in Hd, Hk. unfold counted in *. simpl in *.
        repeat split; [lia|lia|lia|done|..].
        -- intros Hin. apply Hweak. by apply Hk.
        -- intros [Hin|(y & Hy & Hyip & Hyex & Hyu)]; apply Hk; [by left|].
           apply elem_of_cons in Hy as [->|Hy]; [|right; by exists y].
           left. subst u. by apply exists_same_url.
      * rewrite bool_decide_eq_false_2 in Hc, Hn, Hl by done.
        rewrite Hu in Hd, Hk. unfold counted in *. simpl in *.
        repeat split; [lia|lia|lia|..].
        -- intros Hnd. apply Hd. apply NoDup_app. repeat split; [done| |apply NoDup_singleton].
           intros u Hin Hin'. apply list_elem_of_singleton in Hin' as ->.
           by apply He, exists_same_url.
        -- intros Hin. apply Hk in Hin as [Hin|Hin]; [|by apply Hweak; right].
           apply elem_of_app in Hin as [Hin|Hin]; [by left|].
           apply list_elem_of_singleton in Hin as ->.
           right. exists x. split; [by left|done].
        -- intros [Hin|(y & Hy & Hyip & Hyex & Hyu)]; apply Hk.
           ++ left. apply elem_of_app. by left.
           ++ apply elem_of_cons in Hy as [->|Hy]; [|right; by exists y].
              left. apply elem_of_app. right. by apply list_elem_of_singleton.
    + apply IH in Hrun as (Hc & Hn & Hl & Hd & Hk). unfold counted in *. simpl in *.
      repeat split; [lia|lia|lia|done|..].
      * intros Hin. apply Hweak. by apply Hk.
      * intros Hin. apply Hk. apply Hskip; [by right|done].
    + apply IH in Hrun as (Hc & Hn & Hl & Hd & Hk). unfold counted in *. simpl in *.
      repeat split; [lia|lia|lia|done|..].
      * intros Hin. apply Hweak. by apply Hk.
      * intros Hin. apply Hk. apply Hskip; [by left|done].
Qed.

(** X26. [save_to_db] counts every tuple once: the three counters add up to
    the number of tuples, and the table grows by exactly the number counted
    as new. *)
Theorem save_to_db_counts_every_tuple connect exec now data t t' n :
  save_to_db timestamp_of_insert timestamp_of_update connect exec now data t = (t', Some n) →
  (new_records n + updated_records n + skipped_records n)%nat = List.length data
  ∧ List.length t' = (List.length t + new_records n)%nat.
Proof.
  unfold PhishingCollector.save_to_db. destruct data as [|x data]; [done|].
  destruct connect; [|done].
  destruct (PhishingCollector.save_rows _ _ _ _ _ _ _) as [t1 n1] eqn:Hrun.
  intros [= <- <-]. apply save_rows_spec in Hrun as (Hc & Hn & Hl & _).
  unfold counted in Hc. simpl in *. split; lia.
Qed.

(** X27. [save_to_db] keeps the addresses of the table pairwise distinct,
    and the addresses afterwards are those before and those of the tuples
    that have an IP and whose statement went through: a tuple without IP
    adds nothing, and nothing is removed. *)
Theorem save_to_db_keys connect exec now data t t' n :
  save_to_db timestamp_of_insert timestamp_of_update connect exec now data t = (t', Some n) →
  (NoDup (phishing_url <$> t) → NoDup (phishing_url <$> t'))
  ∧ (∀ u, u ∈ phishing_url <$> t' ↔
          u ∈ phishing_url <$> t
          ∨ ∃ x, x ∈ data ∧ has_ip x = true ∧ exec x = SqlOk ∧ x.1.1 = u).
Proof.
  unfold PhishingCollector.save_to_db. destruct data as [|x data]; [done|].
  destruct connect; [|done].
  destruct (PhishingCollector.save_rows _ _ _ _ _ _ _) as [t1 n1] eqn:Hrun.
  intros [= <- <-]. by apply save_rows_spec in Hrun as (_ & _ & _ & Hd & Hk).
Qed.

Lemma upsert_row_has_ip now x t :
  has_ip x = true →
  Forall (λ r, row_has_ip r = true) t →
  Forall (λ r, row_has_ip r = true)
    (upsert_row timestamp_of_insert timestamp_of_update now x t).
Proof.
  intros Hx Ht. unfold PhishingCollector.upsert_row. destruct (decide _) as [He|He].
  - apply Forall_fmap. eapply Forall_impl; [exact Ht|]. intros r Hr. simpl.
    by destruct (decide _).
  - apply Forall_app. split; [done|]. by apply Forall_singleton.
Qed.

Lemma save_rows_has_ip exec now data : ∀ t n,
  Forall (λ r, row_has_ip r = true) t →
  Forall (λ r, row_has_ip r = true)
    (save_rows timestamp_of_insert timestamp_of_update exec now data t n).1.
Proof.
  induction data as [|x data IH]; intros t n Ht; [done|].
  cbn [PhishingCollector.save_rows].
  destruct (has_ip x) eqn:Hip; [destruct (exec x)|]; apply IH; try done.
  by apply upsert_row_has_ip.
Qed.

(** X28. Every row of the table holds an IP, once that is so: [save_to_db]
    writes no row without one, whether the statements go through or not. *)
Theorem save_to_db_rows_have_ip connect exec now data t :
  Forall (λ r, row_has_ip r = true) t →
  Forall (λ r, row_has_ip r = true)
    (save_to_db timestamp_of_insert timestamp_of_update connect exec now data t).1.
Proof.
  intros Ht. unfold PhishingCollector.save_to_db. destruct data as [|x data]; [done|].
  destruct connect; [|done].
  pose proof (save_rows_has_ip exec now (x :: data) t
                {| new_records := 0; updated_records := 0; skipped_records := 0 |} Ht) as H.
  by destruct (PhishingCollector.save_rows _ _ _ _ _ _ _).
Qed.

End SaveToDbFacts.

Lemma save_to_db_counts_every_tuple_witness :
  ∃ t' n,
    PhishingCollector.sample_save = (t', Some n)
    ∧ (PhishingCollector.new_records n + PhishingCollector.updated_records n
       + PhishingCollector.skipped_records n)%nat = 3%nat
    ∧ List.length t' = (1 + PhishingCollector.new_records n)%nat.
Proof.
  eexists _, _. split; [reflexivity|].
  apply (save_to_db_counts_every_tuple (λ now, now) (λ old _, old) SqlOk (λ _, SqlOk)
           1714557600 PhishingCollector.sample_feed PhishingCollector.sample_table).
  reflexivity.
Defined.

Lemma save_to_db_keys_witness :
  ∃ t', PhishingCollector.sample_save.1 = t'
        ∧ NoDup (PhishingCollector.phishing_url <$> t')
        ∧ ¬ ("http://b.example/verify" ∈ PhishingCollector.phishing_url <$> t').
Proof.
  eexists. split; [reflexivity|].
  destruct (save_to_db_keys (λ now, now) (λ old _, old) SqlOk (λ _, SqlOk)
              1714557600 PhishingCollector.sample_feed PhishingCollector.sample_table
              _ _ eq_refl) as [Hd Hk].
  split.
  - apply Hd. apply NoDup_singleton.
  - intros Hin. apply Hk in Hin as [Hin|(x & Hx & Hip & _ & Hu)].
    + by apply list_elem_of_singleton in Hin.
    + unfold PhishingCollector.sample_feed in Hx.
      repeat (apply elem_of_cons in Hx as [->|Hx]; [done|]).
      by apply elem_of_nil in Hx.
Defined.

Lemma save_to_db_rows_have_ip_witness :
  Forall (λ r, PhishingCollector.row_has_ip r = true) PhishingCollector.sample_save.1.
Proof.
  apply (save_to_db_rows_have_ip (λ now, now) (λ old _, old) SqlOk (λ _, SqlOk)
           1714557600 PhishingCollector.sample_feed PhishingCollector.sample_table).
  by apply Forall_singleton.
Defined.

(** ** The threat intelligence service: the files that are read *)

Section ThreatIntelligenceFacts.
Import PhishingFiles ThreatIntelligence.

Lemma insert_newest_perm f l : insert_newest f l ≡ₚ f :: l.
Proof.
  induction l as [|g l IH]; [done|]. simpl. destruct (decide _); [|done].
  rewrite IH. apply Permutation_swap.
Qed.

Lemma sort_newest_first_perm l : sort_newest_first l ≡ₚ l.
Proof.
  induction l as [|f l IH]; [done|]. simpl. rewrite insert_newest_perm. by rewrite IH.
Qed.

Lemma insert_newest_sorted f l :
  StronglySorted newest_first l → StronglySorted newest_first (insert_newest f l).
Proof.
  induction l as [|g l IH]; intros Hs.
  - repeat constructor.
  - apply StronglySorted_inv in Hs as [Hs Hg]. simpl. destruct (decide _) as [Hlt|Hge].
    + constructor; [by apply IH|]. rewrite insert_newest_perm. constructor; [|done].
      unfold newest_first. lia.
    + constructor; [by constructor|]. constructor; [unfold newest_first; lia|].
      eapply Forall_impl; [exact Hg|]. unfold newest_first. intros x Hx. lia.
Qed.

Lemma sort_newest_first_sorted l : StronglySorted newest_first (sort_newest_first l).
Proof.
  induction l as [|f l IH]; [constructor|]. simpl. by apply insert_newest_sorted.
Qed.

Lemma filter_sorted {A} (R : relation A) (P : A → Prop) `{!∀ x, Decision (P x)} l :
  StronglySorted R l → StronglySorted R (filter P l).
Proof.
  induction 1 as [|x l Hs IH Hx]; [constructor|].
  destruct (decide (P x)).
  - rewrite filter_cons_True by done. constructor; [done|].
    apply Forall_forall. intros y Hy%list_elem_of_filter.
    rewrite Forall_forall in Hx. apply Hx, Hy.
  - by rewrite filter_cons_False.
Qed.

Lemma recent_from_take recent l : ∀ found,
  (found < 7)%nat →
  recent_from recent found l = take (7 - found) (filter (λ f, recent f = true) l).
Proof.
  induction l as [|f l IH]; intros found Hfound.
  - by destruct (7 - found)%nat.
  - simpl. destruct (recent f) eqn:Hr.
    + rewrite filter_cons_True by done.
      replace (7 - found)%nat with (S (6 - found)) by lia. simpl.
      destruct (decide _) as [Hlast|Hmore].
      * replace (6 - found)%nat with 0%nat by lia. by rewrite take_0.
      * rewrite IH by lia. do 2 f_equal.
    + rewrite filter_cons_False by congruence. by apply IH.
Qed.

(** The function as a whole: the first seven of the recent ones among the
    sorted files. *)
Lemma find_latest_json_files_take local cutoff d fs :
  find_latest_json_files local cutoff d fs
  = take 7 (filter (λ f, is_recent local cutoff f = true)
              (sort_newest_first (filter (λ f, matches_json d f = true) fs))).
Proof.
  unfold find_latest_json_files.
  destruct (filter _ fs) as [|f l] eqn:Hglob; [done|].
  by rewrite recent_from_take by lia.
Qed.

(** X29. [find_latest_json_files] returns at most seven files, the latest
    first; each of them is a [.json] file of the directory and is not older
    than the cutoff. *)
Theorem find_latest_json_files_recent_and_few (local : Z → Z) (cutoff : Z) (d : string)
    (fs : filesystem) :
  let files := find_latest_json_files local cutoff d fs in
  (List.length files ≤ 7)%nat
  ∧ StronglySorted newest_first files
  ∧ ∀ f, f ∈ files →
      f ∈ fs ∧ matches_json d f = true ∧ cutoff ≤ local (ctime f).
Proof.
  intros files. subst files. rewrite find_latest_json_files_take.
  set (l := filter _ (sort_newest_first _)).
  assert (StronglySorted newest_first l) as Hs
    by apply filter_sorted, sort_newest_first_sorted.
  split; [rewrite length_take; lia|]. split.
  - rewrite <- (take_drop 7 l) in Hs. by apply StronglySorted_app_1_l in Hs.
  - intros f Hf. apply (subseteq_take 7 l) in Hf. subst l.
    apply list_elem_of_filter in Hf as [Hrec Hf].
    rewrite sort_newest_first_perm in Hf. apply list_elem_of_filter in Hf as [Hm Hf].
    repeat split; [done|done|]. by apply bool_decide_eq_true in Hrec.
Qed.

(** X30. The files that are left out are the older ones: a recent [.json]
    file of the directory that is not returned is there only because seven
    were returned, and none of the seven is older than it. *)
Theorem find_latest_json_files_newest (local : Z → Z) (cutoff : Z) (d : string)
    (fs : filesystem) (g : file) :
  g ∈ fs →
  matches_json d g = true →
  cutoff ≤ local (ctime g) →
  ¬ (g ∈ find_latest_json_files local cutoff d fs) →
  List.length (find_latest_json_files local cutoff d fs) = 7%nat
  ∧ ∀ f, f ∈ find_latest_json_files local cutoff d fs → ctime g ≤ ctime f.
Proof.
  intros Hg Hm Hrec. rewrite find_latest_json_files_take.
  set (l := filter _ (sort_newest_first _)). intros Hout.
  assert (StronglySorted newest_first l) as Hs
    by apply filter_sorted, sort_newest_first_sorted.
  assert (g ∈ l) as Hl.
  { subst l. apply list_elem_of_filter. split; [by apply bool_decide_eq_true|].
    rewrite sort_newest_first_perm. by apply list_elem_of_filter. }
  rewrite <- (take_drop 7 l) in Hl, Hs.
  apply elem_of_app in Hl as [Hl|Hl]; [done|]. split.
  - rewrite length_take. assert (List.length (drop 7 l) ≠ 0%nat) as Hne.
    { intros Hz. apply nil_length_inv in Hz. rewrite Hz in Hl. by apply elem_of_nil in Hl. }
    rewrite length_drop in Hne. lia.
  - intros f Hf. by apply (StronglySorted_app_1_elem_of _ _ _ f g Hs).
Qed.

Lemma find_latest_json_files_newest_witness :
  List.length (find_latest_json_files (λ t, t) 1714600000 threat_intelligence sample_reports)
  = 7%nat.
Proof.
  apply (find_latest_json_files_newest (λ t, t) 1714600000 threat_intelligence
           sample_reports (report 1)).
  - vm_compute. do 2 right. by left.
  - reflexivity.
  - vm_compute. discriminate.
  - vm_compute. intros Hin.
    repeat (apply elem_of_cons in Hin as [Hin|Hin]; [discriminate|]).
    by apply elem_of_nil in Hin.
Defined.

End ThreatIntelligenceFacts.
